(** * Greek freelancer tax calculator: a shallow embedding and its properties

    The development follows the Python sources:
    - [config.py]: the rate table ([INCOME_TAX_BRACKETS], [VAT_RATE], the
      EFKA rates, [VALID_FREQUENCIES]);
    - [models.py]: the result records and their [to_dict] / [from_dict];
    - [tax_calculator.py]: the six calculation functions.

    Money is Python's [decimal.Decimal].  A finite [Decimal] is a signed
    coefficient and an exponent; arithmetic is done in the default context
    of the module ([prec = 28], rounding set to [ROUND_HALF_UP] by
    [tax_calculator.py]): the exact result is computed and then rounded to
    28 significant digits, and [quantize] raises [InvalidOperation] when
    the quantized coefficient needs more than 28 digits.  Both are part of
    the model.  Not modelled: the special values (NaN, infinities; the
    unbounded bracket limit [Decimal('inf')] is an [option]), the sign of
    a zero (Python's comparisons do not see it) and the exponent limits
    [Emin]/[Emax] of the context. *)

From Stdlib Require Import ZArith Reals Lra Lia String Ascii List.
From stdpp Require Import base option gmap strings list.

#[local] Set Warnings "-register-all".
#[local] Open Scope Z_scope.

(** * The decimal library *)

Record Decimal := mkDec { coef : Z; expo : Z }.

Definition prec : Z := 28.

(** ** Digits of a coefficient *)

Definition digit_char (d : Z) : ascii := ascii_of_nat (48 + Z.to_nat d).

Fixpoint digits_aux (fuel : nat) (n : Z) (acc : list ascii) : list ascii :=
  match fuel with
  | O => acc
  | S f =>
      let acc' := digit_char (n mod 10) :: acc in
      if n <? 10 then acc' else digits_aux f (n / 10) acc'
  end.

(** [str(n)] for a natural number [n]: its decimal digits, most
    significant first ("0" for zero). *)
Definition int_digits (n : Z) : list ascii :=
  digits_aux (S (Z.to_nat (Z.log2 n))) n [].

(** [len(self._int)]. *)
Definition ndigits (c : Z) : Z := Z.of_nat (length (int_digits (Z.abs c))).

(** ** Rounding *)

(** Division of the magnitude by [10^k], [k >= 1], rounding half away
    from zero ([ROUND_HALF_UP]); the sign is kept. *)
Definition half_up_div (c k : Z) : Z :=
  Z.sgn c * ((Z.abs c + 5 * 10 ^ (k - 1)) / 10 ^ k).

(** [Decimal._fix]: round to the precision of the context. *)
Definition fix_ctx (d : Decimal) : Decimal :=
  let n := ndigits (coef d) in
  if n <=? prec then d
  else
    let k := n - prec in
    let q := half_up_div (coef d) k in
    if 10 ^ prec <=? Z.abs q
    then mkDec (q / 10) (expo d + k + 1)
    else mkDec q (expo d + k).

(** [Decimal._rescale(exp, ROUND_HALF_UP)]. *)
Definition rescale (d : Decimal) (e : Z) : Decimal :=
  if e <=? expo d
  then mkDec (coef d * 10 ^ (expo d - e)) e
  else mkDec (half_up_div (coef d) (e - expo d)) e.

(** [Decimal.quantize(Decimal(10) ** e, ROUND_HALF_UP)]; [None] is the
    [InvalidOperation] raised when the result does not fit the
    precision. *)
Definition quantize (d : Decimal) (e : Z) : option Decimal :=
  if coef d =? 0 then Some (mkDec 0 e)
  else if prec <? ndigits (coef d) + expo d - e then None
  else
    let ans := rescale d e in
    if prec <? ndigits (coef ans) then None else Some ans.

(** The amounts of the results are quantized to cents. *)
Definition q2 (d : Decimal) : option Decimal := quantize d (-2).

(** ** Comparison *)

Definition dec_cmp (a b : Decimal) : comparison :=
  let m := Z.min (expo a) (expo b) in
  (coef a * 10 ^ (expo a - m)) ?= (coef b * 10 ^ (expo b - m)).

Definition dec_lt (a b : Decimal) : bool :=
  match dec_cmp a b with Lt => true | _ => false end.

Definition dec_le (a b : Decimal) : bool :=
  match dec_cmp a b with Gt => false | _ => true end.

Definition dec_eq (a b : Decimal) : bool :=
  match dec_cmp a b with Eq => true | _ => false end.

(** The builtins [min(a, b)] and [max(a, b)]: the first argument wins a
    tie. *)
Definition py_min (a b : Decimal) : Decimal := if dec_lt b a then b else a.
Definition py_max (a b : Decimal) : Decimal := if dec_lt a b then b else a.

(** ** Arithmetic in the context *)

Definition dec_neg (a : Decimal) : Decimal := mkDec (- coef a) (expo a).

Definition dec_add (a b : Decimal) : Decimal :=
  let m := Z.min (expo a) (expo b) in
  fix_ctx (mkDec (coef a * 10 ^ (expo a - m) + coef b * 10 ^ (expo b - m)) m).

Definition dec_sub (a b : Decimal) : Decimal := dec_add a (dec_neg b).

Definition dec_mul (a b : Decimal) : Decimal :=
  fix_ctx (mkDec (coef a * coef b) (expo a + expo b)).

(** The loop of [__truediv__] for an exact quotient: drop trailing zeros
    while the exponent is below the ideal one. *)
Fixpoint strip_zeros (fuel : nat) (c e ideal : Z) : Z * Z :=
  match fuel with
  | O => (c, e)
  | S f =>
      if (e <? ideal) && (c mod 10 =? 0)
      then strip_zeros f (c / 10) (e + 1) ideal
      else (c, e)
  end.

(** [Decimal.__truediv__]; [None] is the error raised for a zero
    divisor. *)
Definition dec_div (a b : Decimal) : option Decimal :=
  if coef b =? 0 then None
  else if coef a =? 0 then Some (fix_ctx (mkDec 0 (expo a - expo b)))
  else
    let sign := Z.sgn (coef a) * Z.sgn (coef b) in
    let ia := Z.abs (coef a) in
    let ib := Z.abs (coef b) in
    let shift := ndigits ib - ndigits ia + prec + 1 in
    let e := expo a - expo b - shift in
    let '(q, r) :=
      if 0 <=? shift
      then (ia * 10 ^ shift / ib, (ia * 10 ^ shift) mod ib)
      else (ia / (ib * 10 ^ (- shift)), ia mod (ib * 10 ^ (- shift))) in
    let '(q', e') :=
      if r =? 0
      then strip_zeros (Z.to_nat (expo a - expo b - e)) q e (expo a - expo b)
      else (if q mod 5 =? 0 then q + 1 else q, e) in
    Some (fix_ctx (mkDec (sign * q') e')).

(** A Python [int] operand is converted with [Decimal(n)]. *)
Definition of_int (n : Z) : Decimal := mkDec n 0.

(** * config.py *)

Module TaxBracket.
Record t := mk {
  upper_limit : option Decimal;   (* [None] is [Decimal('inf')] *)
  rate : Decimal;
  description : string }.
End TaxBracket.

Definition INCOME_TAX_BRACKETS : list TaxBracket.t := [
  TaxBracket.mk (Some (mkDec 1000000 (-2))) (mkDec 9 (-2)) "€0 - €10,000: 9%";
  TaxBracket.mk (Some (mkDec 2000000 (-2))) (mkDec 22 (-2)) "€10,001 - €20,000: 22%";
  TaxBracket.mk (Some (mkDec 3000000 (-2))) (mkDec 28 (-2)) "€20,001 - €30,000: 28%";
  TaxBracket.mk (Some (mkDec 4000000 (-2))) (mkDec 36 (-2)) "€30,001 - €40,000: 36%";
  TaxBracket.mk None (mkDec 44 (-2)) "Over €40,000: 44%" ].

Definition VAT_RATE : Decimal := mkDec 24 (-2).
Definition EFKA_MAIN_RATE : Decimal := mkDec 1333 (-4).
Definition EFKA_ADDITIONAL_RATE : Decimal := mkDec 667 (-4).
Definition EFKA_TOTAL_RATE : Decimal := dec_add EFKA_MAIN_RATE EFKA_ADDITIONAL_RATE.
Definition VALID_FREQUENCIES : list string := ["monthly"; "quarterly"; "annual"]%string.

(** * models.py *)

(** What [to_dict] builds: strings, integers, lists and dictionaries
    with string keys. *)
Inductive pyval :=
| VStr (s : string)
| VInt (z : Z)
| VList (l : list pyval)
| VDict (m : gmap string pyval).

(** [BracketBreakdown.bracket_max] is a [Decimal] or a string
    (['unlimited'] for the top bracket). *)
Inductive bracket_bound :=
| BoundDec (d : Decimal)
| BoundStr (s : string).

Module BracketBreakdown.
Record t := mk {
  bracket_min : Decimal;
  bracket_max : bracket_bound;
  rate : Decimal;
  taxable_amount : Decimal;
  tax_amount : Decimal }.
End BracketBreakdown.

Module IncomeTaxBreakdown.
Record t := mk {
  total_tax : Decimal;
  effective_rate : Decimal;
  bracket_breakdown : list BracketBreakdown.t }.
End IncomeTaxBreakdown.

Module VATCalculation.
Record t := mk {
  vat_amount : Decimal;
  rate : Decimal }.
End VATCalculation.

Module SocialSecurityCalculation.
Record t := mk {
  total_contribution : Decimal;
  main_insurance : Decimal;
  additional_contributions : Decimal;
  rate : Decimal }.
End SocialSecurityCalculation.

Module TaxCalculationResult.
Record t := mk {
  gross_income : Decimal;
  deductible_expenses : Decimal;
  taxable_income : Decimal;
  income_tax : IncomeTaxBreakdown.t;
  vat : VATCalculation.t;
  social_security : SocialSecurityCalculation.t;
  total_taxes : Decimal;
  total_obligations : Decimal;
  net_income : Decimal;
  effective_total_rate : Decimal }.
End TaxCalculationResult.

Module PaymentInstallment.
Record t := mk {
  period_number : Z;
  payment_amount : Decimal }.
End PaymentInstallment.

Module PaymentSchedule.
Record t := mk {
  annual_total : Decimal;
  frequency : string;
  number_of_installments : Z;
  installment_amount : Decimal;
  schedule : list PaymentInstallment.t }.
End PaymentSchedule.

(** * tax_calculator.py *)

(** The calculators return [None] when a [quantize] raises
    [InvalidOperation]; the arguments are the inputs after
    [Decimal(str(x))]. *)

Definition calculate_taxable_income (gross_income deductible_expenses : Decimal)
  : option Decimal :=
  let taxable := py_max (of_int 0) (dec_sub gross_income deductible_expenses) in
  q2 taxable.

(** The [for] loop of [calculate_income_tax] over the remaining
    brackets, with its four variables. *)
Fixpoint bracket_loop (brackets : list TaxBracket.t)
    (remaining_income previous_bracket_limit total_tax : Decimal)
    (bracket_breakdown : list BracketBreakdown.t)
  : option (Decimal * list BracketBreakdown.t) :=
  match brackets with
  | [] => Some (total_tax, bracket_breakdown)
  | bracket :: rest =>
      if dec_le remaining_income (of_int 0)
      then Some (total_tax, bracket_breakdown)
      else
        let bracket_limit := TaxBracket.upper_limit bracket in
        let rate := TaxBracket.rate bracket in
        let taxable_in_bracket :=
          match bracket_limit with
          | None => remaining_income
          | Some limit =>
              let bracket_size := dec_sub limit previous_bracket_limit in
              py_min remaining_income bracket_size
          end in
        let tax_in_bracket := dec_mul taxable_in_bracket rate in
        let total_tax := dec_add total_tax tax_in_bracket in
        bmin ← q2 previous_bracket_limit;
        bmax ← match bracket_limit with
               | None => Some (BoundStr "unlimited")
               | Some limit => BoundDec <$> q2 limit
               end;
        r ← q2 (dec_mul rate (of_int 100));
        amount ← q2 taxable_in_bracket;
        tax ← q2 tax_in_bracket;
        let line := BracketBreakdown.mk bmin bmax r amount tax in
        bracket_loop rest
          (dec_sub remaining_income taxable_in_bracket)
          (match bracket_limit with
           | None => previous_bracket_limit
           | Some limit => limit
           end)
          total_tax
          (bracket_breakdown ++ [line])
  end.

Definition calculate_income_tax (taxable_income : Decimal)
  : option IncomeTaxBreakdown.t :=
  if dec_le taxable_income (of_int 0)
  then Some (IncomeTaxBreakdown.mk (mkDec 0 (-2)) (mkDec 0 (-2)) [])
  else
    '(total_tax, bracket_breakdown) ←
      bracket_loop INCOME_TAX_BRACKETS taxable_income (of_int 0) (of_int 0) [];
    effective_rate ←
      (if dec_lt (of_int 0) taxable_income
       then x ← dec_div total_tax taxable_income; Some (dec_mul x (of_int 100))
       else Some (of_int 0));
    total_tax_rounded ← q2 total_tax;
    effective_rate_rounded ← q2 effective_rate;
    Some (IncomeTaxBreakdown.mk total_tax_rounded effective_rate_rounded
            bracket_breakdown).

Definition calculate_vat (gross_income : Decimal) : option VATCalculation.t :=
  if dec_le gross_income (of_int 0)
  then
    r ← q2 (dec_mul VAT_RATE (of_int 100));
    Some (VATCalculation.mk (mkDec 0 (-2)) r)
  else
    let vat_amount := dec_mul gross_income VAT_RATE in
    vat_rounded ← q2 vat_amount;
    r ← q2 (dec_mul VAT_RATE (of_int 100));
    Some (VATCalculation.mk vat_rounded r).

Definition calculate_social_security (gross_income : Decimal)
  : option SocialSecurityCalculation.t :=
  if dec_le gross_income (of_int 0)
  then
    r ← q2 (dec_mul EFKA_TOTAL_RATE (of_int 100));
    Some (SocialSecurityCalculation.mk (mkDec 0 (-2)) (mkDec 0 (-2)) (mkDec 0 (-2)) r)
  else
    let main_insurance := dec_mul gross_income EFKA_MAIN_RATE in
    let additional_contributions := dec_mul gross_income EFKA_ADDITIONAL_RATE in
    let total_contribution := dec_mul gross_income EFKA_TOTAL_RATE in
    total_rounded ← q2 total_contribution;
    main_rounded ← q2 main_insurance;
    additional_rounded ← q2 additional_contributions;
    r ← q2 (dec_mul EFKA_TOTAL_RATE (of_int 100));
    Some (SocialSecurityCalculation.mk total_rounded main_rounded additional_rounded r).

Definition calculate_all_taxes (gross_income deductible_expenses : Decimal)
  : option TaxCalculationResult.t :=
  if dec_le gross_income (of_int 0)
  then
    gross_rounded ← q2 gross_income;
    expenses_rounded ← q2 deductible_expenses;
    income_tax ← calculate_income_tax (of_int 0);
    vat ← calculate_vat (of_int 0);
    social_security ← calculate_social_security (of_int 0);
    Some (TaxCalculationResult.mk gross_rounded expenses_rounded (mkDec 0 (-2))
            income_tax vat social_security
            (mkDec 0 (-2)) (mkDec 0 (-2)) (mkDec 0 (-2)) (mkDec 0 (-2)))
  else
    taxable_income ← calculate_taxable_income gross_income deductible_expenses;
    income_tax ← calculate_income_tax taxable_income;
    vat ← calculate_vat gross_income;
    social_security ← calculate_social_security gross_income;
    let total_taxes :=
      dec_add (IncomeTaxBreakdown.total_tax income_tax)
              (SocialSecurityCalculation.total_contribution social_security) in
    let total_obligations := dec_add total_taxes (VATCalculation.vat_amount vat) in
    let net_income := dec_sub gross_income total_taxes in
    effective_total_rate ←
      (if dec_lt (of_int 0) gross_income
       then x ← dec_div total_taxes gross_income; Some (dec_mul x (of_int 100))
       else Some (of_int 0));
    gross_rounded ← q2 gross_income;
    expenses_rounded ← q2 deductible_expenses;
    total_taxes_rounded ← q2 total_taxes;
    total_obligations_rounded ← q2 total_obligations;
    net_income_rounded ← q2 net_income;
    effective_total_rate_rounded ← q2 effective_total_rate;
    Some (TaxCalculationResult.mk gross_rounded expenses_rounded taxable_income
            income_tax vat social_security
            total_taxes_rounded total_obligations_rounded net_income_rounded
            effective_total_rate_rounded).

(** ** The payment schedule *)

Inductive PyError :=
| ValueError (msg : string)
| InvalidOperation
| KeyError (key : string).

(** [str.lower] on the ASCII letters; the bytes of other characters are
    kept (no other character lowers to a letter of the three valid
    names). *)
Definition lower_char (c : ascii) : ascii :=
  let n := nat_of_ascii c in
  if ((65 <=? n) && (n <=? 90))%nat then ascii_of_nat (n + 32) else c.

Fixpoint lower (s : string) : string :=
  match s with
  | EmptyString => EmptyString
  | String c s' => String (lower_char c) (lower s')
  end.

Fixpoint join (sep : string) (l : list string) : string :=
  match l with
  | [] => EmptyString
  | [s] => s
  | s :: l' => (s +:+ sep +:+ join sep l')%string
  end.

Definition payments_per_year : gmap string Z :=
  {[ "monthly"%string := 12; "quarterly"%string := 4; "annual"%string := 1 ]}.

Definition calculate_payment_schedule (annual_tax : Decimal) (frequency : string)
  : PyError + PaymentSchedule.t :=
  let annual_tax :=
    if dec_lt annual_tax (of_int 0) then mkDec 0 (-2) else annual_tax in
  if negb (bool_decide (lower frequency ∈ VALID_FREQUENCIES))
  then inl (ValueError ("Invalid frequency '" +:+ frequency +:+ "'. Must be one of: "
                        +:+ join ", " VALID_FREQUENCIES))
  else
    let frequency := lower frequency in
    match payments_per_year !! frequency with
    | None => inl (KeyError frequency)
    | Some num_payments =>
        match
          payment_amount ← dec_div annual_tax (of_int num_payments);
          amount ← q2 payment_amount;
          let schedule :=
            (λ i, PaymentInstallment.mk i amount) <$> seqZ 1 num_payments in
          total ← q2 annual_tax;
          Some (PaymentSchedule.mk total frequency num_payments amount schedule)
        with
        | None => inl InvalidOperation
        | Some s => inr s
        end
    end.

(** * Serialization (models.py) *)

(** ** [str(Decimal)] and [Decimal(str)] *)

(** ["%+d" % n]. *)
Definition str_exp (n : Z) : list ascii :=
  (if n <? 0 then "-"%char else "+"%char) :: int_digits (Z.abs n).

(** [Decimal.__str__]: scientific notation is used for a positive
    exponent or when there are more than five zeros after the point. *)
Definition str_Decimal (d : Decimal) : string :=
  let sign := if coef d <? 0 then ["-"%char] else [] in
  let digits := int_digits (Z.abs (coef d)) in
  let len := Z.of_nat (length digits) in
  let leftdigits := expo d + len in
  let dotplace :=
    if (expo d <=? 0) && (-6 <? leftdigits) then leftdigits else 1 in
  let '(intpart, fracpart) :=
    if dotplace <=? 0
    then (["0"%char], "."%char :: replicate (Z.to_nat (- dotplace)) "0"%char ++ digits)
    else if len <=? dotplace
    then (digits ++ replicate (Z.to_nat (dotplace - len)) "0"%char, [])
    else (take (Z.to_nat dotplace) digits, "."%char :: drop (Z.to_nat dotplace) digits) in
  let exp :=
    if leftdigits =? dotplace then [] else "E"%char :: str_exp (leftdigits - dotplace) in
  string_of_list_ascii (sign ++ intpart ++ fracpart ++ exp).

Definition is_digit (c : ascii) : bool :=
  let n := nat_of_ascii c in ((48 <=? n) && (n <=? 57))%nat.

Definition digit_value (c : ascii) : Z := Z.of_nat (nat_of_ascii c) - 48.

(** [int(digits)]. *)
Definition digits_value (l : list ascii) : Z :=
  fold_left (λ acc c, 10 * acc + digit_value c) l 0.

Fixpoint span_digits (l : list ascii) : list ascii * list ascii :=
  match l with
  | c :: l' =>
      if is_digit c then let '(ds, rest) := span_digits l' in (c :: ds, rest)
      else ([], l)
  | [] => ([], [])
  end.

Definition parse_sign (l : list ascii) : bool * list ascii :=
  match l with
  | c :: l' =>
      if Ascii.eqb c "-" then (true, l')
      else if Ascii.eqb c "+" then (false, l')
      else (false, l)
  | [] => (false, [])
  end.

Definition parse_exponent (l : list ascii) : option Z :=
  match l with
  | [] => Some 0
  | c :: l' =>
      if Ascii.eqb c "E" || Ascii.eqb c "e"
      then
        let '(neg, l1) := parse_sign l' in
        let '(ds, rest) := span_digits l1 in
        match ds, rest with
        | _ :: _, [] => Some (if neg then - digits_value ds else digits_value ds)
        | _, _ => None
        end
      else None
  end.

(** [Decimal(s)] for the text of a finite number: sign, digits with an
    optional point, optional exponent.  [None] stands for the
    [InvalidOperation] raised on other text (the texts of the special
    values, which the model does not have, included); surrounding blanks
    and underscores, which Python drops, are not accepted here. *)
Definition parse_chars (l : list ascii) : option Decimal :=
  let '(neg, l1) := parse_sign l in
  let '(intpart, l2) := span_digits l1 in
  let '(fracpart, l3) :=
    match l2 with
    | c :: l' => if Ascii.eqb c "." then span_digits l' else ([], l2)
    | [] => ([], l2)
    end in
  match intpart ++ fracpart with
  | [] => None
  | _ :: _ =>
      exp ← parse_exponent l3;
      let c := digits_value (intpart ++ fracpart) in
      Some (mkDec (if neg then - c else c) (exp - Z.of_nat (length fracpart)))
  end.

Definition parse_Decimal (s : string) : option Decimal :=
  parse_chars (list_ascii_of_string s).

(** [Decimal(str(v))] for a value read from a dictionary. *)
Definition decimal_of (v : pyval) : option Decimal :=
  match v with
  | VStr s => parse_Decimal s
  | VInt z => Some (of_int z)
  | _ => None
  end.

(** [data[key]]: [None] is the [KeyError], or the [TypeError] when
    [data] is not a dictionary. *)
Definition getitem (data : pyval) (key : string) : option pyval :=
  match data with
  | VDict m => m !! key
  | _ => None
  end.

Module BracketBreakdownDict.
Import BracketBreakdown.

Definition to_dict (self : t) : pyval :=
  VDict {[ "bracket_min"%string := VStr (str_Decimal (bracket_min self));
           "bracket_max"%string :=
             match bracket_max self with
             | BoundDec d => VStr (str_Decimal d)
             | BoundStr s => VStr s
             end;
           "rate"%string := VStr (str_Decimal (rate self));
           "taxable_amount"%string := VStr (str_Decimal (taxable_amount self));
           "tax_amount"%string := VStr (str_Decimal (tax_amount self)) ]}.

Definition from_dict (data : pyval) : option t :=
  bmax_raw ← getitem data "bracket_max";
  bmax ← match bmax_raw with
         | VStr s =>
             if decide (s = "unlimited"%string) then Some (BoundStr s)
             else BoundDec <$> parse_Decimal s
         | v => BoundDec <$> decimal_of v
         end;
  bmin ← getitem data "bracket_min" ≫= decimal_of;
  r ← getitem data "rate" ≫= decimal_of;
  amount ← getitem data "taxable_amount" ≫= decimal_of;
  tax ← getitem data "tax_amount" ≫= decimal_of;
  Some (mk bmin bmax r amount tax).
End BracketBreakdownDict.

Module IncomeTaxBreakdownDict.
Import IncomeTaxBreakdown.

Definition to_dict (self : t) : pyval :=
  VDict {[ "total_tax"%string := VStr (str_Decimal (total_tax self));
           "effective_rate"%string := VStr (str_Decimal (effective_rate self));
           "bracket_breakdown"%string :=
             VList (BracketBreakdownDict.to_dict <$> bracket_breakdown self) ]}.

(** [data.get('bracket_breakdown', [])] is iterated: a list gives its
    elements, an empty string or dictionary gives nothing, the elements
    of other strings and dictionaries are strings, which
    [BracketBreakdown.from_dict] cannot index, and an integer is not
    iterable. *)
Definition from_dict (data : pyval) : option t :=
  match data with
  | VDict m =>
      total ← getitem data "total_tax" ≫= decimal_of;
      er ← getitem data "effective_rate" ≫= decimal_of;
      lines ← match m !! "bracket_breakdown"%string with
              | None => Some []
              | Some (VList l) => mapM BracketBreakdownDict.from_dict l
              | Some (VStr s) => if decide (s = ""%string) then Some [] else None
              | Some (VDict m') => if decide (m' = ∅) then Some [] else None
              | Some (VInt _) => None
              end;
      Some (mk total er lines)
  | _ => None
  end.
End IncomeTaxBreakdownDict.

Module VATCalculationDict.
Import VATCalculation.

Definition to_dict (self : t) : pyval :=
  VDict {[ "vat_amount"%string := VStr (str_Decimal (vat_amount self));
           "rate"%string := VStr (str_Decimal (rate self)) ]}.

Definition from_dict (data : pyval) : option t :=
  amount ← getitem data "vat_amount" ≫= decimal_of;
  r ← getitem data "rate" ≫= decimal_of;
  Some (mk amount r).
End VATCalculationDict.

Module SocialSecurityCalculationDict.
Import SocialSecurityCalculation.

Definition to_dict (self : t) : pyval :=
  VDict {[ "total_contribution"%string := VStr (str_Decimal (total_contribution self));
           "main_insurance"%string := VStr (str_Decimal (main_insurance self));
           "additional_contributions"%string :=
             VStr (str_Decimal (additional_contributions self));
           "rate"%string := VStr (str_Decimal (rate self)) ]}.

Definition from_dict (data : pyval) : option t :=
  total ← getitem data "total_contribution" ≫= decimal_of;
  main ← getitem data "main_insurance" ≫= decimal_of;
  additional ← getitem data "additional_contributions" ≫= decimal_of;
  r ← getitem data "rate" ≫= decimal_of;
  Some (mk total main additional r).
End SocialSecurityCalculationDict.

Module TaxCalculationResultDict.
Import TaxCalculationResult.

Definition to_dict (self : t) : pyval :=
  VDict {[ "gross_income"%string := VStr (str_Decimal (gross_income self));
           "deductible_expenses"%string := VStr (str_Decimal (deductible_expenses self));
           "taxable_income"%string := VStr (str_Decimal (taxable_income self));
           "income_tax"%string := IncomeTaxBreakdownDict.to_dict (income_tax self);
           "vat"%string := VATCalculationDict.to_dict (vat self);
           "social_security"%string :=
             SocialSecurityCalculationDict.to_dict (social_security self);
           "total_taxes"%string := VStr (str_Decimal (total_taxes self));
           "total_obligations"%string := VStr (str_Decimal (total_obligations self));
           "net_income"%string := VStr (str_Decimal (net_income self));
           "effective_total_rate"%string :=
             VStr (str_Decimal (effective_total_rate self)) ]}.

Definition from_dict (data : pyval) : option t :=
  gross ← getitem data "gross_income" ≫= decimal_of;
  expenses ← getitem data "deductible_expenses" ≫= decimal_of;
  taxable ← getitem data "taxable_income" ≫= decimal_of;
  it ← getitem data "income_tax" ≫= IncomeTaxBreakdownDict.from_dict;
  v ← getitem data "vat" ≫= VATCalculationDict.from_dict;
  ss ← getitem data "social_security" ≫= SocialSecurityCalculationDict.from_dict;
  total ← getitem data "total_taxes" ≫= decimal_of;
  obligations ← getitem data "total_obligations" ≫= decimal_of;
  net ← getitem data "net_income" ≫= decimal_of;
  er ← getitem data "effective_total_rate" ≫= decimal_of;
  Some (mk gross expenses taxable it v ss total obligations net er).
End TaxCalculationResultDict.

(** * Notions used in the statements *)

Definition cents (d : Decimal) : Prop := expo d = -2.

Definition bracket_line_ok (l : BracketBreakdown.t) : Prop :=
  cents (BracketBreakdown.bracket_min l)
  ∧ (BracketBreakdown.bracket_max l = BoundStr "unlimited"
     ∨ ∃ d, BracketBreakdown.bracket_max l = BoundDec d ∧ cents d)
  ∧ cents (BracketBreakdown.rate l)
  ∧ cents (BracketBreakdown.taxable_amount l)
  ∧ cents (BracketBreakdown.tax_amount l).

Definition income_tax_ok (r : IncomeTaxBreakdown.t) : Prop :=
  cents (IncomeTaxBreakdown.total_tax r)
  ∧ cents (IncomeTaxBreakdown.effective_rate r)
  ∧ Forall bracket_line_ok (IncomeTaxBreakdown.bracket_breakdown r).

Definition vat_ok (r : VATCalculation.t) : Prop :=
  cents (VATCalculation.vat_amount r) ∧ cents (VATCalculation.rate r).

Definition social_security_ok (r : SocialSecurityCalculation.t) : Prop :=
  cents (SocialSecurityCalculation.total_contribution r)
  ∧ cents (SocialSecurityCalculation.main_insurance r)
  ∧ cents (SocialSecurityCalculation.additional_contributions r)
  ∧ cents (SocialSecurityCalculation.rate r).

(** Every amount of the result is in cents and an upper bound that is
    not a number is 'unlimited'. *)
Definition result_ok (r : TaxCalculationResult.t) : Prop :=
  cents (TaxCalculationResult.gross_income r)
  ∧ cents (TaxCalculationResult.deductible_expenses r)
  ∧ cents (TaxCalculationResult.taxable_income r)
  ∧ income_tax_ok (TaxCalculationResult.income_tax r)
  ∧ vat_ok (TaxCalculationResult.vat r)
  ∧ social_security_ok (TaxCalculationResult.social_security r)
  ∧ cents (TaxCalculationResult.total_taxes r)
  ∧ cents (TaxCalculationResult.total_obligations r)
  ∧ cents (TaxCalculationResult.net_income r)
  ∧ cents (TaxCalculationResult.effective_total_rate r).

#[local] Open Scope R_scope.

Definition bpow (e : Z) : R := powerRZ 10 e.

Definition val (d : Decimal) : R := IZR (coef d) * bpow (expo d).

(** The exact sum and product, before the rounding of the context. *)
Definition add_exact (a b : Decimal) : Decimal :=
  let m := Z.min (expo a) (expo b) in
  mkDec (coef a * 10 ^ (expo a - m) + coef b * 10 ^ (expo b - m)) m.

Definition mul_exact (a b : Decimal) : Decimal :=
  mkDec (coef a * coef b) (expo a + expo b).

(** [rnd x e N]: [N] units of [10^e] is [x] rounded half up (for
    [x >= 0]). *)
Definition rnd (x : R) (e : Z) (N : Z) : Prop :=
  (2 * IZR N - 1) * bpow e <= 2 * x < (2 * IZR N + 1) * bpow e.

(** The position of the leading digit of a positive decimal. *)
Definition mag (d : Decimal) : Z := (ndigits (coef d) + expo d)%Z.

(** The portion of the remaining income taxed in a bracket, and the
    lower bound of the next bracket. *)
Definition portion (b : TaxBracket.t) (prev remaining : Decimal) : Decimal :=
  match TaxBracket.upper_limit b with
  | None => remaining
  | Some limit => py_min remaining (dec_sub limit prev)
  end.

Definition next_limit (b : TaxBracket.t) (prev : Decimal) : Decimal :=
  match TaxBracket.upper_limit b with
  | None => prev
  | Some limit => limit
  end.

(** What [validate_configuration] checks of the brackets: rates are not
    negative and each bounded bracket has a positive width. *)
Fixpoint brackets_ok (prev : Decimal) (bs : list TaxBracket.t) : bool :=
  match bs with
  | [] => true
  | b :: rest =>
      dec_le (of_int 0) (TaxBracket.rate b)
      && match TaxBracket.upper_limit b with
         | None => true
         | Some limit => dec_lt (of_int 0) (dec_sub limit prev)
         end
      && brackets_ok (next_limit b prev) rest
  end.

(** Every field of a result is zero. *)
Definition is_zero (d : Decimal) : bool := dec_eq d (of_int 0).

Definition all_fields_zero (r : TaxCalculationResult.t) : bool :=
  let it := TaxCalculationResult.income_tax r in
  let v := TaxCalculationResult.vat r in
  let ss := TaxCalculationResult.social_security r in
  is_zero (TaxCalculationResult.gross_income r)
  && is_zero (TaxCalculationResult.deductible_expenses r)
  && is_zero (TaxCalculationResult.taxable_income r)
  && is_zero (IncomeTaxBreakdown.total_tax it)
  && is_zero (IncomeTaxBreakdown.effective_rate it)
  && bool_decide (IncomeTaxBreakdown.bracket_breakdown it = [])
  && is_zero (VATCalculation.vat_amount v)
  && is_zero (VATCalculation.rate v)
  && is_zero (SocialSecurityCalculation.total_contribution ss)
  && is_zero (SocialSecurityCalculation.main_insurance ss)
  && is_zero (SocialSecurityCalculation.additional_contributions ss)
  && is_zero (SocialSecurityCalculation.rate ss)
  && is_zero (TaxCalculationResult.total_taxes r)
  && is_zero (TaxCalculationResult.total_obligations r)
  && is_zero (TaxCalculationResult.net_income r)
  && is_zero (TaxCalculationResult.effective_total_rate r).

(** The result for a gross income that is not positive, given the
    rounded inputs. *)
Definition zero_result (gross expenses : Decimal) : TaxCalculationResult.t :=
  TaxCalculationResult.mk gross expenses (mkDec 0 (-2))
    (IncomeTaxBreakdown.mk (mkDec 0 (-2)) (mkDec 0 (-2)) [])
    (VATCalculation.mk (mkDec 0 (-2)) (mkDec 2400 (-2)))
    (SocialSecurityCalculation.mk (mkDec 0 (-2)) (mkDec 0 (-2)) (mkDec 0 (-2))
       (mkDec 2000 (-2)))
    (mkDec 0 (-2)) (mkDec 0 (-2)) (mkDec 0 (-2)) (mkDec 0 (-2)).

(** The exact sum of the [taxable_amount] fields of the lines. *)
Definition taxable_sum (lines : list BracketBreakdown.t) : Decimal :=
  foldr (λ l acc, add_exact (BracketBreakdown.taxable_amount l) acc) (of_int 0) lines.

(** The same sum counted in cents, for lines whose amounts are in
    cents. *)
Definition cents_sum (lines : list BracketBreakdown.t) : Z :=
  foldr (λ l acc, (coef (BracketBreakdown.taxable_amount l) + acc)%Z) 0%Z lines.

Definition in_cents (l : BracketBreakdown.t) : Prop :=
  expo (BracketBreakdown.taxable_amount l) = (-2)%Z.

(** Each bounded bracket has a positive width with at most two decimal
    places. *)
Fixpoint widths_in_cents (prev : Decimal) (bs : list TaxBracket.t) : bool :=
  match bs with
  | [] => true
  | b :: rest =>
      match TaxBracket.upper_limit b with
      | None => true
      | Some limit =>
          dec_lt (of_int 0) (dec_sub limit prev) && (-2 <=? expo (dec_sub limit prev))%Z
      end
      && widths_in_cents (next_limit b prev) rest
  end.

Definition has_unbounded (bs : list TaxBracket.t) : bool :=
  existsb (λ b, match TaxBracket.upper_limit b with None => true | Some _ => false end) bs.

(** The annual total after the clamp of negative values. *)
Definition clamped (annual_tax : Decimal) : Decimal :=
  if dec_lt annual_tax (of_int 0) then mkDec 0 (-2) else annual_tax.

(** The error raised for an unknown frequency. *)
Definition frequency_error (frequency : string) : PyError :=
  ValueError ("Invalid frequency '" +:+ frequency
              +:+ "'. Must be one of: monthly, quarterly, annual").

(** [|n * installment_amount - annual_total| <= n * 0.005], with both
    amounts in cents: twice the difference in cents is at most [n]. *)
Definition partition_bound (s : PaymentSchedule.t) : bool :=
  let n := PaymentSchedule.number_of_installments s in
  let inst := PaymentSchedule.installment_amount s in
  let total := PaymentSchedule.annual_total s in
  (expo inst =? -2)%Z && (expo total =? -2)%Z
  && (2 * Z.abs (n * coef inst - coef total) <=? n)%Z.

#[local] Close Scope R_scope.

(** * Reference formulas for the calculators *)

(** The bracket table read in cents: every rate is a whole percentage
    between 0 and 100 written with two decimals, every bounded limit is
    written with two decimals, lies above the previous one and below
    [10^20]. *)
Fixpoint table_in_cents (prev : Z) (bs : list TaxBracket.t) : bool :=
  match bs with
  | [] => true
  | b :: rest =>
      (expo (TaxBracket.rate b) =? -2) && (0 <=? coef (TaxBracket.rate b))
      && (coef (TaxBracket.rate b) <=? 100)
      && match TaxBracket.upper_limit b with
         | None => table_in_cents prev rest
         | Some limit =>
             (expo limit =? -2) && (prev <? coef limit) && (coef limit <=? 10 ^ 22)
             && table_in_cents (coef limit) rest
         end
  end.

(** The tax, in hundredths of a cent, of [c] cents of income that remain
    above the lower bound [prev] (in cents), bracket after bracket. *)
Fixpoint tax4 (bs : list TaxBracket.t) (prev c : Z) : Z :=
  match bs with
  | [] => 0
  | b :: rest =>
      if c <=? 0 then 0
      else
        let p := match TaxBracket.upper_limit b with
                 | None => c
                 | Some limit => Z.min c (coef limit - prev)
                 end in
        coef (TaxBracket.rate b) * p
        + tax4 rest
            (match TaxBracket.upper_limit b with None => prev | Some limit => coef limit end)
            (c - p)
  end.

(** The progressive tax of an income of [c] cents, in hundredths of a
    cent: each slice of the income is taxed at the rate of its bracket. *)
Definition progressive_tax (c : Z) : Z :=
  9 * Z.min c 1000000
  + 22 * Z.min (Z.max (c - 1000000) 0) 1000000
  + 28 * Z.min (Z.max (c - 2000000) 0) 1000000
  + 36 * Z.min (Z.max (c - 3000000) 0) 1000000
  + 44 * Z.max (c - 4000000) 0.

(** Hundredths of a cent rounded half up to cents. *)
Definition round_cents (x : Z) : Z := (x + 50) / 100.

(** The lines of the breakdown for [c] cents of income that remain above
    the lower bound [prev]: one line for each bracket that is reached. *)
Fixpoint lines_spec (bs : list TaxBracket.t) (prev c : Z) : list BracketBreakdown.t :=
  match bs with
  | [] => []
  | b :: rest =>
      if c <=? 0 then []
      else
        let rt := coef (TaxBracket.rate b) in
        let p := match TaxBracket.upper_limit b with
                 | None => c
                 | Some limit => Z.min c (coef limit - prev)
                 end in
        BracketBreakdown.mk (mkDec prev (-2))
          (match TaxBracket.upper_limit b with
           | None => BoundStr "unlimited"
           | Some limit => BoundDec (mkDec (coef limit) (-2))
           end)
          (mkDec (rt * 100) (-2)) (mkDec p (-2)) (mkDec (round_cents (rt * p)) (-2))
        :: lines_spec rest
             (match TaxBracket.upper_limit b with None => prev | Some limit => coef limit end)
             (c - p)
  end.

(** The sum of the [tax_amount] fields of the lines, counted in cents. *)
Definition tax_amount_sum (lines : list BracketBreakdown.t) : Z :=
  foldr (λ l acc, coef (BracketBreakdown.tax_amount l) + acc) 0 lines.

(** * Text

    A [str] is the [string] of its characters.  The functions below
    read ASCII text as Python does; of the characters outside ASCII,
    Python also strips the Unicode blanks and reads the Unicode decimal
    digits, which is not modelled. *)

(** [str.isspace] on ASCII: tab, line feed, vertical tab, form feed,
    carriage return, the four separators 28 to 31 and the space. *)
Definition py_isspace (c : ascii) : bool :=
  let n := nat_of_ascii c in
  ((9 <=? n) && (n <=? 13) || (28 <=? n) && (n <=? 32))%nat.

Fixpoint lstrip (l : list ascii) : list ascii :=
  match l with
  | c :: l' => if py_isspace c then lstrip l' else l
  | [] => []
  end.

Definition strip_chars (l : list ascii) : list ascii := rev (lstrip (rev (lstrip l))).

(** [s.strip()]. *)
Definition strip (s : string) : string :=
  string_of_list_ascii (strip_chars (list_ascii_of_string s)).

Fixpoint is_prefix (p l : list ascii) : bool :=
  match p, l with
  | [], _ => true
  | a :: p', b :: l' => Ascii.eqb a b && is_prefix p' l'
  | _ :: _, [] => false
  end.

Fixpoint contains_chars (sub l : list ascii) : bool :=
  is_prefix sub l
  || match l with
     | [] => false
     | _ :: l' => contains_chars sub l'
     end.

(** [sub in s]. *)
Definition contains (sub s : string) : bool :=
  contains_chars (list_ascii_of_string sub) (list_ascii_of_string s).

(** [s.startswith(p)]. *)
Definition startswith (p s : string) : bool :=
  is_prefix (list_ascii_of_string p) (list_ascii_of_string s).

(** * main.py: the file name of the results *)

(** The characters of the class [[a-zA-Z0-9_\-\.]]. *)
Definition name_char (c : ascii) : bool :=
  let n := nat_of_ascii c in
  ((97 <=? n) && (n <=? 122) || (65 <=? n) && (n <=? 90) || (48 <=? n) && (n <=? 57)
   || (n =? 95) || (n =? 45) || (n =? 46))%nat.

(** [re.match(r'^[a-zA-Z0-9_\-\.]+$', s)]: one or more characters of the
    class up to the end of the text; [$] also matches before a line feed
    that ends the text. *)
Definition match_name (s : string) : bool :=
  let l := list_ascii_of_string s in
  let body :=
    match rev l with
    | c :: r => if Ascii.eqb c "010" then rev r else l
    | [] => l
    end in
  match body with
  | [] => false
  | _ :: _ => forallb name_char body
  end.

(** [s[1] == ':'] for a text of more than one character. *)
Definition second_is_colon (s : string) : bool :=
  match list_ascii_of_string s with
  | _ :: c :: _ => Ascii.eqb c ":"
  | _ => false
  end.

Definition sanitize_filename (filename : string) : PyError + string :=
  if bool_decide (filename = ""%string) || bool_decide (strip filename = ""%string)
  then inl (ValueError "Filename cannot be empty")
  else
    let filename := strip filename in
    if startswith "/" filename
    then inl (ValueError ("Absolute paths are not allowed: " +:+ filename))
    else if second_is_colon filename
    then inl (ValueError ("Absolute paths are not allowed: " +:+ filename))
    else if contains ".." filename
    then inl (ValueError ("Path traversal patterns (..) are not allowed: " +:+ filename))
    else if contains "/" filename || contains "\" filename
    then inl (ValueError ("Directory separators are not allowed in filename: " +:+ filename))
    else if negb (match_name filename)
    then inl (ValueError ("Filename contains invalid characters. "
                          +:+ "Only alphanumeric, underscore, hyphen, and dot are allowed: "
                          +:+ filename))
    else inr filename.

Definition OUTPUT_DIR : string := "output".

(** [str(n)] for an integer. *)
Definition str_int (n : Z) : string :=
  string_of_list_ascii ((if n <? 0 then ["-"%char] else []) ++ int_digits (Z.abs n)).

(** [s.endswith(p)]. *)
Definition endswith (p s : string) : bool :=
  is_prefix (rev (list_ascii_of_string p)) (rev (list_ascii_of_string s)).

(** [os.path.join(a, b)] of [posixpath]. *)
Definition path_join (a b : string) : string :=
  if startswith "/" b then b
  else if bool_decide (a = ""%string) || endswith "/" a then a +:+ b
  else a +:+ "/" +:+ b.

(** The loop of [_generate_output_filepath] that looks for a name that
    is not taken, from [counter] on; [file_exists] is [os.path.exists]
    on the files present, [None] is a loop that has not ended within
    [fuel] rounds. *)
Fixpoint alternative_filepath (fuel : nat) (file_exists : string → bool)
    (timestamp : string) (counter : Z) : option (PyError + string) :=
  match fuel with
  | O => None
  | S fuel' =>
      match sanitize_filename
              ("tax_calculation_" +:+ timestamp +:+ "_" +:+ str_int counter +:+ ".txt") with
      | inl e => Some (inl e)
      | inr filename =>
          let file_path := path_join OUTPUT_DIR filename in
          if file_exists file_path
          then alternative_filepath fuel' file_exists timestamp (counter + 1)
          else Some (inr file_path)
      end
  end.

(** [_generate_output_filepath], given the text of the time stamp
    ([datetime.now().strftime('%Y-%m-%d_%H%M%S')]) and the files
    present; the output directory is taken to be there and writable. *)
Definition _generate_output_filepath (fuel : nat) (file_exists : string → bool)
    (timestamp : string) : option (PyError + string) :=
  match sanitize_filename ("tax_calculation_" +:+ timestamp +:+ ".txt") with
  | inl e => Some (inl e)
  | inr filename =>
      let file_path := path_join OUTPUT_DIR filename in
      if file_exists file_path
      then alternative_filepath fuel file_exists timestamp 1
      else Some (inr file_path)
  end.

(** The characters of a time stamp written by
    [strftime('%Y-%m-%d_%H%M%S')]: digits, hyphen and underscore. *)
Definition stamp_char (c : ascii) : bool :=
  is_digit c || Ascii.eqb c "-" || Ascii.eqb c "_".

(** The default name of the results, plain or with a counter. *)
Definition default_filename (timestamp : string) (counter : option Z) : string :=
  match counter with
  | None => "tax_calculation_" +:+ timestamp +:+ ".txt"
  | Some k => "tax_calculation_" +:+ timestamp +:+ "_" +:+ str_int k +:+ ".txt"
  end.

(** * Formatting of amounts *)

(** The digits of the integer part in groups of three, from the right;
    the argument and the result are in reverse order. *)
Fixpoint group3 (l : list ascii) : list ascii :=
  match l with
  | a :: b :: c :: ((_ :: _) as rest) => a :: b :: c :: ","%char :: group3 rest
  | _ => l
  end.

Definition insert_thousands_sep (digits : list ascii) : list ascii :=
  rev (group3 (rev digits)).

(** [format(d, '.pf')] and, with [sep], [format(d, ',.pf')] for a
    precision [p >= 0]: the decimal is rescaled to [p] places with the
    rounding of the context, which [tax_calculator.py] has set to
    [ROUND_HALF_UP]; the sign is the sign of [d] also when the rounded
    amount is zero. *)
Definition format_f (sep : bool) (p : Z) (d : Decimal) : string :=
  let r := rescale d (- p) in
  let digits := int_digits (Z.abs (coef r)) in
  let dotplace := Z.of_nat (length digits) - p in
  let '(intpart, fracpart) :=
    if dotplace <? 0
    then (["0"%char], replicate (Z.to_nat (- dotplace)) "0"%char ++ digits)
    else (match take (Z.to_nat dotplace) digits with
          | [] => ["0"%char]
          | i => i
          end,
          drop (Z.to_nat dotplace) digits) in
  string_of_list_ascii
    ((if coef d <? 0 then ["-"%char] else [])
     ++ (if sep then insert_thousands_sep intpart else intpart)
     ++ match fracpart with
        | [] => []
        | _ :: _ => "."%char :: fracpart
        end).

(** [format_currency] of [formatters.py]: [f"€{amount:,.2f}"]. *)
Definition format_currency (amount : Decimal) : string :=
  "€" +:+ format_f true 2 amount.

(** * models.py: the input record *)

Module TaxInput.
Record t := mk {
  gross_income : Decimal;
  deductible_expenses : Decimal }.
End TaxInput.

Module TaxInputDict.
Import TaxInput.

(** [TaxInput(gross_income, deductible_expenses)] with the checks of
    [__post_init__], for two finite decimals. *)
Definition new (gross_income deductible_expenses : Decimal) : PyError + t :=
  if dec_lt gross_income (of_int 0)
  then inl (ValueError ("Gross income must be non-negative (got "
                        +:+ str_Decimal gross_income +:+ ")"))
  else if dec_lt deductible_expenses (of_int 0)
  then inl (ValueError ("Deductible expenses must be non-negative (got "
                        +:+ str_Decimal deductible_expenses +:+ ")"))
  else if dec_lt gross_income deductible_expenses
  then inl (ValueError ("Deductible expenses (€" +:+ format_f true 2 deductible_expenses
                        +:+ ") cannot exceed gross income (€"
                        +:+ format_f true 2 gross_income +:+ ")"))
  else inr (mk gross_income deductible_expenses).

Definition to_dict (self : t) : pyval :=
  VDict {[ "gross_income"%string := VStr (str_Decimal (gross_income self));
           "deductible_expenses"%string := VStr (str_Decimal (deductible_expenses self)) ]}.

(** [None] is any exception: a missing key, a value that is not the
    text of a number, a failed check of [__post_init__]. *)
Definition from_dict (data : pyval) : option t :=
  g ← getitem data "gross_income" ≫= decimal_of;
  e ← getitem data "deductible_expenses" ≫= decimal_of;
  match new g e with
  | inr self => Some self
  | inl _ => None
  end.
End TaxInputDict.

(** * models.py: the payment schedule *)

(** The blanks that [int] skips around an ASCII text. *)
Definition c_isspace (c : ascii) : bool :=
  let n := nat_of_ascii c in ((9 <=? n) && (n <=? 13) || (n =? 32))%nat.

(** The digits of [int(s)]: single underscores may separate them. *)
Fixpoint int_body (l : list ascii) (acc : Z) (after_digit : bool) : option Z :=
  match l with
  | [] => if after_digit then Some acc else None
  | c :: l' =>
      if is_digit c then int_body l' (10 * acc + digit_value c) true
      else if Ascii.eqb c "_" && after_digit then int_body l' acc false
      else None
  end.

(** [int(s)] for an ASCII text: blanks, a sign, digits. *)
Definition parse_int (s : string) : option Z :=
  let fix skip (l : list ascii) : list ascii :=
    match l with
    | c :: l' => if c_isspace c then skip l' else l
    | [] => []
    end in
  let l := rev (skip (rev (skip (list_ascii_of_string s)))) in
  let '(neg, digits) := parse_sign l in
  n ← int_body digits 0 false;
  Some (if neg then - n else n).

(** [int(v)] for a value read from a dictionary; [None] is the
    [ValueError] or [TypeError]. *)
Definition int_of (v : pyval) : option Z :=
  match v with
  | VInt z => Some z
  | VStr s => parse_int s
  | _ => None
  end.

Module PaymentInstallmentDict.
Import PaymentInstallment.

Definition to_dict (self : t) : pyval :=
  VDict {[ "period_number"%string := VInt (period_number self);
           "payment_amount"%string := VStr (str_Decimal (payment_amount self)) ]}.

Definition from_dict (data : pyval) : option t :=
  n ← getitem data "period_number" ≫= int_of;
  amount ← getitem data "payment_amount" ≫= decimal_of;
  Some (mk n amount).
End PaymentInstallmentDict.

Module PaymentScheduleDict.
Import PaymentSchedule.

(** The old names of two keys are written beside the new ones. *)
Definition to_dict (self : t) : pyval :=
  VDict {[ "annual_total"%string := VStr (str_Decimal (annual_total self));
           "frequency"%string := VStr (frequency self);
           "number_of_payments"%string := VInt (number_of_installments self);
           "number_of_installments"%string := VInt (number_of_installments self);
           "payment_amount"%string := VStr (str_Decimal (installment_amount self));
           "installment_amount"%string := VStr (str_Decimal (installment_amount self));
           "schedule"%string := VList (PaymentInstallmentDict.to_dict <$> schedule self) ]}.

(** [data.get(key, default)]. *)
Definition get (m : gmap string pyval) (key : string) (default : pyval) : pyval :=
  match m !! key with
  | Some v => v
  | None => default
  end.

(** [None] is any exception, and also a frequency that is not a text,
    which Python stores as it is and the record here cannot hold.  The
    iteration of [data.get('schedule', [])] is that of
    [IncomeTaxBreakdown.from_dict]. *)
Definition from_dict (data : pyval) : option t :=
  match data with
  | VDict m =>
      let num_installments :=
        get m "number_of_installments" (get m "number_of_payments" (VInt 0)) in
      let installment_amt :=
        get m "installment_amount" (get m "payment_amount" (VStr "0")) in
      total ← getitem data "annual_total" ≫= decimal_of;
      freq ← match m !! "frequency"%string with
              | Some (VStr s) => Some s
              | _ => None
              end;
      n ← int_of num_installments;
      amount ← decimal_of installment_amt;
      sched ← match m !! "schedule"%string with
               | None => Some []
               | Some (VList l) => mapM PaymentInstallmentDict.from_dict l
               | Some (VStr s) => if decide (s = ""%string) then Some [] else None
               | Some (VDict m') => if decide (m' = ∅) then Some [] else None
               | Some (VInt _) => None
               end;
      Some (mk total freq n amount sched)
  | _ => None
  end.
End PaymentScheduleDict.

(** * Notions for the dictionaries *)

(** The dictionary without one of its keys. *)
Definition without (key : string) (data : pyval) : pyval :=
  match data with
  | VDict m => VDict (delete key m)
  | _ => data
  end.

(** The ten keys of the dictionary of a result. *)
Definition RESULT_KEYS : list string :=
  [ "gross_income"; "deductible_expenses"; "taxable_income"; "income_tax"; "vat";
    "social_security"; "total_taxes"; "total_obligations"; "net_income";
    "effective_total_rate" ]%string.

(** The upper bound of a line is a number or the text 'unlimited'. *)
Definition bound_ok (l : BracketBreakdown.t) : Prop :=
  ∀ s, BracketBreakdown.bracket_max l = BoundStr s → s = "unlimited"%string.

(** * main.py: validation of the inputs *)

(** A [Decimal] that is a number: finite or infinite. *)
Inductive number :=
| Finite (d : Decimal)
| Infinity (negative : bool).

(** What [Decimal(text)] reads: a number or a NaN. *)
Inductive parsed :=
| Number (x : number)
| NaN (signaling : bool).

(** The texts of the special values after the sign, in any case:
    [inf], [infinity], [nan] and [snan] with optional digits. *)
Definition parse_special (l : list ascii) : option parsed :=
  let '(neg, rest) := parse_sign l in
  let low := lower_char <$> rest in
  if bool_decide (low = list_ascii_of_string "inf")
     || bool_decide (low = list_ascii_of_string "infinity")
  then Some (Number (Infinity neg))
  else
    let '(signaling, body) :=
      match low with
      | "s"%char :: body => (true, body)
      | _ => (false, low)
      end in
    match body with
    | "n"%char :: "a"%char :: "n"%char :: diag =>
        if forallb is_digit diag then Some (NaN signaling) else None
    | _ => None
    end.

(** [Decimal(text)] for an ASCII text: surrounding blanks are dropped,
    then the underscores; [None] is the [InvalidOperation] raised for a
    text that is not a number. *)
Definition Decimal_of_text (s : string) : option parsed :=
  let l := filter (λ c, c ≠ "_"%char) (strip_chars (list_ascii_of_string s)) in
  match parse_chars l with
  | Some d => Some (Number (Finite d))
  | None => parse_special l
  end.

(** Comparison of numbers. *)
Definition num_lt (a b : number) : bool :=
  match a, b with
  | Finite x, Finite y => dec_lt x y
  | Infinity na, Infinity nb => na && negb nb
  | Infinity na, Finite _ => na
  | Finite _, Infinity nb => negb nb
  end.

Definition num_eq (a b : number) : bool :=
  match a, b with
  | Finite x, Finite y => dec_eq x y
  | Infinity na, Infinity nb => bool_decide (na = nb)
  | _, _ => false
  end.

(** [format(x, ',.pf')]; an infinity is written [Infinity]. *)
Definition format_number (p : Z) (x : number) : string :=
  match x with
  | Finite d => format_f true p d
  | Infinity negative => if negative then "-Infinity" else "Infinity"
  end.

(** The [except ValueError] clause of the two validators: an error whose
    message has one of the [needles] is replaced. *)
Definition revalue (needles : list string) (field_name value_str msg : string) : PyError :=
  if existsb (λ needle, contains needle msg) needles
  then ValueError (field_name +:+ " must be a valid number (not '" +:+ value_str +:+ "').")
  else ValueError msg.

Definition validate_positive_number (value_str field_name : string) : PyError + number :=
  match Decimal_of_text (strip value_str) with
  | None => inl InvalidOperation
  | Some (NaN _) => inl InvalidOperation
  | Some (Number value) =>
      if num_eq value (Finite (of_int 0))
      then inl (revalue ["could not convert"%string] field_name value_str
                  (field_name +:+ " must be greater than zero (you entered 0)."))
      else if num_lt value (Finite (of_int 0))
      then inl (revalue ["could not convert"%string] field_name value_str
                  (field_name +:+ " cannot be negative (you entered "
                   +:+ format_number 2 value +:+ ")."))
      else inr value
  end.

Definition validate_non_negative_number (value_str field_name : string)
  : PyError + number :=
  match Decimal_of_text (strip value_str) with
  | None => inl InvalidOperation
  | Some (NaN _) => inl InvalidOperation
  | Some (Number value) =>
      if num_lt value (Finite (of_int 0))
      then inl (revalue ["could not convert"; "Invalid literal"]%string field_name value_str
                  (field_name +:+ " cannot be negative (you entered "
                   +:+ format_number 2 value +:+ ")."))
      else inr value
  end.

Definition validate_expenses_against_income (expenses gross_income : number)
  : PyError + unit :=
  if num_lt gross_income expenses
  then inl (ValueError ("Deductible expenses (€" +:+ format_number 2 expenses
                        +:+ ") cannot exceed gross income (€"
                        +:+ format_number 2 gross_income +:+ ")."))
  else inr ().

Definition MAX_ANNUAL_INCOME : Decimal := of_int 10000000.

Definition validate_realistic_amount (value : number) (field_name : string)
    (max_amount : option Decimal) : PyError + unit :=
  let max_amount :=
    match max_amount with
    | None => MAX_ANNUAL_INCOME
    | Some m => m
    end in
  if num_lt (Finite max_amount) value
  then inl (ValueError (field_name +:+ " of €" +:+ format_number 2 value
                        +:+ " seems unrealistic. Please enter a value less than €"
                        +:+ format_f true 0 max_amount +:+ "."))
  else inr ().

(** How a function of the command line ends: it returns, it raises, or
    it leaves the program with [sys.exit(code)]. *)
Inductive outcome (A : Type) :=
| Returns (a : A)
| Raises (e : PyError)
| Exits (code : Z).
Arguments Returns {A} a.
Arguments Raises {A} e.
Arguments Exits {A} code.

(** A step of [validate_cli_arguments] under [try ... except ValueError:
    sys.exit(1)]: other errors are not caught. *)
Definition exit_on_value_error {A : Type} (x : PyError + A) : outcome A :=
  match x with
  | inr a => Returns a
  | inl (ValueError _) => Exits 1
  | inl e => Raises e
  end.

Definition outcome_bind {A B : Type} (x : outcome A) (k : A → outcome B) : outcome B :=
  match x with
  | Returns a => k a
  | Raises e => Raises e
  | Exits code => Exits code
  end.

(** [validate_cli_arguments(args)] for the three options [--income],
    [--expenses] and [--frequency] of the command line ([None] when an
    option is not given); what is printed and logged is left out. *)
Definition validate_cli_arguments (income expenses frequency : option string)
  : outcome (option (number * number * string)) :=
  match income, expenses, frequency with
  | None, None, None => Returns None
  | _, _, _ =>
      outcome_bind
        (match income with
         | None => Returns None
         | Some text =>
             outcome_bind
               (exit_on_value_error
                  (match validate_non_negative_number text "Income" with
                   | inl e => inl e
                   | inr v =>
                       if num_lt (Finite (of_int 0)) v
                       then match validate_realistic_amount v "Income" None with
                            | inl e => inl e
                            | inr _ => inr v
                            end
                       else inr v
                   end))
               (λ v, Returns (Some v))
         end)
        (λ validated_income,
           outcome_bind
             (match expenses with
              | None => Returns None
              | Some text =>
                  outcome_bind
                    (exit_on_value_error
                       (match validate_non_negative_number text "Expenses" with
                        | inl e => inl e
                        | inr v =>
                            match validate_realistic_amount v "Expenses" None with
                            | inl e => inl e
                            | inr _ => inr v
                            end
                        end))
                    (λ v, Returns (Some v))
              end)
             (λ validated_expenses,
                outcome_bind
                  (match validated_income, validated_expenses with
                   | Some vi, Some ve =>
                       exit_on_value_error (validate_expenses_against_income ve vi)
                   | _, _ => Returns ()
                   end)
                  (λ _,
                     match validated_income, validated_expenses, frequency with
                     | Some vi, Some ve, Some vf => Returns (Some (vi, ve, vf))
                     | _, _, _ => Returns None
                     end)))
  end.

(** The names of the fields that the program passes to the validators. *)
Definition FIELD_NAMES : list string := ["Income"; "Expenses"; "Gross income"]%string.

(** The characters of a formatted amount: digits, the separators and
    the sign. *)
Definition amount_char (c : ascii) : Prop :=
  is_digit c = true ∨ c = ","%char ∨ c = "."%char ∨ c = "-"%char.

(** A text that [Decimal] does not read as a number. *)
Definition not_a_number (text : string) : Prop :=
  match Decimal_of_text (strip text) with
  | Some (Number _) => False
  | _ => True
  end.

(** * config.py: the checks of the configuration *)

(** [abs(d)], rounded to the context as [Decimal.__abs__] does. *)
Definition dec_abs (d : Decimal) : Decimal := fix_ctx (mkDec (Z.abs (coef d)) (expo d)).

(** [lo <= d <= hi]. *)
Definition dec_between (lo d hi : Decimal) : bool := dec_le lo d && dec_le d hi.

Module TaxBracketInit.
(** [TaxBracket.__post_init__], run when a bracket is built: the rate is
    between 0 and 1 and an upper limit that is not infinite is above
    zero. *)
Definition __post_init__ (b : TaxBracket.t) : PyError + unit :=
  if negb (dec_between (of_int 0) (TaxBracket.rate b) (of_int 1))
  then inl (ValueError ("Tax rate must be between 0 and 1 (got "
                        +:+ str_Decimal (TaxBracket.rate b)
                        +:+ "). Use decimal format: 0.09 for 9%, not 9."))
  else
    match TaxBracket.upper_limit b with
    | Some limit =>
        if dec_le limit (of_int 0)
        then inl (ValueError ("Upper limit must be positive or infinity (got "
                              +:+ str_Decimal limit +:+ ")"))
        else inr ()
    | None => inr ()
    end.
End TaxBracketInit.

(** The constants of [config.py] that [validate_configuration] reads. *)
Module Config.
Record t := mk {
  INCOME_TAX_BRACKETS : list TaxBracket.t;
  VAT_RATE : Decimal;
  EFKA_MAIN_RATE : Decimal;
  EFKA_ADDITIONAL_RATE : Decimal;
  EFKA_TOTAL_RATE : Decimal;
  MAX_ANNUAL_INCOME : Decimal;
  VALID_FREQUENCIES : list string;
  TAX_YEAR : Z }.
End Config.

(** The configuration of the repository. *)
Definition config : Config.t :=
  Config.mk INCOME_TAX_BRACKETS VAT_RATE EFKA_MAIN_RATE EFKA_ADDITIONAL_RATE
    EFKA_TOTAL_RATE MAX_ANNUAL_INCOME VALID_FREQUENCIES 2024.

(** What [validate_configuration] raises: a [ValueError], or the
    [IndexError] of [INCOME_TAX_BRACKETS[-1]] on an empty tuple. *)
Inductive ConfigError :=
| ConfigValueError (msg : string)
| ConfigIndexError.

(** The loop of [validate_configuration] over the brackets, from the
    bracket of index [i] on. *)
Fixpoint check_brackets (i : Z) (previous_limit : Decimal) (bs : list TaxBracket.t)
  : ConfigError + unit :=
  match bs with
  | [] => inr ()
  | bracket :: rest =>
      match TaxBracket.upper_limit bracket with
      | Some limit =>
          if dec_le limit previous_limit
          then inl (ConfigValueError
                      ("Tax bracket " +:+ str_int i +:+ " upper limit ("
                       +:+ str_Decimal limit
                       +:+ ") must be greater than previous bracket ("
                       +:+ str_Decimal previous_limit +:+ ")"))
          else check_brackets (i + 1) limit rest
      | None => check_brackets (i + 1) previous_limit rest
      end
  end.

(** [validate_configuration()], with the constants it reads and the
    year of [datetime.now()] as arguments. The [isinstance] checks are
    those of the types. *)
Definition validate_configuration (c : Config.t) (current_year : Z) : ConfigError + unit :=
  match check_brackets 0 (of_int 0) (Config.INCOME_TAX_BRACKETS c) with
  | inl e => inl e
  | inr _ =>
  match last (Config.INCOME_TAX_BRACKETS c) with
  | None => inl ConfigIndexError
  | Some bracket =>
  match TaxBracket.upper_limit bracket with
  | Some _ =>
      inl (ConfigValueError
             "Last tax bracket must have infinite upper limit (use Decimal('inf'))")
  | None =>
  if negb (dec_between (of_int 0) (Config.VAT_RATE c) (of_int 1))
  then inl (ConfigValueError
              ("VAT_RATE must be between 0 and 1 (got " +:+ str_Decimal (Config.VAT_RATE c)
               +:+ "). Use decimal format: 0.24 for 24%, not 24."))
  else if negb (dec_between (of_int 0) (Config.EFKA_MAIN_RATE c) (of_int 1))
  then inl (ConfigValueError
              ("EFKA_MAIN_RATE must be between 0 and 1 (got "
               +:+ str_Decimal (Config.EFKA_MAIN_RATE c) +:+ ")"))
  else if negb (dec_between (of_int 0) (Config.EFKA_ADDITIONAL_RATE c) (of_int 1))
  then inl (ConfigValueError
              ("EFKA_ADDITIONAL_RATE must be between 0 and 1 (got "
               +:+ str_Decimal (Config.EFKA_ADDITIONAL_RATE c) +:+ ")"))
  else
    let expected_total :=
      dec_add (Config.EFKA_MAIN_RATE c) (Config.EFKA_ADDITIONAL_RATE c) in
    if dec_lt (mkDec 1 (-4)) (dec_abs (dec_sub (Config.EFKA_TOTAL_RATE c) expected_total))
    then inl (ConfigValueError
                ("EFKA_TOTAL_RATE (" +:+ str_Decimal (Config.EFKA_TOTAL_RATE c)
                 +:+ ") must equal EFKA_MAIN_RATE + EFKA_ADDITIONAL_RATE ("
                 +:+ str_Decimal expected_total +:+ ")"))
    else if dec_le (Config.MAX_ANNUAL_INCOME c) (of_int 0)
    then inl (ConfigValueError
                ("MAX_ANNUAL_INCOME must be positive (got "
                 +:+ str_Decimal (Config.MAX_ANNUAL_INCOME c) +:+ ")"))
    else
      match Config.VALID_FREQUENCIES c with
      | [] => inl (ConfigValueError "VALID_FREQUENCIES cannot be empty")
      | _ :: _ =>
          if negb ((2020 <=? Config.TAX_YEAR c) && (Config.TAX_YEAR c <=? current_year + 5))
          then inl (ConfigValueError
                      ("TAX_YEAR (" +:+ str_int (Config.TAX_YEAR c)
                       +:+ ") seems invalid. Expected range: 2020-"
                       +:+ str_int (current_year + 5)))
          else inr ()
      end
  end end end.

(** The upper limits that are not infinite, in the order of the
    brackets. *)
Definition finite_limits (bs : list TaxBracket.t) : list Decimal :=
  omap TaxBracket.upper_limit bs.

(** Limits that grow strictly, starting above [prev]. *)
Fixpoint increasing (prev : Decimal) (limits : list Decimal) : bool :=
  match limits with
  | [] => true
  | limit :: rest => dec_lt prev limit && increasing limit rest
  end.

(** [s.replace(',', '')]. *)
Definition remove_commas (s : string) : string :=
  string_of_list_ascii (filter (λ c, c ≠ ","%char) (list_ascii_of_string s)).

(** * main.py: the prompts for the amounts *)

(** [get_gross_income()] on the lines that the user types, one for each
    [input()]: the result and the lines that are left. The end of the
    lines is the [EOFError] that ends the program with [sys.exit(0)];
    what is printed and logged is left out. *)
Fixpoint get_gross_income (inputs : list string) : outcome number * list string :=
  match inputs with
  | [] => (Exits 0, [])
  | line :: rest =>
      let value_str := strip line in
      if bool_decide (value_str = ""%string) then get_gross_income rest
      else
        match validate_non_negative_number value_str "Gross income" with
        | inl (ValueError _) => get_gross_income rest
        | inl e => (Raises e, rest)
        | inr gross_income =>
            if num_lt (Finite (of_int 0)) gross_income
            then match validate_realistic_amount gross_income "Gross income" None with
                 | inl (ValueError _) => get_gross_income rest
                 | inl e => (Raises e, rest)
                 | inr _ => (Returns gross_income, rest)
                 end
            else (Returns gross_income, rest)
        end
  end.

(** [get_deductible_expenses(gross_income)], likewise. *)
Fixpoint get_deductible_expenses (gross_income : number) (inputs : list string)
  : outcome number * list string :=
  match inputs with
  | [] => (Exits 0, [])
  | line :: rest =>
      let value_str := strip line in
      if bool_decide (value_str = ""%string) then get_deductible_expenses gross_income rest
      else
        match validate_non_negative_number value_str "Expenses" with
        | inl (ValueError _) => get_deductible_expenses gross_income rest
        | inl e => (Raises e, rest)
        | inr expenses =>
            match validate_expenses_against_income expenses gross_income with
            | inl (ValueError _) => get_deductible_expenses gross_income rest
            | inl e => (Raises e, rest)
            | inr _ =>
                match validate_realistic_amount expenses "Expenses" None with
                | inl (ValueError _) => get_deductible_expenses gross_income rest
                | inl e => (Raises e, rest)
                | inr _ => (Returns expenses, rest)
                end
            end
        end
  end.

(** * Evaluations *)

Example div_5000_12 :
  dec_div (of_int 5000) (of_int 12)
  = Some (mkDec 4166666666666666666666666667 (-25)).
Proof. vm_compute. reflexivity. Qed.

Example div_exact : dec_div (mkDec 1200000 (-2)) (of_int 12) = Some (mkDec 100000 (-2)).
Proof. vm_compute. reflexivity. Qed.

Example div_big :
  dec_div (mkDec 12000000000000000000000000054 (-3)) (of_int 12)
  = Some (mkDec 1000000000000000000000000005 (-3)).
Proof. vm_compute. reflexivity. Qed.

Example rate_sum : dec_add (mkDec 1333 (-4)) (mkDec 667 (-4)) = mkDec 2000 (-4).
Proof. vm_compute. reflexivity. Qed.

Example quantize_neg : q2 (mkDec (-5) (-3)) = Some (mkDec (-1) (-2)).
Proof. vm_compute. reflexivity. Qed.

Example quantize_big : q2 (mkDec 99999999999999999999999999995 (-3)) = None.
Proof. vm_compute. reflexivity. Qed.

Example eff_rate :
  (x ← dec_div (mkDec 139000000 (-4)) (mkDec 5000000 (-2)); Some (dec_mul x (of_int 100)))
  = Some (mkDec 27800 (-3)).
Proof. vm_compute. reflexivity. Qed.

Example str_examples :
  str_Decimal (mkDec 5 (-2)) = "0.05"%string
  ∧ str_Decimal (mkDec 0 (-2)) = "0.00"%string
  ∧ str_Decimal (mkDec 1390000 (-2)) = "13900.00"%string
  ∧ str_Decimal (mkDec (-100000) (-2)) = "-1000.00"%string
  ∧ str_Decimal (mkDec 1 25) = "1E+25"%string
  ∧ str_Decimal (mkDec 123 (-8)) = "0.00000123"%string
  ∧ str_Decimal (mkDec 123 (-9)) = "1.23E-7"%string
  ∧ str_Decimal (of_int 60000) = "60000"%string.
Proof. repeat split; vm_compute; reflexivity. Qed.

Example parse_examples :
  parse_Decimal "0.05" = Some (mkDec 5 (-2))
  ∧ parse_Decimal "-1000.00" = Some (mkDec (-100000) (-2))
  ∧ parse_Decimal "1E+25" = Some (mkDec 1 25)
  ∧ parse_Decimal "1.23E-7" = Some (mkDec 123 (-9))
  ∧ parse_Decimal ".5" = Some (mkDec 5 (-1))
  ∧ parse_Decimal "5." = Some (mkDec 5 0)
  ∧ parse_Decimal "." = None
  ∧ parse_Decimal "unlimited" = None
  ∧ parse_Decimal "" = None.
Proof. repeat split; vm_compute; reflexivity. Qed.

(** * Facts about the decimal library *)

(** ** Digits *)

Lemma digits_aux_length (f : nat) : ∀ (n : Z) (acc : list ascii),
  (0 < f)%nat → 0 ≤ n < 2 ^ Z.of_nat f →
  ∃ L : Z, 1 ≤ L ∧ Z.of_nat (length (digits_aux f n acc)) = L + Z.of_nat (length acc)
           ∧ n < 10 ^ L ∧ (n = 0 ∨ 10 ^ (L - 1) ≤ n).
Proof.
  induction f as [|f IH]; intros n acc Hf Hn; [lia|].
  simpl. destruct (Z.ltb_spec n 10) as [Hlt|Hge].
  - exists 1. simpl length. repeat split; try lia.
  - assert (Hq : 1 ≤ n / 10) by (apply Z.div_le_lower_bound; lia).
    assert (Hq2 : n / 10 < 2 ^ Z.of_nat f).
    { apply Z.div_lt_upper_bound; [lia|].
      rewrite Nat2Z.inj_succ, Z.pow_succ_r in Hn by lia. lia. }
    assert (Hf' : (0 < f)%nat).
    { destruct f; [simpl in Hq2; lia | lia]. }
    destruct (IH (n / 10) (digit_char (n mod 10) :: acc) Hf' ltac:(lia))
      as (L & HL & Hlen & Hup & Hlow).
    exists (L + 1). simpl length in Hlen.
    assert (H10 : 10 ^ (L + 1) = 10 * 10 ^ L) by (rewrite Z.pow_add_r; lia).
    assert (H10' : 10 ^ L = 10 * 10 ^ (L - 1)).
    { replace L with (L - 1 + 1) at 1 by lia. rewrite Z.pow_add_r; lia. }
    pose proof (Z.div_mod n 10 ltac:(lia)) as Hdm.
    pose proof (Z.mod_pos_bound n 10 ltac:(lia)) as Hm.
    repeat split; try lia.
    right. replace (L + 1 - 1) with L by lia. lia.
Qed.

Lemma ndigits_bounds (c : Z) :
  1 ≤ ndigits c ∧ Z.abs c < 10 ^ ndigits c
  ∧ (c = 0 ∨ 10 ^ (ndigits c - 1) ≤ Z.abs c).
Proof.
  unfold ndigits, int_digits.
  set (n := Z.abs c). assert (Hn : 0 ≤ n) by (unfold n; lia).
  destruct (digits_aux_length (S (Z.to_nat (Z.log2 n))) n [])
    as (L & HL & Hlen & Hup & Hlow); [lia| |].
  - split; [lia|]. rewrite Nat2Z.inj_succ, Z2Nat.id by apply Z.log2_nonneg.
    destruct (Z.eq_dec n 0) as [->|Hne]; [reflexivity|].
    apply Z.log2_spec. lia.
  - change (Z.of_nat (length (@nil ascii))) with 0 in Hlen.
    rewrite Hlen, Z.add_0_r.
    split; [lia|]. split; [lia|]. destruct Hlow as [H0|Hlow]; [left; lia | right; lia].
Qed.

Lemma ndigits_pos (c : Z) : 1 ≤ ndigits c.
Proof. apply ndigits_bounds. Qed.

Lemma ndigits_upper (c : Z) : Z.abs c < 10 ^ ndigits c.
Proof. apply ndigits_bounds. Qed.

Lemma ndigits_lower (c : Z) : c ≠ 0 → 10 ^ (ndigits c - 1) ≤ Z.abs c.
Proof. intros Hc. destruct (ndigits_bounds c) as (_ & _ & [H|H]); [contradiction|exact H]. Qed.

Lemma ndigits_le_iff (c p : Z) : 1 ≤ p → ndigits c ≤ p ↔ Z.abs c < 10 ^ p.
Proof.
  intros Hp. split.
  - intros H. eapply Z.lt_le_trans; [apply ndigits_upper|].
    apply Z.pow_le_mono_r; lia.
  - intros H. destruct (Z.eq_dec c 0) as [->|Hc].
    + change (ndigits 0) with 1. lia.
    + pose proof (ndigits_lower c Hc) as Hl. pose proof (ndigits_pos c) as Hpos.
      destruct (Z_lt_le_dec p (ndigits c)) as [Hlt|]; [|lia].
      assert (10 ^ p ≤ 10 ^ (ndigits c - 1)) by (apply Z.pow_le_mono_r; lia). lia.
Qed.

Lemma ndigits_zero : ndigits 0 = 1.
Proof. reflexivity. Qed.

(** * Round trip of the serialization *)

Lemma digit_char_spec (d : Z) :
  0 ≤ d ≤ 9 → is_digit (digit_char d) = true ∧ digit_value (digit_char d) = d.
Proof.
  intros H.
  assert (Hd : d = 0 ∨ d = 1 ∨ d = 2 ∨ d = 3 ∨ d = 4 ∨ d = 5 ∨ d = 6 ∨ d = 7 ∨ d = 8 ∨ d = 9)
    by lia.
  repeat (destruct Hd as [->|Hd]; [split; reflexivity|]). subst d. split; reflexivity.
Qed.

Lemma digits_aux_value (f : nat) : ∀ (n : Z) (acc : list ascii),
  (0 < f)%nat → 0 ≤ n < 2 ^ Z.of_nat f →
  fold_left (λ a c, 10 * a + digit_value c) (digits_aux f n acc) 0
  = fold_left (λ a c, 10 * a + digit_value c) acc n.
Proof.
  induction f as [|f IH]; intros n acc Hf Hn; [lia|].
  pose proof (Z.mod_pos_bound n 10 ltac:(lia)) as Hm.
  destruct (digit_char_spec (n mod 10) ltac:(lia)) as [_ Hv].
  simpl. destruct (Z.ltb_spec n 10) as [Hlt|Hge].
  - simpl. rewrite Hv, Z.mod_small by lia. reflexivity.
  - assert (Hq : 1 ≤ n / 10) by (apply Z.div_le_lower_bound; lia).
    assert (Hq2 : n / 10 < 2 ^ Z.of_nat f).
    { apply Z.div_lt_upper_bound; [lia|].
      rewrite Nat2Z.inj_succ, Z.pow_succ_r in Hn by lia. lia. }
    assert (Hf' : (0 < f)%nat) by (destruct f; [simpl in Hq2; lia | lia]).
    rewrite IH by lia. simpl. rewrite Hv. f_equal.
    pose proof (Z.div_mod n 10 ltac:(lia)). lia.
Qed.

Lemma digits_aux_digits (f : nat) : ∀ (n : Z) (acc : list ascii),
  0 ≤ n → Forall (λ c, is_digit c = true) acc →
  Forall (λ c, is_digit c = true) (digits_aux f n acc).
Proof.
  induction f as [|f IH]; intros n acc Hn Hacc; [exact Hacc|].
  pose proof (Z.mod_pos_bound n 10 ltac:(lia)) as Hm.
  destruct (digit_char_spec (n mod 10) ltac:(lia)) as [Hd _].
  simpl. destruct (n <? 10).
  - constructor; assumption.
  - apply IH; [apply Z.div_pos; lia | constructor; assumption].
Qed.

Lemma int_digits_fuel (n : Z) :
  0 ≤ n → 0 ≤ n < 2 ^ Z.of_nat (S (Z.to_nat (Z.log2 n))).
Proof.
  intros Hn. split; [exact Hn|].
  rewrite Nat2Z.inj_succ, Z2Nat.id by apply Z.log2_nonneg.
  destruct (Z.eq_dec n 0) as [->|Hne]; [reflexivity|]. apply Z.log2_spec. lia.
Qed.

Lemma int_digits_value (n : Z) : 0 ≤ n → digits_value (int_digits n) = n.
Proof.
  intros Hn. unfold digits_value, int_digits.
  rewrite digits_aux_value; [reflexivity | lia | apply int_digits_fuel, Hn].
Qed.

Lemma int_digits_digits (n : Z) :
  0 ≤ n → Forall (λ c, is_digit c = true) (int_digits n).
Proof. intros Hn. apply digits_aux_digits; [exact Hn | constructor]. Qed.

Lemma int_digits_length (n : Z) : (1 ≤ length (int_digits (Z.abs n)))%nat.
Proof. pose proof (ndigits_pos n) as H. unfold ndigits in H. lia. Qed.

Lemma span_digits_all (l : list ascii) :
  Forall (λ c, is_digit c = true) l → span_digits l = (l, []).
Proof.
  induction 1 as [|c l Hc _ IH]; [reflexivity|]. simpl. rewrite Hc, IH. reflexivity.
Qed.

Lemma span_digits_stop (l : list ascii) (c : ascii) (rest : list ascii) :
  Forall (λ c, is_digit c = true) l → is_digit c = false →
  span_digits (l ++ c :: rest) = (l, c :: rest).
Proof.
  intros Hl Hc. induction Hl as [|d l Hd _ IH]; simpl.
  - rewrite Hc. reflexivity.
  - rewrite Hd, IH. reflexivity.
Qed.

Lemma digits_value_zeros (k : nat) (l : list ascii) :
  digits_value (replicate k "0"%char ++ l) = digits_value l.
Proof.
  unfold digits_value. induction k as [|k IH]; [reflexivity|]. simpl. exact IH.
Qed.

Lemma parse_sign_digit (c : ascii) (l : list ascii) :
  is_digit c = true → parse_sign (c :: l) = (false, c :: l).
Proof.
  intros H. unfold parse_sign.
  destruct (Ascii.eqb_spec c "-") as [->|_]; [discriminate|].
  destruct (Ascii.eqb_spec c "+") as [->|_]; [discriminate|]. reflexivity.
Qed.

(** The text [sign int . frac] is read back as its digits with the
    exponent [- len(frac)]. *)
Lemma parse_chars_plain (neg : bool) (ip fp : list ascii) :
  Forall (λ c, is_digit c = true) ip → Forall (λ c, is_digit c = true) fp →
  ip ≠ [] →
  parse_chars ((if neg then ["-"%char] else []) ++ ip ++ "."%char :: fp)
  = Some (mkDec (if neg then - digits_value (ip ++ fp) else digits_value (ip ++ fp))
                (- Z.of_nat (length fp))).
Proof.
  intros Hip Hfp Hne. unfold parse_chars.
  assert (Hs : parse_sign ((if neg then ["-"%char] else []) ++ ip ++ "."%char :: fp)
               = (neg, ip ++ "."%char :: fp)).
  { destruct neg; [reflexivity|]. destruct Hip as [|c ip Hc _]; [contradiction|].
    simpl. apply parse_sign_digit. exact Hc. }
  rewrite Hs, (span_digits_stop ip "." fp Hip eq_refl).
  cbn [Ascii.eqb Bool.eqb]. rewrite (span_digits_all fp Hfp).
  destruct (ip ++ fp) as [|c l] eqn:E.
  { apply app_eq_nil in E as [-> _]. contradiction. }
  cbn [parse_exponent mbind option_bind]. f_equal.
Qed.

(** The text of an amount in cents. *)
Lemma str_Decimal_cents (d : Decimal) :
  expo d = -2 →
  ∃ ip fp,
    list_ascii_of_string (str_Decimal d)
    = (if coef d <? 0 then ["-"%char] else []) ++ ip ++ "."%char :: fp
    ∧ Forall (λ c, is_digit c = true) ip ∧ Forall (λ c, is_digit c = true) fp
    ∧ ip ≠ [] ∧ length fp = 2%nat
    ∧ digits_value (ip ++ fp) = Z.abs (coef d).
Proof.
  intros He. unfold str_Decimal. rewrite He.
  set (digits := int_digits (Z.abs (coef d))).
  pose proof (int_digits_length (coef d)) as HL. fold digits in HL.
  pose proof (int_digits_digits (Z.abs (coef d)) ltac:(lia)) as Hdig. fold digits in Hdig.
  pose proof (int_digits_value (Z.abs (coef d)) ltac:(lia)) as Hval. fold digits in Hval.
  set (L := length digits) in *.
  change (-2 <=? 0) with true. cbn [andb].
  destruct (Z.ltb_spec (-6) (-2 + Z.of_nat L)) as [_|]; [|lia].
  rewrite Z.eqb_refl.
  destruct (Z.leb_spec (-2 + Z.of_nat L) 0) as [Hsmall|Hbig].
  - exists ["0"%char], (replicate (Z.to_nat (- (-2 + Z.of_nat L))) "0"%char ++ digits).
    rewrite list_ascii_of_string_of_list_ascii, !app_nil_r.
    split; [reflexivity|]. split; [repeat constructor|].
    split; [apply Forall_app; split; [apply Forall_replicate; reflexivity | exact Hdig]|].
    split; [discriminate|].
    split; [rewrite length_app, length_replicate; fold L; lia|].
    change (["0"%char] ++ ?l) with (replicate 1 "0"%char ++ l).
    rewrite !digits_value_zeros. exact Hval.
  - destruct (Z.leb_spec (Z.of_nat L) (-2 + Z.of_nat L)) as [|_]; [lia|].
    exists (take (Z.to_nat (-2 + Z.of_nat L)) digits),
           (drop (Z.to_nat (-2 + Z.of_nat L)) digits).
    rewrite list_ascii_of_string_of_list_ascii, !app_nil_r.
    split; [reflexivity|]. split; [apply Forall_take, Hdig|].
    split; [apply Forall_drop, Hdig|].
    split.
    { intros E. apply (f_equal length) in E. rewrite length_take in E.
      fold L in E. simpl in E. lia. }
    split; [rewrite length_drop; fold L; lia|].
    rewrite take_drop. exact Hval.
Qed.

Lemma parse_str_Decimal (d : Decimal) :
  expo d = -2 → parse_Decimal (str_Decimal d) = Some d.
Proof.
  intros He. destruct (str_Decimal_cents d He) as (ip & fp & Hs & Hip & Hfp & Hne & Hlen & Hv).
  unfold parse_Decimal. rewrite Hs, parse_chars_plain by assumption.
  rewrite Hv, Hlen. destruct d as [c e]. cbn [coef expo] in *. subst e.
  f_equal. f_equal. destruct (Z.ltb_spec c 0); lia.
Qed.

(** ** The records *)

Lemma decimal_of_str (d : Decimal) :
  cents d → decimal_of (VStr (str_Decimal d)) = Some d.
Proof. apply parse_str_Decimal. Qed.

(** Reading a key of a dictionary literal. *)
Ltac dict_lookup :=
  unfold getitem; repeat (rewrite lookup_insert_ne by done);
  first [rewrite lookup_insert_eq | rewrite lookup_singleton_eq].

Lemma BracketBreakdown_roundtrip (l : BracketBreakdown.t) :
  bracket_line_ok l →
  BracketBreakdownDict.from_dict (BracketBreakdownDict.to_dict l) = Some l.
Proof.
  intros (Hmin & Hmax & Hr & Ha & Ht). destruct l as [bmin bmax r a t].
  cbn [BracketBreakdown.bracket_min BracketBreakdown.bracket_max BracketBreakdown.rate
       BracketBreakdown.taxable_amount BracketBreakdown.tax_amount] in *.
  unfold BracketBreakdownDict.from_dict, BracketBreakdownDict.to_dict.
  cbn [BracketBreakdown.bracket_min BracketBreakdown.bracket_max BracketBreakdown.rate
       BracketBreakdown.taxable_amount BracketBreakdown.tax_amount].
  repeat (dict_lookup; cbn [mbind option_bind]).
  rewrite !decimal_of_str by assumption. cbn [mbind option_bind].
  destruct Hmax as [->|(d & -> & Hd)].
  - rewrite decide_True by reflexivity. reflexivity.
  - rewrite decide_False.
    + rewrite parse_str_Decimal by exact Hd. reflexivity.
    + intros E. pose proof (parse_str_Decimal d Hd) as Hp. rewrite E in Hp.
      vm_compute in Hp. discriminate.
Qed.

Lemma bracket_lines_roundtrip (lines : list BracketBreakdown.t) :
  Forall bracket_line_ok lines →
  mapM BracketBreakdownDict.from_dict (BracketBreakdownDict.to_dict <$> lines) = Some lines.
Proof.
  induction 1 as [|l lines Hl _ IH]; [reflexivity|].
  cbn [fmap list_fmap mapM]. rewrite (BracketBreakdown_roundtrip l Hl).
  cbn [mbind option_bind]. rewrite IH. reflexivity.
Qed.

Lemma IncomeTaxBreakdown_roundtrip (r : IncomeTaxBreakdown.t) :
  income_tax_ok r →
  IncomeTaxBreakdownDict.from_dict (IncomeTaxBreakdownDict.to_dict r) = Some r.
Proof.
  intros (Ht & He & Hl). destruct r as [t e l].
  cbn [IncomeTaxBreakdown.total_tax IncomeTaxBreakdown.effective_rate
       IncomeTaxBreakdown.bracket_breakdown] in *.
  unfold IncomeTaxBreakdownDict.from_dict, IncomeTaxBreakdownDict.to_dict.
  cbn [IncomeTaxBreakdown.total_tax IncomeTaxBreakdown.effective_rate
       IncomeTaxBreakdown.bracket_breakdown].
  repeat (dict_lookup; cbn [mbind option_bind]).
  rewrite !decimal_of_str by assumption. cbn [mbind option_bind].
  rewrite (bracket_lines_roundtrip l Hl). reflexivity.
Qed.

Lemma VATCalculation_roundtrip (r : VATCalculation.t) :
  vat_ok r → VATCalculationDict.from_dict (VATCalculationDict.to_dict r) = Some r.
Proof.
  intros (Ha & Hr). destruct r as [a r].
  cbn [VATCalculation.vat_amount VATCalculation.rate] in *.
  unfold VATCalculationDict.from_dict, VATCalculationDict.to_dict.
  cbn [VATCalculation.vat_amount VATCalculation.rate].
  repeat (dict_lookup; cbn [mbind option_bind]).
  rewrite !decimal_of_str by assumption. reflexivity.
Qed.

Lemma SocialSecurityCalculation_roundtrip (r : SocialSecurityCalculation.t) :
  social_security_ok r →
  SocialSecurityCalculationDict.from_dict (SocialSecurityCalculationDict.to_dict r) = Some r.
Proof.
  intros (Ht & Hm & Ha & Hr). destruct r as [t m a r].
  cbn [SocialSecurityCalculation.total_contribution SocialSecurityCalculation.main_insurance
       SocialSecurityCalculation.additional_contributions SocialSecurityCalculation.rate] in *.
  unfold SocialSecurityCalculationDict.from_dict, SocialSecurityCalculationDict.to_dict.
  cbn [SocialSecurityCalculation.total_contribution SocialSecurityCalculation.main_insurance
       SocialSecurityCalculation.additional_contributions SocialSecurityCalculation.rate].
  repeat (dict_lookup; cbn [mbind option_bind]).
  rewrite !decimal_of_str by assumption. reflexivity.
Qed.

Lemma TaxCalculationResult_roundtrip (r : TaxCalculationResult.t) :
  result_ok r →
  TaxCalculationResultDict.from_dict (TaxCalculationResultDict.to_dict r) = Some r.
Proof.
  intros (Hg & He & Hti & Hit & Hv & Hss & Htt & Hto & Hn & Her).
  destruct r as [g e ti it v ss tt to n er].
  cbn [TaxCalculationResult.gross_income TaxCalculationResult.deductible_expenses
       TaxCalculationResult.taxable_income TaxCalculationResult.income_tax
       TaxCalculationResult.vat TaxCalculationResult.social_security
       TaxCalculationResult.total_taxes TaxCalculationResult.total_obligations
       TaxCalculationResult.net_income TaxCalculationResult.effective_total_rate] in *.
  unfold TaxCalculationResultDict.from_dict, TaxCalculationResultDict.to_dict.
  cbn [TaxCalculationResult.gross_income TaxCalculationResult.deductible_expenses
       TaxCalculationResult.taxable_income TaxCalculationResult.income_tax
       TaxCalculationResult.vat TaxCalculationResult.social_security
       TaxCalculationResult.total_taxes TaxCalculationResult.total_obligations
       TaxCalculationResult.net_income TaxCalculationResult.effective_total_rate].
  repeat (dict_lookup; cbn [mbind option_bind]).
  rewrite !decimal_of_str by assumption. cbn [mbind option_bind].
  rewrite (IncomeTaxBreakdown_roundtrip it Hit), (VATCalculation_roundtrip v Hv),
    (SocialSecurityCalculation_roundtrip ss Hss).
  reflexivity.
Qed.

#[local] Open Scope R_scope.

(** ** The value of a decimal *)

Lemma bpow_pos (e : Z) : 0 < bpow e.
Proof. apply powerRZ_lt. lra. Qed.

Lemma bpow_add (a b : Z) : bpow (a + b) = bpow a * bpow b.
Proof. apply powerRZ_add. lra. Qed.

Lemma bpow_IZR (e : Z) : (0 ≤ e)%Z → bpow e = IZR (10 ^ e).
Proof.
  intros He. unfold bpow.
  rewrite <- (Z2Nat.id e He), <- pow_powerRZ, pow_IZR. reflexivity.
Qed.

Lemma bpow_0 : bpow 0 = 1.
Proof. reflexivity. Qed.

Lemma bpow_ge_1 (e : Z) : (0 ≤ e)%Z → 1 <= bpow e.
Proof.
  intros He. rewrite bpow_IZR by exact He. apply IZR_le.
  pose proof (Z.pow_pos_nonneg 10 e ltac:(lia) He). lia.
Qed.

Lemma bpow_le (a b : Z) : (a ≤ b)%Z → bpow a <= bpow b.
Proof.
  intros H. assert (Hb : bpow b = bpow a * bpow (b - a)).
  { rewrite <- bpow_add. f_equal. lia. }
  pose proof (bpow_pos a). pose proof (bpow_ge_1 (b - a) ltac:(lia)).
  rewrite Hb. nra.
Qed.

Lemma bpow_lt (a b : Z) : (a < b)%Z → bpow a < bpow b.
Proof.
  intros H. assert (Hb : bpow b = bpow a * bpow (b - a)).
  { rewrite <- bpow_add. f_equal. lia. }
  assert (H10 : 10 <= bpow (b - a)).
  { rewrite bpow_IZR by lia. apply IZR_le.
    change 10%Z with (10 ^ 1)%Z at 1. apply Z.pow_le_mono_r; lia. }
  pose proof (bpow_pos a). rewrite Hb. nra.
Qed.

Lemma bpow_lt_inv (a b : Z) : bpow a < bpow b → (a < b)%Z.
Proof.
  intros H. destruct (Z_lt_le_dec a b) as [|Hge]; [assumption|].
  pose proof (bpow_le b a Hge). lra.
Qed.

Lemma bpow_le_inv (a b : Z) : bpow a <= bpow b → (a ≤ b)%Z.
Proof.
  intros H. destruct (Z_le_gt_dec a b) as [|Hgt]; [assumption|].
  pose proof (bpow_lt b a ltac:(lia)). lra.
Qed.

Lemma Rabs_bound (x a : R) : Rabs x <= a → - a <= x <= a.
Proof. unfold Rabs. destruct (Rcase_abs x); lra. Qed.

(** A coefficient padded with zeros down to a smaller exponent. *)
Lemma val_pad (c e m : Z) :
  (m ≤ e)%Z → IZR (c * 10 ^ (e - m)) * bpow m = IZR c * bpow e.
Proof.
  intros H. rewrite mult_IZR, <- bpow_IZR by lia.
  replace e with ((e - m) + m)%Z at 2 by lia. rewrite bpow_add. ring.
Qed.

Lemma val_mkDec (c e : Z) : val (mkDec c e) = IZR c * bpow e.
Proof. reflexivity. Qed.

Lemma val_of_int (n : Z) : val (of_int n) = IZR n.
Proof. unfold val, of_int. cbn [coef expo]. rewrite bpow_0. ring. Qed.

Lemma val_neg (a : Decimal) : val (dec_neg a) = - val a.
Proof. unfold val, dec_neg. cbn [coef expo]. rewrite opp_IZR. ring. Qed.

(** ** Comparisons are those of the values *)

Lemma dec_cmp_val (a b : Decimal) :
  match dec_cmp a b with
  | Lt => val a < val b
  | Eq => val a = val b
  | Gt => val a > val b
  end.
Proof.
  unfold dec_cmp. set (m := Z.min (expo a) (expo b)).
  assert (Ha : val a = IZR (coef a * 10 ^ (expo a - m)) * bpow m)
    by (rewrite val_pad by lia; reflexivity).
  assert (Hb : val b = IZR (coef b * 10 ^ (expo b - m)) * bpow m)
    by (rewrite val_pad by lia; reflexivity).
  pose proof (bpow_pos m) as Hm.
  destruct (Z.compare_spec (coef a * 10 ^ (expo a - m)) (coef b * 10 ^ (expo b - m)))
    as [H|H|H].
  - rewrite Ha, Hb, H. reflexivity.
  - apply IZR_lt in H. rewrite Ha, Hb. nra.
  - apply IZR_lt in H. rewrite Ha, Hb. nra.
Qed.

Lemma dec_lt_val (a b : Decimal) : dec_lt a b = true ↔ val a < val b.
Proof.
  unfold dec_lt. pose proof (dec_cmp_val a b) as H.
  destruct (dec_cmp a b); split; intros; try discriminate; try lra; reflexivity.
Qed.

Lemma dec_le_val (a b : Decimal) : dec_le a b = true ↔ val a <= val b.
Proof.
  unfold dec_le. pose proof (dec_cmp_val a b) as H.
  destruct (dec_cmp a b); split; intros; try discriminate; try lra; reflexivity.
Qed.

Lemma dec_eq_val (a b : Decimal) : dec_eq a b = true ↔ val a = val b.
Proof.
  unfold dec_eq. pose proof (dec_cmp_val a b) as H.
  destruct (dec_cmp a b); split; intros; try discriminate; try lra; reflexivity.
Qed.

Lemma dec_lt_false_val (a b : Decimal) : dec_lt a b = false ↔ val b <= val a.
Proof.
  rewrite <- Bool.not_true_iff_false, dec_lt_val. split; lra.
Qed.

Lemma dec_le_false_val (a b : Decimal) : dec_le a b = false ↔ val b < val a.
Proof.
  rewrite <- Bool.not_true_iff_false, dec_le_val. split; lra.
Qed.

Lemma val_nonneg (d : Decimal) : (0 ≤ coef d)%Z ↔ 0 <= val d.
Proof.
  unfold val. pose proof (bpow_pos (expo d)) as Hp. split; intros H.
  - apply IZR_le in H. nra.
  - apply le_IZR. nra.
Qed.

Lemma val_pos (d : Decimal) : (0 < coef d)%Z ↔ 0 < val d.
Proof.
  unfold val. pose proof (bpow_pos (expo d)) as Hp. split; intros H.
  - apply IZR_lt in H. nra.
  - apply lt_IZR. nra.
Qed.

Lemma py_min_val (a b : Decimal) : val (py_min a b) = Rmin (val a) (val b).
Proof.
  unfold py_min. destruct (dec_lt b a) eqn:E.
  - apply dec_lt_val in E. rewrite Rmin_right by lra. reflexivity.
  - apply dec_lt_false_val in E. rewrite Rmin_left by lra. reflexivity.
Qed.

Lemma py_max_val (a b : Decimal) : val (py_max a b) = Rmax (val a) (val b).
Proof.
  unfold py_max. destruct (dec_lt a b) eqn:E.
  - apply dec_lt_val in E. rewrite Rmax_right by lra. reflexivity.
  - apply dec_lt_false_val in E. rewrite Rmax_left by lra. reflexivity.
Qed.

Lemma val_add_exact (a b : Decimal) : val (add_exact a b) = val a + val b.
Proof.
  unfold add_exact, val at 1. cbn [coef expo]. rewrite plus_IZR, Rmult_plus_distr_r.
  rewrite !val_pad by lia. reflexivity.
Qed.

Lemma val_mul_exact (a b : Decimal) : val (mul_exact a b) = val a * val b.
Proof.
  unfold mul_exact, val. cbn [coef expo]. rewrite mult_IZR, bpow_add. ring.
Qed.

Lemma dec_add_unfold (a b : Decimal) : dec_add a b = fix_ctx (add_exact a b).
Proof. reflexivity. Qed.

Lemma dec_mul_unfold (a b : Decimal) : dec_mul a b = fix_ctx (mul_exact a b).
Proof. reflexivity. Qed.

(** ** Rounding half up *)

Lemma rnd_mono (x y : R) (e N M : Z) :
  rnd x e N → rnd y e M → x <= y → (N ≤ M)%Z.
Proof.
  intros [Hx _] [_ Hy] Hxy. pose proof (bpow_pos e) as He.
  assert (H : 2 * IZR N - 1 < 2 * IZR M + 1) by nra.
  assert (H' : IZR N < IZR M + 1) by lra.
  rewrite <- plus_IZR in H'. apply lt_IZR in H'. lia.
Qed.

Lemma rnd_exact (e N : Z) : rnd (IZR N * bpow e) e N.
Proof. unfold rnd. pose proof (bpow_pos e). split; nra. Qed.

Lemma rnd_error (x : R) (e N : Z) :
  rnd x e N → Rabs (IZR N * bpow e - x) <= bpow e / 2.
Proof.
  intros [H1 H2]. apply Rabs_le. split; lra.
Qed.

Lemma rnd_nonneg (x : R) (e N : Z) : rnd x e N → 0 <= x → (0 ≤ N)%Z.
Proof.
  intros [_ H] Hx. pose proof (bpow_pos e) as He.
  assert (H' : -1 < 2 * IZR N) by nra.
  assert (H'' : IZR (-1) < IZR (2 * N)) by (rewrite mult_IZR; lra).
  apply lt_IZR in H''. lia.
Qed.

Lemma half_up_div_spec (c k : Z) :
  (0 ≤ c)%Z → (1 ≤ k)%Z →
  let N := half_up_div c k in
  (0 ≤ N ∧ (2 * N - 1) * 10 ^ k ≤ 2 * c < (2 * N + 1) * 10 ^ k)%Z.
Proof.
  intros Hc Hk N. subst N. unfold half_up_div.
  assert (HP : (0 < 10 ^ (k - 1))%Z) by (apply Z.pow_pos_nonneg; lia).
  assert (H10 : (10 ^ k = 10 * 10 ^ (k - 1))%Z).
  { replace k with (1 + (k - 1))%Z at 1 by lia. rewrite Z.pow_add_r by lia. lia. }
  rewrite H10. set (P := (10 ^ (k - 1))%Z) in *.
  destruct (Z.eq_dec c 0%Z) as [->|Hne].
  - simpl. lia.
  - rewrite Z.sgn_pos, Z.abs_eq, Z.mul_1_l by lia.
    pose proof (Z.div_mod (c + 5 * P) (10 * P) ltac:(lia)) as Hdm.
    pose proof (Z.mod_pos_bound (c + 5 * P) (10 * P) ltac:(lia)) as Hm.
    set (N := ((c + 5 * P) / (10 * P))%Z) in *.
    assert (0 ≤ N)%Z by (apply Z.div_pos; lia).
    nia.
Qed.

Lemma half_up_div_rnd (c k e : Z) :
  (0 ≤ c)%Z → (1 ≤ k)%Z → rnd (IZR c * bpow e) (e + k) (half_up_div c k).
Proof.
  intros Hc Hk. destruct (half_up_div_spec c k Hc Hk) as (_ & H1 & H2).
  unfold rnd. rewrite bpow_add, (bpow_IZR k) by lia.
  pose proof (bpow_pos e) as He.
  apply IZR_le in H1. apply IZR_lt in H2.
  rewrite !mult_IZR, minus_IZR, !mult_IZR in H1.
  rewrite !mult_IZR, plus_IZR, !mult_IZR in H2.
  set (T := IZR (10 ^ k)) in *. set (n := IZR (half_up_div c k)) in *.
  set (b := bpow e) in *. set (x := IZR c) in *.
  split.
  - replace ((2 * n - 1) * (b * T)) with (((2 * n - 1) * T) * b) by ring.
    replace (2 * (x * b)) with ((2 * x) * b) by ring.
    apply Rmult_le_compat_r; lra.
  - replace ((2 * n + 1) * (b * T)) with (((2 * n + 1) * T) * b) by ring.
    replace (2 * (x * b)) with ((2 * x) * b) by ring.
    apply Rmult_lt_compat_r; lra.
Qed.

(** ** The rounding of the context *)

Lemma fix_ctx_fits (d : Decimal) : (ndigits (coef d) ≤ prec)%Z → fix_ctx d = d.
Proof.
  intros H. unfold fix_ctx. destruct (Z.leb_spec (ndigits (coef d)) prec); [reflexivity|lia].
Qed.

Lemma mag_bounds (d : Decimal) :
  (0 < coef d)%Z → bpow (mag d - 1) <= val d < bpow (mag d).
Proof.
  intros Hc. unfold mag, val.
  pose proof (ndigits_pos (coef d)) as Hn.
  pose proof (ndigits_upper (coef d)) as Hu.
  pose proof (ndigits_lower (coef d) ltac:(lia)) as Hl.
  rewrite Z.abs_eq in Hu, Hl by lia.
  pose proof (bpow_pos (expo d)) as He.
  replace (ndigits (coef d) + expo d - 1)%Z with ((ndigits (coef d) - 1) + expo d)%Z by lia.
  rewrite !bpow_add.
  rewrite (bpow_IZR (ndigits (coef d) - 1)), (bpow_IZR (ndigits (coef d))) by lia.
  apply IZR_le in Hl. apply IZR_lt in Hu. split.
  - apply Rmult_le_compat_r; [lra | exact Hl].
  - apply Rmult_lt_compat_r; [lra | exact Hu].
Qed.

Lemma mag_mono (a b : Decimal) :
  (0 < coef a)%Z → (0 < coef b)%Z → val a <= val b → (mag a ≤ mag b)%Z.
Proof.
  intros Ha Hb Hab.
  destruct (mag_bounds a Ha) as [Hla _]. destruct (mag_bounds b Hb) as [_ Hub].
  assert (H : bpow (mag a - 1) < bpow (mag b)) by lra.
  apply bpow_lt_inv in H. lia.
Qed.

(** The result of [fix_ctx] is the value rounded half up at the digit
    [mag d - prec]. *)
Lemma fix_ctx_rnd (d : Decimal) :
  (0 < coef d)%Z →
  ∃ N : Z, val (fix_ctx d) = IZR N * bpow (mag d - prec) ∧ rnd (val d) (mag d - prec) N.
Proof.
  intros Hc. unfold fix_ctx, mag.
  set (n := ndigits (coef d)).
  destruct (Z.leb_spec n prec) as [Hfit|Hbig].
  - exists (coef d * 10 ^ (prec - n))%Z.
    assert (Hv : IZR (coef d * 10 ^ (prec - n)) * bpow (n + expo d - prec) = val d).
    { replace (prec - n)%Z with (expo d - (n + expo d - prec))%Z by lia.
      rewrite val_pad by lia. reflexivity. }
    split; [symmetry; exact Hv|]. rewrite <- Hv. apply rnd_exact.
  - set (k := (n - prec)%Z).
    assert (Hk : (1 ≤ k)%Z) by (unfold k; lia).
    pose proof (half_up_div_rnd (coef d) k (expo d) ltac:(lia) Hk) as Hr.
    destruct (half_up_div_spec (coef d) k ltac:(lia) Hk) as (HN0 & HN1 & HN2).
    set (N := half_up_div (coef d) k) in *.
    replace (n + expo d - prec)%Z with (expo d + k)%Z by (unfold k; lia).
    exists N. split; [|exact Hr].
    destruct (Z.leb_spec (10 ^ prec) (Z.abs N)) as [Hcarry|Hno]; [|reflexivity].
    assert (HN : N = (10 ^ prec)%Z).
    { pose proof (ndigits_upper (coef d)) as Hu. fold n in Hu.
      rewrite Z.abs_eq in Hu by lia. rewrite Z.abs_eq in Hcarry by lia.
      replace n with (prec + k)%Z in Hu by (unfold k; lia).
      rewrite Z.pow_add_r in Hu by (unfold prec; lia).
      assert (0 < 10 ^ k)%Z by (apply Z.pow_pos_nonneg; lia).
      assert (2 * N - 1 < 2 * 10 ^ prec)%Z by nia. lia. }
    rewrite HN. unfold val. cbn [coef expo].
    replace (expo d + k + 1)%Z with (1 + (expo d + k))%Z by lia.
    rewrite (bpow_add 1). change (bpow 1) with (10 * 1).
    change (10 ^ prec / 10)%Z with (10 ^ 27)%Z. unfold prec.
    replace (IZR (10 ^ 28)) with (IZR (10 ^ 27) * 10).
    + ring.
    + rewrite <- (mult_IZR _ 10). f_equal.
Qed.

Lemma fix_ctx_zero (d : Decimal) : coef d = 0%Z → fix_ctx d = d.
Proof. intros H. apply fix_ctx_fits. rewrite H. vm_compute. discriminate. Qed.

Lemma fix_ctx_nonneg (d : Decimal) : (0 ≤ coef d)%Z → (0 ≤ coef (fix_ctx d))%Z.
Proof.
  intros Hc. destruct (Z.eq_dec (coef d) 0%Z) as [H0|Hne].
  - rewrite fix_ctx_zero by exact H0. lia.
  - destruct (fix_ctx_rnd d ltac:(lia)) as (N & Hv & Hr).
    apply val_nonneg. rewrite Hv.
    pose proof (rnd_nonneg _ _ _ Hr) as HN.
    assert (0 <= val d) by (apply val_nonneg; lia).
    specialize (HN H). apply IZR_le in HN. pose proof (bpow_pos (mag d - prec)). nra.
Qed.

(** [fix_ctx] is monotone on the non-negative decimals. *)
Lemma fix_ctx_mono (a b : Decimal) :
  (0 ≤ coef a)%Z → val a <= val b → val (fix_ctx a) <= val (fix_ctx b).
Proof.
  intros Ha Hab.
  assert (Hb : (0 ≤ coef b)%Z) by (apply val_nonneg; apply val_nonneg in Ha; lra).
  destruct (Z.eq_dec (coef a) 0%Z) as [Ha0|Hane].
  { rewrite (fix_ctx_zero a Ha0). apply fix_ctx_nonneg in Hb. apply val_nonneg in Hb.
    unfold val at 1. rewrite Ha0. lra. }
  assert (Hbpos : (0 < coef b)%Z).
  { apply val_pos. assert (0 < val a) by (apply val_pos; lia). lra. }
  destruct (fix_ctx_rnd a ltac:(lia)) as (N & HvN & HrN).
  destruct (fix_ctx_rnd b Hbpos) as (M & HvM & HrM).
  destruct (mag_bounds a ltac:(lia)) as [Hla Hua].
  destruct (mag_bounds b Hbpos) as [Hlb Hub].
  pose proof (mag_mono a b ltac:(lia) Hbpos Hab) as Hmag.
  rewrite HvN, HvM.
  destruct (Z.eq_dec (mag a) (mag b)) as [Heq|Hneq].
  - rewrite Heq in *. pose proof (rnd_mono _ _ _ _ _ HrN HrM Hab) as HNM.
    apply IZR_le in HNM. pose proof (bpow_pos (mag b - prec)). nra.
  - (* a rounds to at most 10^(mag a), b to at least 10^(mag b - 1) *)
    assert (HNup : IZR N * bpow (mag a - prec) <= bpow (mag a)).
    { destruct HrN as [HrN _].
      assert (Hs : bpow (mag a) = IZR (10 ^ prec) * bpow (mag a - prec)).
      { rewrite <- bpow_IZR, <- bpow_add by (unfold prec; lia). f_equal. lia. }
      pose proof (bpow_pos (mag a - prec)) as Hq.
      assert (HN : 2 * IZR N - 1 < 2 * IZR (10 ^ prec)) by (rewrite Hs in Hua; nra).
      assert (HN' : IZR (2 * N - 1) < IZR (2 * 10 ^ prec)).
      { rewrite minus_IZR, !mult_IZR. exact HN. }
      apply lt_IZR in HN'. assert (HN'' : (N ≤ 10 ^ prec)%Z) by lia.
      apply IZR_le in HN''. rewrite Hs. nra. }
    assert (HMlow : bpow (mag b - 1) <= IZR M * bpow (mag b - prec)).
    { destruct HrM as [_ HrM].
      assert (Hs : bpow (mag b - 1) = IZR (10 ^ (prec - 1)) * bpow (mag b - prec)).
      { rewrite <- bpow_IZR, <- bpow_add by (unfold prec; lia). f_equal. lia. }
      pose proof (bpow_pos (mag b - prec)) as Hq.
      assert (HM : 2 * IZR (10 ^ (prec - 1)) < 2 * IZR M + 1) by (rewrite Hs in Hlb; nra).
      assert (HM' : IZR (2 * 10 ^ (prec - 1)) < IZR (2 * M + 1)).
      { rewrite plus_IZR, !mult_IZR. exact HM. }
      apply lt_IZR in HM'. assert (HM'' : (10 ^ (prec - 1) ≤ M)%Z) by lia.
      apply IZR_le in HM''. rewrite Hs. nra. }
    pose proof (bpow_le (mag a) (mag b - 1) ltac:(lia)). lra.
Qed.

(** The result of [fix_ctx] has at most [prec] digits. *)
Lemma fix_ctx_digits (d : Decimal) :
  (0 ≤ coef d)%Z → (ndigits (coef (fix_ctx d)) ≤ prec)%Z.
Proof.
  intros Hc. unfold fix_ctx. set (n := ndigits (coef d)).
  destruct (Z.leb_spec n prec) as [Hfit|Hbig]; [exact Hfit|].
  set (k := (n - prec)%Z). assert (Hk : (1 ≤ k)%Z) by (unfold k; lia).
  destruct (half_up_div_spec (coef d) k Hc Hk) as (HN0 & HN1 & HN2).
  set (N := half_up_div (coef d) k) in *.
  destruct (Z.leb_spec (10 ^ prec) (Z.abs N)) as [Hcarry|Hno]; cbn [coef].
  - assert (HN : N = (10 ^ prec)%Z).
    { pose proof (ndigits_upper (coef d)) as Hu. fold n in Hu.
      rewrite Z.abs_eq in Hu by lia. rewrite Z.abs_eq in Hcarry by lia.
      replace n with (prec + k)%Z in Hu by (unfold k; lia).
      rewrite Z.pow_add_r in Hu by (unfold prec; lia).
      assert (0 < 10 ^ k)%Z by (apply Z.pow_pos_nonneg; lia).
      assert (2 * N - 1 < 2 * 10 ^ prec)%Z by nia. lia. }
    rewrite HN. vm_compute. discriminate.
  - apply ndigits_le_iff; [unfold prec; lia | exact Hno].
Qed.

Lemma fix_ctx_lower (d : Decimal) :
  (0 < coef d)%Z → bpow (mag d - 1) <= val (fix_ctx d).
Proof.
  intros Hc. destruct (fix_ctx_rnd d Hc) as (M & HvM & [_ HrM]).
  destruct (mag_bounds d Hc) as [Hlb _]. rewrite HvM.
  assert (Hs : bpow (mag d - 1) = IZR (10 ^ (prec - 1)) * bpow (mag d - prec)).
  { rewrite <- bpow_IZR, <- bpow_add by (unfold prec; lia). f_equal. lia. }
  pose proof (bpow_pos (mag d - prec)) as Hq.
  assert (HM : 2 * IZR (10 ^ (prec - 1)) < 2 * IZR M + 1) by (rewrite Hs in Hlb; nra).
  assert (HM' : IZR (2 * 10 ^ (prec - 1)) < IZR (2 * M + 1)).
  { rewrite plus_IZR, !mult_IZR. exact HM. }
  apply lt_IZR in HM'. assert (HM'' : (10 ^ (prec - 1) ≤ M)%Z) by lia.
  apply IZR_le in HM''. rewrite Hs. nra.
Qed.

Lemma fix_ctx_error (d : Decimal) :
  (0 < coef d)%Z → Rabs (val (fix_ctx d) - val d) <= bpow (mag d - prec) / 2.
Proof.
  intros Hc. destruct (fix_ctx_rnd d Hc) as (N & Hv & Hr).
  rewrite Hv. apply rnd_error. exact Hr.
Qed.

Lemma fix_ctx_expo (d : Decimal) :
  (prec < ndigits (coef d))%Z → (mag d - prec ≤ expo (fix_ctx d))%Z.
Proof.
  intros H. unfold fix_ctx, mag.
  destruct (Z.leb_spec (ndigits (coef d)) prec); [lia|].
  destruct (10 ^ prec <=? _)%Z; cbn [expo]; lia.
Qed.

Lemma fix_ctx_pos (d : Decimal) : (0 < coef d)%Z → (0 < coef (fix_ctx d))%Z.
Proof.
  intros Hc. apply val_pos. pose proof (fix_ctx_lower d Hc).
  pose proof (bpow_pos (mag d - 1)). lra.
Qed.

(** ** Rescaling and quantizing *)

Lemma rescale_expo (d : Decimal) (t : Z) : expo (rescale d t) = t.
Proof. unfold rescale. destruct (t <=? expo d)%Z; reflexivity. Qed.

Lemma rescale_exact (d : Decimal) (t : Z) :
  (t ≤ expo d)%Z → val (rescale d t) = val d.
Proof.
  intros H. unfold rescale. destruct (Z.leb_spec t (expo d)); [|lia].
  unfold val. cbn [coef expo]. apply val_pad. lia.
Qed.

Lemma rescale_rnd (d : Decimal) (t : Z) :
  (0 ≤ coef d)%Z → rnd (val d) t (coef (rescale d t)).
Proof.
  intros Hc. unfold rescale. destruct (Z.leb_spec t (expo d)) as [Hle|Hlt]; cbn [coef].
  - unfold val. rewrite <- (val_pad (coef d) (expo d) t Hle). apply rnd_exact.
  - unfold val. replace t with (expo d + (t - expo d))%Z at 1 by lia.
    apply half_up_div_rnd; lia.
Qed.

Lemma rescale_nonneg (d : Decimal) (t : Z) :
  (0 ≤ coef d)%Z → (0 ≤ coef (rescale d t))%Z.
Proof.
  intros Hc. eapply rnd_nonneg; [apply rescale_rnd; exact Hc|].
  apply val_nonneg. exact Hc.
Qed.

Lemma rescale_error (d : Decimal) (t : Z) :
  (0 ≤ coef d)%Z → Rabs (val (rescale d t) - val d) <= bpow t / 2.
Proof.
  intros Hc. pose proof (rescale_rnd d t Hc) as Hr. apply rnd_error in Hr.
  unfold val at 1. rewrite rescale_expo. exact Hr.
Qed.

Lemma quantize_Some (d r : Decimal) (t : Z) :
  quantize d t = Some r → r = rescale d t ∧ (ndigits (coef r) ≤ prec)%Z.
Proof.
  unfold quantize. destruct (Z.eqb_spec (coef d) 0) as [H0|Hne].
  - intros [= <-]. split; [|vm_compute; discriminate].
    unfold rescale. rewrite H0. destruct (t <=? expo d)%Z; [f_equal; lia|].
    reflexivity.
  - destruct (prec <? _)%Z; [discriminate|].
    destruct (Z.ltb_spec prec (ndigits (coef (rescale d t)))); [discriminate|].
    intros [= <-]. split; [reflexivity | lia].
Qed.

Lemma quantize_mag (d r : Decimal) (t : Z) :
  quantize d t = Some r → coef d ≠ 0%Z → (mag d - t ≤ prec)%Z.
Proof.
  unfold quantize, mag. destruct (Z.eqb_spec (coef d) 0); [contradiction|].
  destruct (Z.ltb_spec prec (ndigits (coef d) + expo d - t)); [discriminate|].
  intros _ _. lia.
Qed.

Lemma quantize_expo (d r : Decimal) (t : Z) : quantize d t = Some r → expo r = t.
Proof. intros H. apply quantize_Some in H as [-> _]. apply rescale_expo. Qed.

Lemma q2_expo (d r : Decimal) : q2 d = Some r → expo r = (-2)%Z.
Proof. apply quantize_expo. Qed.

(** Quantizing is monotone on the non-negative decimals. *)
Lemma quantize_mono (a b ra rb : Decimal) (t : Z) :
  (0 ≤ coef a)%Z → val a <= val b →
  quantize a t = Some ra → quantize b t = Some rb → (coef ra ≤ coef rb)%Z.
Proof.
  intros Ha Hab Hqa Hqb.
  assert (Hb : (0 ≤ coef b)%Z) by (apply val_nonneg; apply val_nonneg in Ha; lra).
  apply quantize_Some in Hqa as [-> _]. apply quantize_Some in Hqb as [-> _].
  eapply rnd_mono; [apply rescale_rnd, Ha | apply rescale_rnd, Hb | exact Hab].
Qed.

(** A non-negative decimal of at most [10^(prec+t-1)] can be
    quantized. *)
Lemma quantize_ok (d : Decimal) (t : Z) :
  (0 ≤ coef d)%Z → val d <= bpow (prec + t - 1) →
  quantize d t = Some (rescale d t).
Proof.
  intros Hc Hv. unfold quantize.
  destruct (Z.eqb_spec (coef d) 0) as [H0|Hne].
  - f_equal. unfold rescale. rewrite H0.
    destruct (t <=? expo d)%Z; [f_equal; lia | reflexivity].
  - destruct (mag_bounds d ltac:(lia)) as [Hl _].
    assert (Hm : (mag d - 1 < prec + t)%Z).
    { apply bpow_lt_inv. pose proof (bpow_lt (prec + t - 1) (prec + t) ltac:(lia)). lra. }
    unfold mag in Hm.
    destruct (Z.ltb_spec prec (ndigits (coef d) + expo d - t)); [lia|].
    pose proof (rescale_rnd d t Hc) as [Hr _].
    pose proof (rescale_nonneg d t Hc) as Hn.
    set (N := coef (rescale d t)) in *.
    assert (Hs : bpow (prec + t - 1) = IZR (10 ^ (prec - 1)) * bpow t).
    { rewrite <- bpow_IZR, <- bpow_add by (unfold prec; lia). f_equal. lia. }
    pose proof (bpow_pos t) as Ht.
    assert (HN : 2 * IZR N - 1 <= 2 * IZR (10 ^ (prec - 1))) by (rewrite Hs in Hv; nra).
    assert (HN' : IZR (2 * N - 1) <= IZR (2 * 10 ^ (prec - 1))).
    { rewrite minus_IZR, !mult_IZR. exact HN. }
    apply le_IZR in HN'.
    assert (Hfit : (ndigits N ≤ prec)%Z).
    { apply ndigits_le_iff; [unfold prec; lia|]. rewrite Z.abs_eq by lia.
      assert (10 ^ (prec - 1) < 10 ^ prec)%Z by (vm_compute; reflexivity). lia. }
    destruct (Z.ltb_spec prec (ndigits N)); [lia | reflexivity].
Qed.

(** Quantizing to cents after the rounding of the context is within
    0.0055 of the exact value. *)
Lemma q2_fix_error (d r : Decimal) :
  (0 ≤ coef d)%Z → q2 (fix_ctx d) = Some r →
  Rabs (val r - val d) <= 55 / 10000.
Proof.
  intros Hc Hq. unfold q2 in Hq.
  pose proof (fix_ctx_nonneg d Hc) as Hf0.
  destruct (Z_le_gt_dec (ndigits (coef d)) prec) as [Hfit|Hbig].
  - rewrite fix_ctx_fits in Hq by exact Hfit.
    apply quantize_Some in Hq as [-> _].
    pose proof (rescale_error d (-2) Hc) as He.
    change (bpow (-2)) with (/ (10 * (10 * 1))) in He.
    eapply Rle_trans; [exact He|]. lra.
  - assert (Hpos : (0 < coef d)%Z).
    { destruct (Z.eq_dec (coef d) 0%Z) as [H0|]; [|lia].
      rewrite H0 in Hbig. vm_compute in Hbig. discriminate. }
    pose proof (fix_ctx_pos d Hpos) as Hfpos.
    pose proof (quantize_mag _ _ _ Hq ltac:(lia)) as Hmag.
    apply quantize_Some in Hq as [-> _].
    pose proof (fix_ctx_error d Hpos) as Herr.
    pose proof (fix_ctx_expo d ltac:(lia)) as Hexp.
    assert (Hmd : (mag d ≤ mag (fix_ctx d))%Z).
    { pose proof (fix_ctx_lower d Hpos) as Hl.
      destruct (mag_bounds (fix_ctx d) Hfpos) as [_ Hu].
      assert (H : bpow (mag d - 1) < bpow (mag (fix_ctx d))) by lra.
      apply bpow_lt_inv in H. lia. }
    set (f := fix_ctx d) in *. set (q := (mag d - prec)%Z) in *.
    assert (Hq2 : (q ≤ -2)%Z) by lia.
    destruct (Z.eq_dec q (-2)%Z) as [Heq|Hne].
    + rewrite rescale_exact by lia. rewrite Heq in Herr.
      change (bpow (-2)) with (/ (10 * (10 * 1))) in Herr.
      eapply Rle_trans; [exact Herr|]. lra.
    + pose proof (rescale_error f (-2) Hf0) as He.
      change (bpow (-2)) with (/ (10 * (10 * 1))) in He.
      pose proof (bpow_le q (-3) ltac:(lia)) as Hb.
      change (bpow (-3)) with (/ (10 * (10 * (10 * 1)))) in Hb.
      replace (val (rescale f (-2)) - val d)
        with ((val (rescale f (-2)) - val f) + (val f - val d)) by ring.
      eapply Rle_trans; [apply Rabs_triang|]. lra.
Qed.

(** ** Exact sums *)

Lemma dec_add_exact (a b : Decimal) :
  Rabs (val a + val b) < bpow (prec + Z.min (expo a) (expo b)) →
  dec_add a b = add_exact a b.
Proof.
  intros H. rewrite dec_add_unfold. apply fix_ctx_fits.
  apply ndigits_le_iff; [unfold prec; lia|].
  rewrite <- val_add_exact in H. unfold val in H.
  change (expo (add_exact a b)) with (Z.min (expo a) (expo b)) in H.
  set (m := Z.min (expo a) (expo b)) in *. set (c := coef (add_exact a b)) in *.
  rewrite bpow_add, Rabs_mult, (Rabs_pos_eq (bpow m)) in H
    by (left; apply bpow_pos).
  pose proof (bpow_pos m) as Hm.
  assert (Hc : Rabs (IZR c) < bpow prec) by nra.
  rewrite <- abs_IZR, bpow_IZR in Hc by (unfold prec; lia).
  apply lt_IZR in Hc. exact Hc.
Qed.

Lemma dec_sub_exact (a b : Decimal) :
  Rabs (val a - val b) < bpow (prec + Z.min (expo a) (expo b)) →
  dec_sub a b = add_exact a (dec_neg b).
Proof.
  intros H. unfold dec_sub. apply dec_add_exact. rewrite val_neg. exact H.
Qed.

(** * The bracket loop *)

Lemma INCOME_TAX_BRACKETS_ok : brackets_ok (of_int 0) INCOME_TAX_BRACKETS = true.
Proof. vm_compute. reflexivity. Qed.

Lemma bracket_loop_stop (b : TaxBracket.t) rest rem prev total lines :
  dec_le rem (of_int 0) = true →
  bracket_loop (b :: rest) rem prev total lines = Some (total, lines).
Proof. intros H. simpl. rewrite H. reflexivity. Qed.

Lemma bracket_loop_step (b : TaxBracket.t) rest rem prev total lines res :
  dec_le rem (of_int 0) = false →
  bracket_loop (b :: rest) rem prev total lines = Some res →
  ∃ line,
    q2 (portion b prev rem) = Some (BracketBreakdown.taxable_amount line)
    ∧ bracket_loop rest (dec_sub rem (portion b prev rem)) (next_limit b prev)
        (dec_add total (dec_mul (portion b prev rem) (TaxBracket.rate b)))
        (lines ++ [line]) = Some res.
Proof.
  intros Hrem H. simpl in H. rewrite Hrem in H.
  fold (portion b prev rem) in H. fold (next_limit b prev) in H.
  destruct (q2 prev) as [bmin|]; [|discriminate].
  destruct (match TaxBracket.upper_limit b with
            | None => Some (BoundStr "unlimited")
            | Some limit => BoundDec <$> q2 limit
            end) as [bmax|]; [|discriminate].
  destruct (q2 (dec_mul (TaxBracket.rate b) (of_int 100))) as [r|]; [|discriminate].
  destruct (q2 (portion b prev rem)) as [amount|] eqn:Ha; [|discriminate].
  destruct (q2 (dec_mul (portion b prev rem) (TaxBracket.rate b))) as [tax|]; [|discriminate].
  simpl in H. eexists. split; [|exact H]. reflexivity.
Qed.

Section BracketFacts.
Variables (b : TaxBracket.t) (prev : Decimal).
Hypothesis Hrate : dec_le (of_int 0) (TaxBracket.rate b) = true.
Hypothesis Hwidth :
  match TaxBracket.upper_limit b with
  | None => True
  | Some limit => dec_lt (of_int 0) (dec_sub limit prev) = true
  end.

Lemma rate_nonneg : (0 ≤ coef (TaxBracket.rate b))%Z.
Proof. apply val_nonneg. apply dec_le_val in Hrate. rewrite val_of_int in Hrate. exact Hrate. Qed.

Lemma portion_pos (rem : Decimal) : 0 < val rem → 0 < val (portion b prev rem).
Proof.
  intros Hr. unfold portion. destruct (TaxBracket.upper_limit b) as [limit|]; [|exact Hr].
  apply dec_lt_val in Hwidth. rewrite val_of_int in Hwidth.
  rewrite py_min_val. apply Rmin_glb_lt; assumption.
Qed.

Lemma portion_le (rem : Decimal) : val (portion b prev rem) <= val rem.
Proof.
  unfold portion. destruct (TaxBracket.upper_limit b) as [limit|]; [|lra].
  rewrite py_min_val. apply Rmin_l.
Qed.

Lemma portion_mono (ra rb : Decimal) :
  val ra <= val rb →
  val (portion b prev ra) <= val (portion b prev rb)
  ∧ val ra - val (portion b prev ra) <= val rb - val (portion b prev rb).
Proof.
  intros H. unfold portion. destruct (TaxBracket.upper_limit b) as [limit|]; [|lra].
  rewrite !py_min_val. set (s := val (dec_sub limit prev)).
  unfold Rmin. destruct (Rle_dec (val ra) s), (Rle_dec (val rb) s); lra.
Qed.

(** The tax of the bracket is monotone in the portion. *)
Lemma bracket_tax_mono (pa pb : Decimal) :
  0 <= val pa → val pa <= val pb →
  (0 ≤ coef (dec_mul pa (TaxBracket.rate b)))%Z
  ∧ val (dec_mul pa (TaxBracket.rate b)) <= val (dec_mul pb (TaxBracket.rate b)).
Proof.
  intros H0 Hab. pose proof rate_nonneg as Hr.
  assert (Hc : (0 ≤ coef (mul_exact pa (TaxBracket.rate b)))%Z).
  { apply val_nonneg in H0. cbn [mul_exact coef]. apply Z.mul_nonneg_nonneg; assumption. }
  rewrite !dec_mul_unfold. split; [apply fix_ctx_nonneg, Hc|].
  apply fix_ctx_mono; [exact Hc|]. rewrite !val_mul_exact.
  apply val_nonneg in Hr. apply Rmult_le_compat_r; assumption.
Qed.
End BracketFacts.

Lemma total_step_mono (ta tb xa xb : Decimal) :
  (0 ≤ coef ta)%Z → (0 ≤ coef xa)%Z → val ta <= val tb → val xa <= val xb →
  (0 ≤ coef (dec_add ta xa))%Z
  ∧ (ndigits (coef (dec_add ta xa)) ≤ prec)%Z
  ∧ val (dec_add ta xa) <= val (dec_add tb xb).
Proof.
  intros Ht Hx Htab Hxab.
  assert (Hc : (0 ≤ coef (add_exact ta xa))%Z).
  { apply val_nonneg. rewrite val_add_exact.
    apply val_nonneg in Ht. apply val_nonneg in Hx. lra. }
  rewrite !dec_add_unfold. split; [apply fix_ctx_nonneg, Hc|].
  split; [apply fix_ctx_digits, Hc|].
  apply fix_ctx_mono; [exact Hc|]. rewrite !val_add_exact. lra.
Qed.

Lemma remaining_step_mono (ra rb pa pb : Decimal) :
  0 <= val ra - val pa → val ra - val pa <= val rb - val pb →
  (0 ≤ coef (dec_sub ra pa))%Z ∧ val (dec_sub ra pa) <= val (dec_sub rb pb).
Proof.
  intros H0 Hab. unfold dec_sub.
  assert (Hc : (0 ≤ coef (add_exact ra (dec_neg pa)))%Z).
  { apply val_nonneg. rewrite val_add_exact, val_neg. lra. }
  rewrite !dec_add_unfold. split; [apply fix_ctx_nonneg, Hc|].
  apply fix_ctx_mono; [exact Hc|]. rewrite !val_add_exact, !val_neg. lra.
Qed.

(** The running total never decreases. *)
Lemma bracket_loop_grows (bs : list TaxBracket.t) :
  ∀ prev rem total lines T L,
    brackets_ok prev bs = true →
    (0 ≤ coef total)%Z → (ndigits (coef total) ≤ prec)%Z →
    bracket_loop bs rem prev total lines = Some (T, L) →
    (0 ≤ coef T)%Z ∧ val total <= val T.
Proof.
  induction bs as [|b rest IH]; intros prev rem total lines T L Hok Ht Hfit Hloop.
  - simpl in Hloop. injection Hloop as <- <-. split; [exact Ht | lra].
  - simpl in Hok. apply andb_prop in Hok as [Hok Hrest]. apply andb_prop in Hok as [Hrate Hwidth].
    destruct (dec_le rem (of_int 0)) eqn:Hrem.
    + rewrite bracket_loop_stop in Hloop by exact Hrem.
      injection Hloop as <- <-. split; [exact Ht | lra].
    + destruct (bracket_loop_step _ _ _ _ _ _ _ Hrem Hloop) as (line & _ & Hnext).
      apply dec_le_false_val in Hrem. rewrite val_of_int in Hrem.
      assert (Hw : match TaxBracket.upper_limit b with
                   | None => True
                   | Some limit => dec_lt (of_int 0) (dec_sub limit prev) = true
                   end) by (destruct (TaxBracket.upper_limit b); [exact Hwidth | exact I]).
      pose proof (portion_pos b prev Hw rem Hrem) as Hp.
      destruct (bracket_tax_mono b Hrate (portion b prev rem) (portion b prev rem)
                  ltac:(lra) ltac:(lra)) as [Hx0 _].
      destruct (total_step_mono total total _ _ Ht Hx0 ltac:(lra) (Rle_refl _))
        as (Ht' & Hfit' & _).
      destruct (IH _ _ _ _ _ _ Hrest Ht' Hfit' Hnext) as [HT Hle].
      split; [exact HT|]. eapply Rle_trans; [|exact Hle].
      rewrite <- (fix_ctx_fits total Hfit) at 1. rewrite dec_add_unfold.
      apply fix_ctx_mono; [exact Ht|]. rewrite val_add_exact.
      apply val_nonneg in Hx0. lra.
Qed.

(** The total is monotone in the remaining income and in the running
    total. *)
Lemma bracket_loop_mono (bs : list TaxBracket.t) :
  ∀ prev ra rb ta tb la lb Ta La Tb Lb,
    brackets_ok prev bs = true →
    val ra <= val rb →
    (0 ≤ coef ta)%Z → val ta <= val tb →
    (ndigits (coef ta) ≤ prec)%Z → (ndigits (coef tb) ≤ prec)%Z →
    bracket_loop bs ra prev ta la = Some (Ta, La) →
    bracket_loop bs rb prev tb lb = Some (Tb, Lb) →
    val Ta <= val Tb.
Proof.
  induction bs as [|b rest IH];
    intros prev ra rb ta tb la lb Ta La Tb Lb Hok Hr Hta Ht Hfa Hfb Hla Hlb.
  - simpl in Hla, Hlb. injection Hla as <- <-. injection Hlb as <- <-. exact Ht.
  - assert (Htb : (0 ≤ coef tb)%Z).
    { apply val_nonneg. apply val_nonneg in Hta. lra. }
    pose proof Hok as Hok'.
    simpl in Hok. apply andb_prop in Hok as [Hok Hrest]. apply andb_prop in Hok as [Hrate Hwidth].
    assert (Hw : match TaxBracket.upper_limit b with
                 | None => True
                 | Some limit => dec_lt (of_int 0) (dec_sub limit prev) = true
                 end) by (destruct (TaxBracket.upper_limit b); [exact Hwidth | exact I]).
    destruct (dec_le ra (of_int 0)) eqn:Hra.
    + rewrite bracket_loop_stop in Hla by exact Hra. injection Hla as <- <-.
      destruct (bracket_loop_grows _ _ _ _ _ _ _ Hok' Htb Hfb Hlb) as [_ Hg]. lra.
    + destruct (dec_le rb (of_int 0)) eqn:Hrb.
      { apply dec_le_false_val in Hra. apply dec_le_val in Hrb. lra. }
      destruct (bracket_loop_step _ _ _ _ _ _ _ Hra Hla) as (linea & _ & Hna).
      destruct (bracket_loop_step _ _ _ _ _ _ _ Hrb Hlb) as (lineb & _ & Hnb).
      apply dec_le_false_val in Hra. rewrite val_of_int in Hra.
      pose proof (portion_pos b prev Hw ra Hra) as Hpa.
      pose proof (portion_le b prev Hw ra) as Hpl.
      destruct (portion_mono b prev Hw ra rb Hr) as [Hpm Hrm].
      destruct (bracket_tax_mono b Hrate (portion b prev ra) (portion b prev rb)
                  ltac:(lra) Hpm) as [Hx0 Hxm].
      destruct (total_step_mono ta tb _ _ Hta Hx0 Ht Hxm) as (Ht' & Hfa' & Htm).
      destruct (total_step_mono tb tb _ _ Htb
                  (proj1 (bracket_tax_mono b Hrate (portion b prev rb) (portion b prev rb)
                            ltac:(lra) ltac:(lra)))
                  (Rle_refl _) (Rle_refl _)) as (_ & Hfb' & _).
      destruct (remaining_step_mono ra rb (portion b prev ra) (portion b prev rb)
                  ltac:(lra) Hrm) as [_ Hrem'].
      exact (IH _ _ _ _ _ _ _ _ _ _ _ Hrest Hrem' Ht' Htm Hfa' Hfb' Hna Hnb).
Qed.

(** * Properties of the calculators *)

Lemma val_cents (d : Decimal) : expo d = (-2)%Z → val d = IZR (coef d) / 100.
Proof.
  intros H. unfold val. rewrite H. change (bpow (-2)) with (/ (10 * (10 * 1))). lra.
Qed.

Lemma dec_le_cents (a b : Decimal) :
  expo a = (-2)%Z → expo b = (-2)%Z → (coef a ≤ coef b)%Z → dec_le a b = true.
Proof.
  intros Ha Hb H. apply dec_le_val. rewrite !val_cents by assumption.
  apply IZR_le in H. lra.
Qed.

(** ** Income tax *)

Lemma calculate_income_tax_zero (t : Decimal) :
  dec_le t (of_int 0) = true →
  calculate_income_tax t = Some (IncomeTaxBreakdown.mk (mkDec 0 (-2)) (mkDec 0 (-2)) []).
Proof. intros H. unfold calculate_income_tax. rewrite H. reflexivity. Qed.

Lemma calculate_income_tax_pos (t : Decimal) (r : IncomeTaxBreakdown.t) :
  dec_le t (of_int 0) = false →
  calculate_income_tax t = Some r →
  ∃ T, bracket_loop INCOME_TAX_BRACKETS t (of_int 0) (of_int 0) []
       = Some (T, IncomeTaxBreakdown.bracket_breakdown r)
       ∧ q2 T = Some (IncomeTaxBreakdown.total_tax r).
Proof.
  intros Ht H. unfold calculate_income_tax in H. rewrite Ht in H.
  destruct (bracket_loop INCOME_TAX_BRACKETS t (of_int 0) (of_int 0) [])
    as [[T L]|]; [|discriminate].
  simpl in H.
  destruct (if dec_lt (of_int 0) t
            then x ← dec_div T t; Some (dec_mul x (of_int 100))
            else Some (of_int 0)) as [er|]; [|discriminate].
  simpl in H.
  destruct (q2 T) as [Tr|] eqn:HT; [|discriminate]. simpl in H.
  destruct (q2 er) as [err|]; [|discriminate]. simpl in H.
  injection H as <-. exists T. split; [reflexivity | exact HT].
Qed.

(** C3. Income tax is monotone: for taxable incomes [0 <= a < b] on
    which [calculate_income_tax] returns, the total tax of [a] is at most
    the total tax of [b]. *)
Theorem income_tax_monotone (a b : Decimal) (ra rb : IncomeTaxBreakdown.t) :
  dec_le (of_int 0) a = true → dec_lt a b = true →
  calculate_income_tax a = Some ra → calculate_income_tax b = Some rb →
  dec_le (IncomeTaxBreakdown.total_tax ra) (IncomeTaxBreakdown.total_tax rb) = true.
Proof.
  intros H0a Hab Ha Hb.
  apply dec_le_val in H0a. rewrite val_of_int in H0a. apply dec_lt_val in Hab.
  assert (Hbpos : dec_le b (of_int 0) = false).
  { apply dec_le_false_val. rewrite val_of_int. lra. }
  destruct (calculate_income_tax_pos b rb Hbpos Hb) as (Tb & Hlb & Hqb).
  assert (Hz : (0 ≤ coef (of_int 0))%Z ∧ (ndigits (coef (of_int 0)) ≤ prec)%Z).
  { split; [simpl; lia | vm_compute; discriminate]. }
  destruct Hz as [Hz0 Hzf].
  destruct (bracket_loop_grows _ _ _ _ _ _ _ INCOME_TAX_BRACKETS_ok Hz0 Hzf Hlb) as [HTb0 _].
  destruct (dec_le a (of_int 0)) eqn:Hapos.
  - rewrite calculate_income_tax_zero in Ha by exact Hapos. injection Ha as <-.
    cbn [IncomeTaxBreakdown.total_tax].
    pose proof (q2_expo _ _ Hqb) as Heb.
    apply quantize_Some in Hqb as [Hrb _].
    apply dec_le_cents; [reflexivity | exact Heb |].
    rewrite Hrb. cbn [coef]. apply rescale_nonneg, HTb0.
  - destruct (calculate_income_tax_pos a ra Hapos Ha) as (Ta & Hla & Hqa).
    destruct (bracket_loop_grows _ _ _ _ _ _ _ INCOME_TAX_BRACKETS_ok Hz0 Hzf Hla) as [HTa0 _].
    pose proof (bracket_loop_mono _ _ _ _ _ _ _ _ _ _ _ _ INCOME_TAX_BRACKETS_ok
                  (Rlt_le _ _ Hab) Hz0 (Rle_refl _) Hzf Hzf Hla Hlb) as Hmono.
    apply dec_le_cents; [exact (q2_expo _ _ Hqa) | exact (q2_expo _ _ Hqb) |].
    exact (quantize_mono _ _ _ _ _ HTa0 Hmono Hqa Hqb).
Qed.

Lemma income_tax_monotone_witness :
  ∃ ra rb,
    calculate_income_tax (mkDec 1234567 (-2)) = Some ra
    ∧ calculate_income_tax (mkDec 1234568 (-2)) = Some rb
    ∧ IncomeTaxBreakdown.total_tax ra = mkDec 141605 (-2)
    ∧ IncomeTaxBreakdown.total_tax rb = mkDec 141605 (-2)
    ∧ dec_le (IncomeTaxBreakdown.total_tax ra) (IncomeTaxBreakdown.total_tax rb) = true.
Proof.
  eexists _, _. split; [vm_compute; reflexivity|]. split; [vm_compute; reflexivity|].
  split; [reflexivity|]. split; [reflexivity|].
  apply (income_tax_monotone (mkDec 1234567 (-2)) (mkDec 1234568 (-2)));
    vm_compute; reflexivity.
Defined.

(** ** The aggregate result *)

(** C1. The third scenario of the specification: gross income 60000 and
    deductible expenses 10000 give taxable income 50000.00, income tax
    13900.00 with a line for each of the five brackets, social security
    12000.00, VAT 14400.00, total taxes 25900.00 and net income
    34100.00. *)
Theorem scenario_60000_10000 :
  ∃ r, calculate_all_taxes (of_int 60000) (of_int 10000) = Some r
    ∧ TaxCalculationResult.taxable_income r = mkDec 5000000 (-2)
    ∧ IncomeTaxBreakdown.total_tax (TaxCalculationResult.income_tax r) = mkDec 1390000 (-2)
    ∧ BracketBreakdown.bracket_max
        <$> IncomeTaxBreakdown.bracket_breakdown (TaxCalculationResult.income_tax r)
      = [BoundDec (mkDec 1000000 (-2)); BoundDec (mkDec 2000000 (-2));
         BoundDec (mkDec 3000000 (-2)); BoundDec (mkDec 4000000 (-2));
         BoundStr "unlimited"]
    ∧ BracketBreakdown.taxable_amount
        <$> IncomeTaxBreakdown.bracket_breakdown (TaxCalculationResult.income_tax r)
      = replicate 5 (mkDec 1000000 (-2))
    ∧ SocialSecurityCalculation.total_contribution
        (TaxCalculationResult.social_security r) = mkDec 1200000 (-2)
    ∧ VATCalculation.vat_amount (TaxCalculationResult.vat r) = mkDec 1440000 (-2)
    ∧ TaxCalculationResult.total_taxes r = mkDec 2590000 (-2)
    ∧ TaxCalculationResult.net_income r = mkDec 3410000 (-2).
Proof.
  eexists. split; [vm_compute; reflexivity|].
  repeat split; reflexivity.
Qed.

(** Inversion of a chain of binds that returned a result. *)
Ltac bind_inv H :=
  repeat (let x := fresh "x" in
          let Hx := fresh "Hx" in
          apply bind_Some in H as (x & Hx & H)).

Lemma calculate_all_taxes_gross_basis (g e : Decimal) (r : TaxCalculationResult.t) :
  calculate_all_taxes g e = Some r →
  let basis := if dec_le g (of_int 0) then of_int 0 else g in
  calculate_vat basis = Some (TaxCalculationResult.vat r)
  ∧ calculate_social_security basis = Some (TaxCalculationResult.social_security r).
Proof.
  intros H. unfold calculate_all_taxes in H.
  destruct (dec_le g (of_int 0)); cbn zeta; bind_inv H;
    injection H as <-; split; assumption.
Qed.

(** C4. For a fixed gross income the deductible expenses do not change
    the VAT amount nor the social security contribution of the
    result. *)
Theorem gross_basis_invariant (g e1 e2 : Decimal) (r1 r2 : TaxCalculationResult.t) :
  calculate_all_taxes g e1 = Some r1 → calculate_all_taxes g e2 = Some r2 →
  VATCalculation.vat_amount (TaxCalculationResult.vat r1)
  = VATCalculation.vat_amount (TaxCalculationResult.vat r2)
  ∧ SocialSecurityCalculation.total_contribution (TaxCalculationResult.social_security r1)
    = SocialSecurityCalculation.total_contribution (TaxCalculationResult.social_security r2).
Proof.
  intros H1 H2.
  destruct (calculate_all_taxes_gross_basis g e1 r1 H1) as [Hv1 Hs1].
  destruct (calculate_all_taxes_gross_basis g e2 r2 H2) as [Hv2 Hs2].
  cbn zeta in *. rewrite Hv1 in Hv2. rewrite Hs1 in Hs2.
  injection Hv2 as ->. injection Hs2 as ->. split; reflexivity.
Qed.

(** With gross income 60000, expenses of 10000 and of 0 give different
    income taxes and the same VAT and social security. *)
Lemma gross_basis_invariant_witness :
  ∃ r1 r2,
    calculate_all_taxes (of_int 60000) (of_int 10000) = Some r1
    ∧ calculate_all_taxes (of_int 60000) (of_int 0) = Some r2
    ∧ IncomeTaxBreakdown.total_tax (TaxCalculationResult.income_tax r1) = mkDec 1390000 (-2)
    ∧ IncomeTaxBreakdown.total_tax (TaxCalculationResult.income_tax r2) = mkDec 1830000 (-2)
    ∧ TaxCalculationResult.net_income r1 = mkDec 3410000 (-2)
    ∧ TaxCalculationResult.net_income r2 = mkDec 2970000 (-2)
    ∧ VATCalculation.vat_amount (TaxCalculationResult.vat r1)
      = VATCalculation.vat_amount (TaxCalculationResult.vat r2)
    ∧ SocialSecurityCalculation.total_contribution (TaxCalculationResult.social_security r1)
      = SocialSecurityCalculation.total_contribution (TaxCalculationResult.social_security r2).
Proof.
  eexists _, _. split; [vm_compute; reflexivity|]. split; [vm_compute; reflexivity|].
  do 4 (split; [reflexivity|]).
  apply (gross_basis_invariant (of_int 60000) (of_int 10000) (of_int 0));
    vm_compute; reflexivity.
Defined.

(** C5, as stated, fails: the result of [calculate_all_taxes(0, 0)]
    carries the VAT rate 24.00 and the social security rate 20.00. *)
Lemma zero_income_not_all_zero :
  ∃ r, calculate_all_taxes (of_int 0) (of_int 0) = Some r
    ∧ all_fields_zero r = false
    ∧ VATCalculation.rate (TaxCalculationResult.vat r) = mkDec 2400 (-2)
    ∧ SocialSecurityCalculation.rate (TaxCalculationResult.social_security r)
      = mkDec 2000 (-2).
Proof.
  eexists. split; [vm_compute; reflexivity|]. repeat split; reflexivity.
Qed.

(** C5, amended. For a gross income that is not positive the result has
    every amount and both effective rates at 0.00 and no bracket line;
    the two inputs are echoed rounded to cents, and the VAT and social
    security rates are the configured 24.00 and 20.00.  For (0, 0) the
    echoed inputs are 0.00 too. *)
Theorem non_positive_gross_short_circuit (g e : Decimal) (r : TaxCalculationResult.t) :
  dec_le g (of_int 0) = true →
  calculate_all_taxes g e = Some r →
  ∃ gq eq, q2 g = Some gq ∧ q2 e = Some eq ∧ r = zero_result gq eq.
Proof.
  intros Hg H. unfold calculate_all_taxes in H. rewrite Hg in H.
  destruct (q2 g) as [gq|]; [|discriminate].
  destruct (q2 e) as [eq|]; [|discriminate].
  cbn in H. injection H as <-. exists gq, eq. repeat split; reflexivity.
Qed.

Lemma non_positive_gross_short_circuit_witness :
  calculate_all_taxes (of_int 0) (of_int 0) = Some (zero_result (mkDec 0 (-2)) (mkDec 0 (-2)))
  ∧ calculate_all_taxes (of_int (-1000)) (of_int 0)
    = Some (zero_result (mkDec (-100000) (-2)) (mkDec 0 (-2)))
  ∧ ∃ gq eq, q2 (of_int 0) = Some gq ∧ q2 (of_int 0) = Some eq
             ∧ zero_result (mkDec 0 (-2)) (mkDec 0 (-2)) = zero_result gq eq.
Proof.
  split; [vm_compute; reflexivity|]. split; [vm_compute; reflexivity|].
  apply (non_positive_gross_short_circuit (of_int 0) (of_int 0)); vm_compute; reflexivity.
Defined.

(** ** Social security *)

Lemma calculate_social_security_pos (g : Decimal) (r : SocialSecurityCalculation.t) :
  dec_lt (of_int 0) g = true →
  calculate_social_security g = Some r →
  q2 (dec_mul g EFKA_TOTAL_RATE) = Some (SocialSecurityCalculation.total_contribution r)
  ∧ q2 (dec_mul g EFKA_MAIN_RATE) = Some (SocialSecurityCalculation.main_insurance r)
  ∧ q2 (dec_mul g EFKA_ADDITIONAL_RATE)
    = Some (SocialSecurityCalculation.additional_contributions r).
Proof.
  intros Hg H. unfold calculate_social_security in H.
  assert (Hle : dec_le g (of_int 0) = false).
  { apply dec_le_false_val. apply dec_lt_val in Hg. exact Hg. }
  rewrite Hle in H.
  destruct (q2 (dec_mul g EFKA_TOTAL_RATE)) as [t|]; [|discriminate].
  destruct (q2 (dec_mul g EFKA_MAIN_RATE)) as [m|]; [|discriminate].
  destruct (q2 (dec_mul g EFKA_ADDITIONAL_RATE)) as [a|]; [|discriminate].
  cbn [mbind option_bind] in H.
  destruct (q2 (dec_mul EFKA_TOTAL_RATE (of_int 100))); [|discriminate].
  injection H as <-. repeat split; reflexivity.
Qed.

(** C8. For a positive gross income the total contribution is the gross
    income times the combined rate 0.2000, rounded to cents, and not the
    sum of the two rounded parts; the sum of the parts differs from it
    by at most one cent. *)
Theorem social_security_parts_within_one_cent (g : Decimal)
    (r : SocialSecurityCalculation.t) :
  dec_lt (of_int 0) g = true →
  calculate_social_security g = Some r →
  let total := SocialSecurityCalculation.total_contribution r in
  let main := SocialSecurityCalculation.main_insurance r in
  let additional := SocialSecurityCalculation.additional_contributions r in
  q2 (dec_mul g (mkDec 2000 (-4))) = Some total
  ∧ expo total = (-2)%Z ∧ expo main = (-2)%Z ∧ expo additional = (-2)%Z
  ∧ (Z.abs (coef main + coef additional - coef total) ≤ 1)%Z.
Proof.
  intros Hg H. cbn zeta.
  destruct (calculate_social_security_pos g r Hg H) as (Ht & Hm & Ha).
  change EFKA_TOTAL_RATE with (mkDec 2000 (-4)) in Ht.
  split; [exact Ht|].
  pose proof (q2_expo _ _ Ht) as Het. pose proof (q2_expo _ _ Hm) as Hem.
  pose proof (q2_expo _ _ Ha) as Hea.
  do 3 (split; [assumption|]).
  assert (Hg0 : (0 ≤ coef g)%Z).
  { apply dec_lt_val in Hg. rewrite val_of_int in Hg. apply val_nonneg. lra. }
  rewrite dec_mul_unfold in Ht, Hm, Ha.
  apply q2_fix_error in Ht; [|cbn [mul_exact coef]; lia].
  apply q2_fix_error in Hm; [|cbn [mul_exact coef EFKA_MAIN_RATE]; lia].
  apply q2_fix_error in Ha; [|cbn [mul_exact coef EFKA_ADDITIONAL_RATE]; lia].
  rewrite val_mul_exact in Ht, Hm, Ha.
  rewrite val_cents in Ht, Hm, Ha by assumption.
  unfold val at 2 in Ht. unfold val at 2 in Hm. unfold val at 2 in Ha.
  cbn [coef expo EFKA_MAIN_RATE EFKA_ADDITIONAL_RATE] in Ht, Hm, Ha.
  change (bpow (-4)) with (/ (10 * (10 * (10 * (10 * 1))))) in Ht, Hm, Ha.
  set (x := val g) in *.
  set (ct := coef (SocialSecurityCalculation.total_contribution r)) in *.
  set (cm := coef (SocialSecurityCalculation.main_insurance r)) in *.
  set (ca := coef (SocialSecurityCalculation.additional_contributions r)) in *.
  apply Rabs_bound in Ht, Hm, Ha.
  assert (Hd : -2 < IZR (cm + ca - ct) < 2).
  { rewrite minus_IZR, plus_IZR. lra. }
  destruct Hd as [Hd1 Hd2]. apply lt_IZR in Hd1, Hd2. lia.
Qed.

(** For a gross income of 0.03 the two parts are 0.00 each and the
    total is 0.01. *)
Lemma social_security_parts_within_one_cent_witness :
  calculate_social_security (mkDec 3 (-2))
  = Some (SocialSecurityCalculation.mk (mkDec 1 (-2)) (mkDec 0 (-2)) (mkDec 0 (-2))
            (mkDec 2000 (-2)))
  ∧ (q2 (dec_mul (mkDec 3 (-2)) (mkDec 2000 (-4))) = Some (mkDec 1 (-2))
     ∧ expo (mkDec 1 (-2)) = (-2)%Z ∧ expo (mkDec 0 (-2)) = (-2)%Z
     ∧ expo (mkDec 0 (-2)) = (-2)%Z
     ∧ (Z.abs (0 + 0 - 1) ≤ 1)%Z).
Proof.
  split; [vm_compute; reflexivity|].
  apply (social_security_parts_within_one_cent (mkDec 3 (-2))
           (SocialSecurityCalculation.mk (mkDec 1 (-2)) (mkDec 0 (-2)) (mkDec 0 (-2))
              (mkDec 2000 (-2)))); vm_compute; reflexivity.
Defined.

(** ** Bracket additivity *)

Lemma taxable_sum_cents (lines : list BracketBreakdown.t) :
  Forall in_cents lines → val (taxable_sum lines) = IZR (cents_sum lines) / 100.
Proof.
  induction 1 as [|l lines Hl _ IH]; simpl.
  - rewrite val_of_int. lra.
  - rewrite val_add_exact, IH, plus_IZR, (val_cents _ Hl). lra.
Qed.

Lemma cents_sum_app (l1 l2 : list BracketBreakdown.t) :
  cents_sum (l1 ++ l2) = (cents_sum l1 + cents_sum l2)%Z.
Proof. induction l1 as [|x l1 IH]; simpl; [reflexivity | rewrite IH; lia]. Qed.

Lemma rescale_zero (d : Decimal) (t : Z) : coef d = 0%Z → coef (rescale d t) = 0%Z.
Proof.
  intros H. unfold rescale, half_up_div. rewrite H.
  destruct (t <=? expo d)%Z; reflexivity.
Qed.

Lemma dec_sub_self (a : Decimal) : coef (dec_sub a a) = 0%Z.
Proof.
  unfold dec_sub, dec_add, dec_neg. cbn [coef expo].
  rewrite Z.min_id, Z.sub_diag, Z.pow_0_r, !Z.mul_1_r, Z.add_opp_diag_r.
  reflexivity.
Qed.

Lemma rnd_unique (x : R) (e N M : Z) : rnd x e N → rnd x e M → N = M.
Proof.
  intros HN HM.
  pose proof (rnd_mono _ _ _ _ _ HN HM (Rle_refl x)).
  pose proof (rnd_mono _ _ _ _ _ HM HN (Rle_refl x)). lia.
Qed.

Lemma rnd_shift (x : R) (e N S : Z) : rnd x e N → rnd (x + IZR S * bpow e) e (N + S).
Proof.
  unfold rnd. rewrite plus_IZR. pose proof (bpow_pos e). intros [H1 H2]. split; nra.
Qed.

(** With the loop at a remaining income of zero no line is added. *)
Lemma bracket_loop_done (bs : list TaxBracket.t) rem prev total lines :
  coef rem = 0%Z → bracket_loop bs rem prev total lines = Some (total, lines).
Proof.
  intros H. destruct bs as [|b rest]; [reflexivity|].
  apply bracket_loop_stop. apply dec_le_val. rewrite val_of_int. unfold val.
  rewrite H. lra.
Qed.

(** The amounts of the lines added by the loop sum to the remaining
    income rounded to cents. *)
Lemma bracket_loop_sum (bs : list TaxBracket.t) :
  ∀ prev rem total lines T L,
    widths_in_cents prev bs = true →
    has_unbounded bs = true ∨ coef rem = 0%Z →
    (0 ≤ coef rem)%Z → (ndigits (coef rem) ≤ prec)%Z → val rem <= bpow 25 →
    bracket_loop bs rem prev total lines = Some (T, L) →
    ∃ new, L = lines ++ new ∧ Forall in_cents new
           ∧ cents_sum new = coef (rescale rem (-2)).
Proof.
  induction bs as [|b rest IH];
    intros prev rem total lines T L Hw Hub Hr0 Hfit Hmax Hloop.
  - destruct Hub as [Hub|Hz]; [discriminate|].
    simpl in Hloop. injection Hloop as <- <-. exists [].
    rewrite app_nil_r, rescale_zero by exact Hz. repeat split. constructor.
  - destruct (dec_le rem (of_int 0)) eqn:Hrem.
    { rewrite bracket_loop_stop in Hloop by exact Hrem. injection Hloop as <- <-.
      exists []. rewrite app_nil_r. split; [reflexivity|]. split; [constructor|].
      apply dec_le_val in Hrem. rewrite val_of_int in Hrem.
      assert (Hz : coef rem = 0%Z).
      { apply val_nonneg in Hr0. assert (Hv : val rem = 0) by lra.
        unfold val in Hv. pose proof (bpow_pos (expo rem)).
        assert (Hc : IZR (coef rem) = 0) by nra. apply eq_IZR in Hc. exact Hc. }
      rewrite rescale_zero by exact Hz. reflexivity. }
    destruct (bracket_loop_step _ _ _ _ _ _ _ Hrem Hloop) as (line & Hamount & Hnext).
    apply dec_le_false_val in Hrem. rewrite val_of_int in Hrem.
    simpl in Hw. apply andb_prop in Hw as [Hwb Hwrest].
    assert (Hsame : portion b prev rem = rem →
      ∃ new, L = lines ++ new ∧ Forall in_cents new
             ∧ cents_sum new = coef (rescale rem (-2))).
    { intros Hp. rewrite Hp in Hamount, Hnext.
      pose proof (dec_sub_self rem) as Hz.
      rewrite bracket_loop_done in Hnext by exact Hz. injection Hnext as <- <-.
      exists [line]. split; [reflexivity|]. split.
      - constructor; [|constructor]. exact (q2_expo _ _ Hamount).
      - simpl. apply quantize_Some in Hamount as [<- _]. lia. }
    unfold portion in Hsame, Hamount, Hnext.
    destruct (TaxBracket.upper_limit b) as [limit|] eqn:Hlim; [|apply Hsame; reflexivity].
    apply andb_prop in Hwb as [Hpos Hexp]. apply Z.leb_le in Hexp.
    set (size := dec_sub limit prev) in *.
    unfold py_min in Hsame, Hamount, Hnext.
    destruct (dec_lt size rem) eqn:Hlt; [|apply Hsame; reflexivity].
    clear Hsame. apply dec_lt_val in Hlt. apply dec_lt_val in Hpos.
    rewrite val_of_int in Hpos.
    (* the bracket is filled: the subtraction is exact *)
    assert (Hex : dec_sub rem size = add_exact rem (dec_neg size)).
    { apply dec_sub_exact. rewrite Rabs_pos_eq by lra.
      destruct (Z_le_gt_dec (expo rem) (expo size)) as [Hle|Hgt].
      - rewrite Z.min_l by exact Hle.
        apply ndigits_le_iff in Hfit; [|unfold prec; lia].
        rewrite Z.abs_eq in Hfit by exact Hr0. apply IZR_lt in Hfit.
        rewrite bpow_add, bpow_IZR by (unfold prec; lia).
        pose proof (bpow_pos (expo rem)). unfold val at 1.
        apply Rlt_trans with (IZR (coef rem) * bpow (expo rem)); [fold (val rem); lra|].
        apply Rmult_lt_compat_r; assumption.
      - rewrite Z.min_r by lia.
        pose proof (bpow_lt 25 (prec + expo size) ltac:(unfold prec; lia)). lra. }
    assert (Hv' : val (dec_sub rem size) = val rem - val size).
    { rewrite Hex, val_add_exact, val_neg. lra. }
    assert (Hr0' : (0 ≤ coef (dec_sub rem size))%Z) by (apply val_nonneg; lra).
    assert (Hfit' : (ndigits (coef (dec_sub rem size)) ≤ prec)%Z).
    { unfold dec_sub. rewrite dec_add_unfold. apply fix_ctx_digits.
      fold (dec_sub rem size) in *. rewrite <- Hex. exact Hr0'. }
    assert (Hub' : has_unbounded rest = true ∨ coef (dec_sub rem size) = 0%Z).
    { destruct Hub as [Hub|Hz].
      - left. simpl in Hub. rewrite Hlim in Hub. exact Hub.
      - exfalso. apply val_pos in Hrem. lia. }
    destruct (IH _ _ _ _ _ _ Hwrest Hub' Hr0' Hfit' ltac:(lra) Hnext)
      as (new & HL & Hcents & Hsum).
    exists (line :: new). split; [rewrite HL, <- app_assoc; reflexivity|].
    split; [constructor; [exact (q2_expo _ _ Hamount) | exact Hcents]|].
    simpl. rewrite Hsum. apply quantize_Some in Hamount as [-> _].
    assert (Hs0 : (0 ≤ coef size)%Z) by (apply val_nonneg; lra).
    pose proof (rescale_rnd _ (-2) Hr0') as Hr'. rewrite Hv' in Hr'.
    apply (rnd_shift _ _ _ (coef (rescale size (-2)))) in Hr'.
    replace (val rem - val size + IZR (coef (rescale size (-2))) * bpow (-2))
      with (val rem) in Hr'.
    + rewrite Z.add_comm. exact (rnd_unique _ _ _ _ Hr' (rescale_rnd _ (-2) Hr0)).
    + pose proof (rescale_exact size (-2) Hexp) as Hse.
      unfold val at 1 in Hse. rewrite rescale_expo in Hse. lra.
Qed.

Lemma INCOME_TAX_BRACKETS_in_cents :
  widths_in_cents (of_int 0) INCOME_TAX_BRACKETS = true
  ∧ has_unbounded INCOME_TAX_BRACKETS = true.
Proof. split; vm_compute; reflexivity. Qed.

(** C2, as stated, fails: for a taxable income of 0.001 the only line
    has the amount 0.00. *)
Lemma bracket_additivity_fails :
  ∃ r, dec_lt (of_int 0) (mkDec 1 (-3)) = true
    ∧ calculate_income_tax (mkDec 1 (-3)) = Some r
    ∧ BracketBreakdown.taxable_amount <$> IncomeTaxBreakdown.bracket_breakdown r
      = [mkDec 0 (-2)]
    ∧ dec_eq (taxable_sum (IncomeTaxBreakdown.bracket_breakdown r)) (mkDec 1 (-3)) = false.
Proof.
  eexists. split; [reflexivity|]. split; [vm_compute; reflexivity|].
  split; vm_compute; reflexivity.
Qed.

(** C2, amended. For a taxable income above 0 with at most 28
    significant digits and at most 10^25, the amounts of the bracket
    lines sum to the taxable income rounded half up to cents, hence to
    the taxable income itself when it has at most two decimal places. *)
Theorem bracket_additivity (t : Decimal) (r : IncomeTaxBreakdown.t) :
  dec_lt (of_int 0) t = true →
  (ndigits (coef t) ≤ prec)%Z → dec_le t (mkDec 1 25) = true →
  calculate_income_tax t = Some r →
  let lines := IncomeTaxBreakdown.bracket_breakdown r in
  (∃ q, q2 t = Some q ∧ dec_eq (taxable_sum lines) q = true)
  ∧ ((-2 ≤ expo t)%Z → dec_eq (taxable_sum lines) t = true).
Proof.
  intros Hpos Hfit Hmax H lines.
  apply dec_lt_val in Hpos. rewrite val_of_int in Hpos.
  apply dec_le_val in Hmax.
  assert (Hmax' : val t <= bpow 25).
  { unfold val at 2 in Hmax. cbn [coef expo] in Hmax. lra. }
  assert (Ht0 : (0 ≤ coef t)%Z) by (apply val_nonneg; lra).
  assert (Hle : dec_le t (of_int 0) = false).
  { apply dec_le_false_val. rewrite val_of_int. exact Hpos. }
  destruct (calculate_income_tax_pos t r Hle H) as (T & Hloop & _).
  destruct INCOME_TAX_BRACKETS_in_cents as [Hw Hub].
  destruct (bracket_loop_sum _ _ _ _ _ _ _ Hw (or_introl Hub) Ht0 Hfit Hmax' Hloop)
    as (new & HL & Hcents & Hsum).
  simpl in HL. fold lines in HL. subst new.
  pose proof (quantize_ok t (-2) Ht0 Hmax') as Hq. fold (q2 t) in Hq.
  assert (Hval : val (taxable_sum lines) = val (rescale t (-2))).
  { rewrite taxable_sum_cents by exact Hcents. rewrite Hsum.
    rewrite val_cents by apply rescale_expo. reflexivity. }
  split.
  - exists (rescale t (-2)). split; [exact Hq|]. apply dec_eq_val. exact Hval.
  - intros He. apply dec_eq_val. rewrite Hval. apply rescale_exact. exact He.
Qed.

Lemma bracket_additivity_witness :
  ∃ r, calculate_income_tax (mkDec 25000005 (-3)) = Some r
    ∧ BracketBreakdown.taxable_amount <$> IncomeTaxBreakdown.bracket_breakdown r
      = [mkDec 1000000 (-2); mkDec 1000000 (-2); mkDec 500001 (-2)]
    ∧ (∃ q, q2 (mkDec 25000005 (-3)) = Some q
            ∧ dec_eq (taxable_sum (IncomeTaxBreakdown.bracket_breakdown r)) q = true)
    ∧ ((-2 ≤ expo (mkDec 25000005 (-3)))%Z →
       dec_eq (taxable_sum (IncomeTaxBreakdown.bracket_breakdown r))
         (mkDec 25000005 (-3)) = true).
Proof.
  eexists. split; [vm_compute; reflexivity|]. split; [vm_compute; reflexivity|].
  apply (bracket_additivity (mkDec 25000005 (-3))); vm_compute; first [reflexivity | discriminate].
Defined.

(** ** Division *)

Lemma strip_zeros_spec (fuel : nat) : ∀ c e ideal c' e',
  strip_zeros fuel c e ideal = (c', e') →
  (e ≤ e' ∧ c = c' * 10 ^ (e' - e))%Z.
Proof.
  induction fuel as [|f IH]; intros c e ideal c' e' H; simpl in H.
  - injection H as <- <-. rewrite Z.sub_diag. lia.
  - destruct ((e <? ideal)%Z && (c mod 10 =? 0)%Z) eqn:E.
    + apply andb_prop in E as [_ Hm]. apply Z.eqb_eq in Hm.
      apply IH in H as [Hle Hc]. split; [lia|].
      replace (e' - e)%Z with ((e' - (e + 1)) + 1)%Z by lia.
      rewrite Z.pow_add_r by lia.
      pose proof (Z.div_mod c 10 ltac:(lia)). lia.
    + injection H as <- <-. rewrite Z.sub_diag. lia.
Qed.

Lemma strip_zeros_pow (j : nat) : ∀ c e,
  strip_zeros j (c * 10 ^ Z.of_nat j) e (e + Z.of_nat j) = (c, (e + Z.of_nat j)%Z).
Proof.
  induction j as [|j IH]; intros c e.
  - simpl. rewrite Z.mul_1_r, Z.add_0_r. reflexivity.
  - cbn [strip_zeros]. rewrite Nat2Z.inj_succ, Z.pow_succ_r by lia.
    replace (c * (10 * 10 ^ Z.of_nat j))%Z with (c * 10 ^ Z.of_nat j * 10)%Z by lia.
    rewrite Z.mod_mul, Z.div_mul by lia.
    destruct (Z.ltb_spec e (e + Z.succ (Z.of_nat j))); [|lia].
    cbn [andb Z.eqb].
    replace (e + Z.succ (Z.of_nat j))%Z with (e + 1 + Z.of_nat j)%Z by lia.
    apply IH.
Qed.

(** Dividing a decimal that fits the precision by 1 returns it. *)
Lemma dec_div_one (a : Decimal) :
  (0 < coef a)%Z → (ndigits (coef a) ≤ prec)%Z →
  dec_div a (of_int 1) = Some a.
Proof.
  intros Hpos Hfit. unfold dec_div. cbn [of_int coef expo].
  destruct (Z.eqb_spec (coef a) 0); [lia|].
  change (1 =? 0)%Z with false. cbn iota.
  rewrite (Z.sgn_pos (coef a)), (Z.abs_eq (coef a)) by lia.
  change (Z.sgn 1) with 1%Z. change (Z.abs 1) with 1%Z. change (ndigits 1) with 1%Z.
  set (shift := (1 - ndigits (coef a) + prec + 1)%Z).
  assert (Hs : (0 ≤ shift)%Z) by (unfold shift; lia).
  destruct (Z.leb_spec 0 shift); [|lia].
  rewrite Z.mod_1_r, Z.div_1_r. cbn [Z.eqb].
  replace (expo a - 0 - (expo a - 0 - shift))%Z with shift by lia.
  pose proof (strip_zeros_pow (Z.to_nat shift) (coef a) (expo a - 0 - shift)) as Hst.
  rewrite Z2Nat.id in Hst by lia.
  replace (expo a - 0 - shift + shift)%Z with (expo a - 0)%Z in Hst by lia.
  rewrite Hst.
  assert (Ha : mkDec (1 * 1 * coef a) (expo a - 0) = a).
  { destruct a as [c e]. cbn [coef expo]. f_equal; lia. }
  rewrite Ha, fix_ctx_fits by exact Hfit. reflexivity.
Qed.

(** The quotient of a non-negative decimal of at most [10^22 * b] by a
    positive decimal [b] is within [10^-5] of the exact quotient. *)
Lemma dec_div_error (a b : Decimal) :
  (0 ≤ coef a)%Z → (0 < coef b)%Z → val a / val b <= bpow 22 →
  ∃ D, dec_div a b = Some D ∧ (0 ≤ coef D)%Z
       ∧ Rabs (val D - val a / val b) <= bpow (-5).
Proof.
  intros Ha Hb Hx. unfold dec_div.
  destruct (Z.eqb_spec (coef b) 0); [lia|].
  assert (Hvb : 0 < val b) by (apply val_pos; exact Hb).
  destruct (Z.eqb_spec (coef a) 0) as [Ha0|Hane].
  { eexists. split; [reflexivity|]. rewrite fix_ctx_zero by reflexivity.
    split; [simpl; lia|].
    assert (H1 : val (mkDec 0 (expo a - expo b)) = 0) by (unfold val; simpl; ring).
    assert (H2 : val a = 0) by (unfold val; rewrite Ha0; ring).
    rewrite H1, H2. unfold Rdiv. rewrite Rmult_0_l, Rminus_diag, Rabs_R0.
    left. apply bpow_pos. }
  assert (Hapos : (0 < coef a)%Z) by lia.
  assert (Hva : 0 < val a) by (apply val_pos; exact Hapos).
  rewrite !Z.sgn_pos, !Z.abs_eq by lia. cbn [Z.mul].
  set (la := ndigits (coef a)). set (lb := ndigits (coef b)).
  set (shift := (lb - la + prec + 1)%Z).
  set (e := (expo a - expo b - shift)%Z).
  pose proof (ndigits_upper (coef a)) as Hua. pose proof (ndigits_lower (coef a) ltac:(lia)) as Hlow_a.
  pose proof (ndigits_upper (coef b)) as Hub. pose proof (ndigits_lower (coef b) ltac:(lia)) as Hlow_b.
  pose proof (ndigits_pos (coef a)) as Hpa. pose proof (ndigits_pos (coef b)) as Hpb.
  rewrite Z.abs_eq in Hua, Hlow_a, Hub, Hlow_b by lia.
  fold la in Hua, Hlow_a, Hpa. fold lb in Hub, Hlow_b, Hpb.
  (* the integer quotient, in both cases of the shift *)
  assert (Hq : ∃ NUM DEN : Z,
    (0 < DEN ∧ 10 ^ prec * DEN ≤ NUM)%Z
    ∧ val a / val b = IZR NUM / IZR DEN * bpow e
    ∧ (if (0 <=? shift)%Z
       then ((coef a * 10 ^ shift / coef b)%Z, ((coef a * 10 ^ shift) mod coef b)%Z)
       else ((coef a / (coef b * 10 ^ (- shift)))%Z,
             (coef a mod (coef b * 10 ^ (- shift)))%Z))
      = ((NUM / DEN)%Z, (NUM mod DEN)%Z)).
  { destruct (Z.leb_spec 0 shift) as [Hs|Hs].
    - exists (coef a * 10 ^ shift)%Z, (coef b). split; [split; [lia|]|split; [|reflexivity]].
      + assert (H1 : (10 ^ (la - 1) * 10 ^ shift ≤ coef a * 10 ^ shift)%Z).
        { apply Z.mul_le_mono_nonneg_r; [apply Z.pow_nonneg; lia | lia]. }
        rewrite <- Z.pow_add_r in H1 by lia.
        replace (la - 1 + shift)%Z with (prec + lb)%Z in H1 by (unfold shift; lia).
        rewrite Z.pow_add_r in H1 by (unfold prec; lia).
        assert (0 < 10 ^ prec)%Z by (apply Z.pow_pos_nonneg; unfold prec; lia). nia.
      + unfold val. rewrite mult_IZR, <- bpow_IZR by lia.
        replace (expo a) with (e + shift + expo b)%Z at 1 by (unfold e; lia).
        rewrite !bpow_add. field.
        repeat split; apply Rgt_not_eq; first [apply bpow_pos | apply IZR_lt; lia].
    - exists (coef a), (coef b * 10 ^ (- shift))%Z.
      assert (Hp : (0 < 10 ^ (- shift))%Z) by (apply Z.pow_pos_nonneg; lia).
      split; [split; [nia|]|split; [|reflexivity]].
      + assert (H1 : (coef b * 10 ^ (- shift) < 10 ^ lb * 10 ^ (- shift))%Z).
        { apply Z.mul_lt_mono_pos_r; lia. }
        rewrite <- Z.pow_add_r in H1 by lia.
        assert (H2 : (10 ^ prec * 10 ^ (lb + - shift) = 10 ^ (la - 1))%Z).
        { rewrite <- Z.pow_add_r by (unfold prec; lia). f_equal. unfold shift. lia. }
        assert (0 < 10 ^ prec)%Z by (apply Z.pow_pos_nonneg; unfold prec; lia). nia.
      + unfold val. rewrite mult_IZR, <- bpow_IZR by lia.
        replace (expo a) with (e + expo b + - (- shift))%Z at 1 by (unfold e; lia).
        rewrite !bpow_add.
        assert (Hinv : bpow (- - shift) = / bpow (- shift))
          by (unfold bpow; apply powerRZ_neg').
        rewrite Hinv.
        field.
        repeat split; apply Rgt_not_eq; first [apply bpow_pos | apply IZR_lt; lia]. }
  destruct Hq as (NUM & DEN & [HDEN HNUM] & Hval & ->).
  set (q := (NUM / DEN)%Z). set (r := (NUM mod DEN)%Z).
  pose proof (Z.div_mod NUM DEN ltac:(lia)) as Hdm.
  pose proof (Z.mod_pos_bound NUM DEN HDEN) as Hmod. fold q r in Hdm, Hmod.
  assert (Hq28 : (10 ^ prec ≤ q)%Z) by (apply Z.div_le_lower_bound; lia).
  assert (Hp28 : (0 < 10 ^ prec)%Z) by (apply Z.pow_pos_nonneg; unfold prec; lia).
  set (x := val a / val b) in *.
  pose proof (bpow_pos e) as Hbe.
  assert (HDENr : 0 < IZR DEN) by (apply IZR_lt; exact HDEN).
  (* the exact quotient lies between q and q + 1 units of 10^e *)
  assert (Hxq : IZR q * bpow e <= x < (IZR q + 1) * bpow e
                ∧ (r = 0%Z → x = IZR q * bpow e)).
  { assert (HN : IZR NUM = IZR DEN * IZR q + IZR r).
    { rewrite <- mult_IZR, <- plus_IZR. f_equal. exact Hdm. }
    assert (Hr1 : 0 <= IZR r) by (apply IZR_le; lia).
    assert (Hr2 : IZR r < IZR DEN) by (apply IZR_lt; lia).
    assert (Hxe : x = (IZR q + IZR r / IZR DEN) * bpow e).
    { rewrite Hval, HN. field. lra. }
    assert (Hf1 : 0 <= IZR r / IZR DEN).
    { apply Rmult_le_pos; [lra|]. left. apply Rinv_0_lt_compat. lra. }
    assert (Hf2 : IZR r / IZR DEN < 1).
    { apply (Rmult_lt_reg_r (IZR DEN)); [lra|]. unfold Rdiv.
      rewrite Rmult_assoc, Rinv_l by lra. lra. }
    split; [split; rewrite Hxe; nra|].
    intros Hr0. rewrite Hxe, Hr0. unfold Rdiv. rewrite Rmult_0_l. ring. }
  destruct Hxq as [[Hx1 Hx2] Hx0].
  (* 10^e is small *)
  assert (He : (e ≤ -6)%Z).
  { assert (H : bpow (prec + e) < bpow 23).
    { rewrite bpow_add, bpow_IZR by (unfold prec; lia).
      apply IZR_le in Hq28. pose proof (bpow_lt 22 23 ltac:(lia)). nra. }
    apply bpow_lt_inv in H. unfold prec in H. lia. }
  (* the coefficient handed to the rounding of the context *)
  assert (Hd1 : ∃ q' e',
    (if (r =? 0)%Z
     then strip_zeros (Z.to_nat (expo a - expo b - e)) q e (expo a - expo b)
     else (if (q mod 5 =? 0)%Z then (q + 1)%Z else q, e)) = (q', e')
    ∧ (0 < q')%Z ∧ Rabs (IZR q' * bpow e' - x) <= bpow e).
  { destruct (Z.eqb_spec r 0) as [Hr0|Hrne].
    - destruct (strip_zeros (Z.to_nat (expo a - expo b - e)) q e (expo a - expo b))
        as [q' e'] eqn:Hs.
      exists q', e'. split; [reflexivity|].
      apply strip_zeros_spec in Hs as [Hle Hc].
      assert (Hp : (0 < 10 ^ (e' - e))%Z) by (apply Z.pow_pos_nonneg; lia).
      split; [nia|].
      rewrite (Hx0 Hr0), Hc, <- (val_pad q' e' e Hle).
      replace (IZR (q' * 10 ^ (e' - e)) * bpow e - IZR (q' * 10 ^ (e' - e)) * bpow e)
        with 0 by ring.
      rewrite Rabs_R0. lra.
    - eexists _, e. split; [reflexivity|].
      destruct (q mod 5 =? 0)%Z.
      + split; [lia|]. rewrite plus_IZR. apply Rabs_le. split; nra.
      + split; [lia|]. apply Rabs_le. split; nra. }
  destruct Hd1 as (q' & e' & -> & Hq' & Herr1).
  rewrite Z.mul_1_l.
  set (d1 := mkDec q' e'). exists (fix_ctx d1). split; [reflexivity|].
  split; [apply fix_ctx_nonneg; simpl; lia|].
  assert (Hd1 : (0 < coef d1)%Z) by exact Hq'.
  change (IZR q' * bpow e') with (val d1) in Herr1.
  apply Rabs_bound in Herr1.
  pose proof (bpow_le e (-6) He) as He6.
  pose proof (fix_ctx_error d1 Hd1) as Herr2.
  destruct (mag_bounds d1 Hd1) as [Hm1 _].
  assert (Hmag : (mag d1 ≤ 23)%Z).
  { assert (H : bpow (mag d1 - 1) < bpow 23).
    { pose proof (bpow_lt (-6) 22 ltac:(lia)). pose proof (bpow_lt 22 23 ltac:(lia)).
      change (bpow 23) with (10 * bpow 22) in *. pose proof (bpow_pos 22). lra. }
    apply bpow_lt_inv in H. lia. }
  pose proof (bpow_le (mag d1 - prec) (-5) ltac:(unfold prec; lia)) as Hq5.
  apply Rabs_bound in Herr2.
  assert (H56 : bpow (-5) = 10 * bpow (-6)).
  { change (-5)%Z with (1 + -6)%Z. rewrite bpow_add. change (bpow 1) with (10 * 1). ring. }
  rewrite H56 in *. pose proof (bpow_pos (-6)).
  apply Rabs_le. split; lra.
Qed.

(** ** The payment schedule *)

Lemma valid_frequency_cases (f : string) :
  f ∈ VALID_FREQUENCIES →
  (f = "monthly"%string ∧ payments_per_year !! f = Some 12%Z)
  ∨ (f = "quarterly"%string ∧ payments_per_year !! f = Some 4%Z)
  ∨ (f = "annual"%string ∧ payments_per_year !! f = Some 1%Z).
Proof.
  unfold VALID_FREQUENCIES. rewrite !elem_of_cons, elem_of_nil.
  intros [->|[->|[->|[]]]]; [left | right; left | right; right];
    (split; [reflexivity | vm_compute; reflexivity]).
Qed.

Lemma calculate_payment_schedule_invalid (a : Decimal) (f : string) :
  lower f ∉ VALID_FREQUENCIES →
  calculate_payment_schedule a f = inl (frequency_error f).
Proof.
  intros H. unfold calculate_payment_schedule.
  rewrite bool_decide_eq_false_2 by exact H. reflexivity.
Qed.

Lemma calculate_payment_schedule_valid (a : Decimal) (f : string) :
  lower f ∈ VALID_FREQUENCIES →
  ∃ n, payments_per_year !! lower f = Some n ∧ (n = 12 ∨ n = 4 ∨ n = 1)%Z
    ∧ calculate_payment_schedule a f
      = match
          payment_amount ← dec_div (clamped a) (of_int n);
          amount ← q2 payment_amount;
          total ← q2 (clamped a);
          Some (PaymentSchedule.mk total (lower f) n amount
                  ((λ i, PaymentInstallment.mk i amount) <$> seqZ 1 n))
        with
        | None => inl InvalidOperation
        | Some s => inr s
        end.
Proof.
  intros H. unfold calculate_payment_schedule. fold (clamped a).
  rewrite bool_decide_eq_true_2 by exact H. cbn [negb].
  destruct (valid_frequency_cases _ H) as [[_ Hn]|[[_ Hn]|[_ Hn]]];
    rewrite Hn; eexists; (split; [reflexivity|]); (split; [lia|]); reflexivity.
Qed.

Lemma calculate_payment_schedule_inr (a : Decimal) (f : string) (s : PaymentSchedule.t) :
  calculate_payment_schedule a f = inr s →
  lower f ∈ VALID_FREQUENCIES
  ∧ ∃ n D, (n = 12 ∨ n = 4 ∨ n = 1)%Z
    ∧ dec_div (clamped a) (of_int n) = Some D
    ∧ q2 D = Some (PaymentSchedule.installment_amount s)
    ∧ q2 (clamped a) = Some (PaymentSchedule.annual_total s)
    ∧ PaymentSchedule.frequency s = lower f
    ∧ PaymentSchedule.number_of_installments s = n
    ∧ PaymentSchedule.schedule s
      = (λ i, PaymentInstallment.mk i (PaymentSchedule.installment_amount s)) <$> seqZ 1 n.
Proof.
  intros H. destruct (decide (lower f ∈ VALID_FREQUENCIES)) as [Hin|Hout].
  - split; [exact Hin|].
    destruct (calculate_payment_schedule_valid a f Hin) as (n & _ & Hn & Heq).
    rewrite Heq in H. clear Heq.
    destruct (dec_div (clamped a) (of_int n)) as [D|] eqn:HD; [|discriminate].
    cbn [mbind option_bind] in H.
    destruct (q2 D) as [amount|] eqn:Hq; [|discriminate].
    cbn [mbind option_bind] in H.
    destruct (q2 (clamped a)) as [total|] eqn:Ht; [|discriminate].
    cbn [mbind option_bind] in H. injection H as <-.
    exists n, D. cbn. repeat split; try assumption; reflexivity.
  - rewrite calculate_payment_schedule_invalid in H by exact Hout. discriminate.
Qed.

(** C10. The frequency stored in a returned schedule is the lowercased
    frequency argument, hence one of the three valid names. *)
Theorem stored_frequency_is_lowercase (a : Decimal) (f : string) (s : PaymentSchedule.t) :
  calculate_payment_schedule a f = inr s →
  PaymentSchedule.frequency s = lower f
  ∧ (PaymentSchedule.frequency s = "monthly"%string
     ∨ PaymentSchedule.frequency s = "quarterly"%string
     ∨ PaymentSchedule.frequency s = "annual"%string).
Proof.
  intros H. apply calculate_payment_schedule_inr in H
    as (Hin & n & D & _ & _ & _ & _ & Hf & _).
  split; [exact Hf|]. rewrite Hf.
  destruct (valid_frequency_cases _ Hin) as [[-> _]|[[-> _]|[-> _]]]; auto.
Qed.

Lemma stored_frequency_is_lowercase_witness :
  ∃ s1 s2,
    calculate_payment_schedule (of_int 12000) "MONTHLY" = inr s1
    ∧ calculate_payment_schedule (of_int 12000) "Quarterly" = inr s2
    ∧ PaymentSchedule.frequency s1 = "monthly"%string
    ∧ PaymentSchedule.frequency s2 = "quarterly"%string
    ∧ PaymentSchedule.frequency s1 = lower "MONTHLY".
Proof.
  eexists _, _. split; [vm_compute; reflexivity|]. split; [vm_compute; reflexivity|].
  split; [reflexivity|]. split; [reflexivity|].
  apply (stored_frequency_is_lowercase (of_int 12000) "MONTHLY"). vm_compute. reflexivity.
Defined.

(** C7, as stated, fails: with the valid frequency 'monthly' an annual
    total of 10^28 raises [InvalidOperation], because the installment
    does not fit 28 digits at two decimal places. *)
Lemma valid_frequency_may_raise :
  lower "monthly" ∈ VALID_FREQUENCIES
  ∧ calculate_payment_schedule (mkDec 1 28) "monthly" = inl InvalidOperation.
Proof.
  split; [compute_done | vm_compute; reflexivity].
Qed.

Lemma clamped_cases (a : Decimal) :
  (dec_lt a (of_int 0) = true ∧ clamped a = mkDec 0 (-2))
  ∨ (dec_lt a (of_int 0) = false ∧ clamped a = a ∧ (0 ≤ coef a)%Z).
Proof.
  unfold clamped. destruct (dec_lt a (of_int 0)) eqn:E; [left; auto|].
  right. repeat split. apply dec_lt_false_val in E. rewrite val_of_int in E.
  apply val_nonneg. exact E.
Qed.

(** A schedule is returned for every total of at most 10^22. *)
Lemma calculate_payment_schedule_returns (a : Decimal) (f : string) :
  lower f ∈ VALID_FREQUENCIES → dec_le a (mkDec 1 22) = true →
  ∃ s, calculate_payment_schedule a f = inr s.
Proof.
  intros Hin Hmax.
  destruct (calculate_payment_schedule_valid a f Hin) as (n & _ & Hn & ->).
  assert (Hc : (0 ≤ coef (clamped a))%Z ∧ val (clamped a) <= bpow 22).
  { apply dec_le_val in Hmax. unfold val at 2 in Hmax. cbn [coef expo] in Hmax.
    destruct (clamped_cases a) as [[_ ->]|[_ [-> H0]]].
    - split; [simpl; lia|]. unfold val. cbn [coef]. pose proof (bpow_pos 22). lra.
    - split; [exact H0 | lra]. }
  destruct Hc as [Hc0 Hcmax].
  assert (Hn1 : 1 <= IZR n) by (apply IZR_le; lia).
  assert (Hx : val (clamped a) / val (of_int n) <= bpow 22).
  { rewrite val_of_int. apply val_nonneg in Hc0.
    apply Rle_trans with (val (clamped a)); [|exact Hcmax].
    apply (Rmult_le_reg_r (IZR n)); [lra|]. unfold Rdiv.
    rewrite Rmult_assoc, Rinv_l by lra. nra. }
  destruct (dec_div_error (clamped a) (of_int n) Hc0 ltac:(simpl; lia) Hx)
    as (D & -> & HD0 & HDerr).
  cbn [mbind option_bind].
  assert (H2225 : bpow 22 + bpow (-5) <= bpow 25 ∧ bpow 22 <= bpow 25).
  { pose proof (bpow_le (-5) 22 ltac:(lia)). pose proof (bpow_pos 22).
    change (bpow 25) with (10 * (10 * (10 * bpow 22))). lra. }
  apply Rabs_bound in HDerr.
  unfold q2. rewrite (quantize_ok D (-2) HD0)
    by (change (prec + -2 - 1)%Z with 25%Z; lra).
  cbn [mbind option_bind].
  rewrite (quantize_ok (clamped a) (-2) Hc0)
    by (change (prec + -2 - 1)%Z with 25%Z; lra).
  cbn [mbind option_bind]. eexists. reflexivity.
Qed.

(** C7, amended. [calculate_payment_schedule] raises [ValueError]
    exactly when the lowercased frequency is not one of 'monthly',
    'quarterly', 'annual', and the message names the three; a total of
    at most 10^22, negative ones included, is never an error, and a
    negative total gives the complete schedule of 0.00. *)
Theorem frequency_validation (a : Decimal) (f : string) :
  (lower f ∉ VALID_FREQUENCIES →
   calculate_payment_schedule a f = inl (frequency_error f))
  ∧ (lower f ∈ VALID_FREQUENCIES →
     (∀ msg, calculate_payment_schedule a f ≠ inl (ValueError msg))
     ∧ (dec_le a (mkDec 1 22) = true →
        ∃ s, calculate_payment_schedule a f = inr s
          ∧ length (PaymentSchedule.schedule s)
            = Z.to_nat (PaymentSchedule.number_of_installments s)
          ∧ (dec_lt a (of_int 0) = true →
             PaymentSchedule.annual_total s = mkDec 0 (-2)
             ∧ PaymentSchedule.installment_amount s = mkDec 0 (-2)))).
Proof.
  split; [apply calculate_payment_schedule_invalid|].
  intros Hin. split.
  - intros msg. destruct (calculate_payment_schedule_valid a f Hin) as (n & _ & _ & ->).
    destruct (_ ≫= _); discriminate.
  - intros Hmax. destruct (calculate_payment_schedule_returns a f Hin Hmax) as [s Hs].
    exists s. split; [exact Hs|].
    apply calculate_payment_schedule_inr in Hs
      as (_ & n & D & Hn & HD & Hq & Ht & _ & Hnum & Hsched).
    split.
    + rewrite Hsched, Hnum, length_fmap, length_seqZ. reflexivity.
    + intros Hneg. destruct (clamped_cases a) as [[_ Hc]|[Hc _]]; [|congruence].
      rewrite Hc in HD, Ht.
      assert (HDz : D = mkDec 0 (-2)).
      { destruct Hn as [->|[->| ->]]; vm_compute in HD; injection HD as <-; reflexivity. }
      subst D.
      assert (Hz : q2 (mkDec 0 (-2)) = Some (mkDec 0 (-2))) by reflexivity.
      rewrite Hz in Hq, Ht. injection Hq as <-. injection Ht as <-.
      split; reflexivity.
Qed.

Lemma frequency_validation_witness :
  calculate_payment_schedule (of_int 12000) "weekly"
  = inl (ValueError "Invalid frequency 'weekly'. Must be one of: monthly, quarterly, annual")
  ∧ ∃ s, calculate_payment_schedule (of_int (-5)) "QUARTERLY" = inr s
      ∧ length (PaymentSchedule.schedule s) = 4%nat
      ∧ PaymentSchedule.annual_total s = mkDec 0 (-2)
      ∧ PaymentSchedule.installment_amount s = mkDec 0 (-2).
Proof.
  split.
  - apply (proj1 (frequency_validation (of_int 12000) "weekly")).
    compute_done.
  - destruct (proj2 (frequency_validation (of_int (-5)) "QUARTERLY")) as [_ H].
    { compute_done. }
    destruct (H eq_refl) as (s & Hs & Hlen & Hz).
    exists s. split; [exact Hs|].
    assert (Hn : PaymentSchedule.number_of_installments s = 4%Z).
    { vm_compute in Hs. injection Hs as <-. reflexivity. }
    rewrite Hn in Hlen. split; [exact Hlen|]. exact (Hz eq_refl).
Defined.

(** C6, as stated, fails: for the annual total
    12000000000000000000000000.054 and twelve installments, the quotient
    ...000.0045 is first rounded to 28 digits (...000.005) and then to
    cents (...000.01), so that twelve installments exceed the annual
    total of the schedule (...000.05) by 0.07, more than 12 * 0.005. *)
Lemma schedule_partition_fails :
  ∃ s, dec_le (of_int 0) (mkDec 12000000000000000000000000054 (-3)) = true
    ∧ calculate_payment_schedule (mkDec 12000000000000000000000000054 (-3)) "monthly"
      = inr s
    ∧ PaymentSchedule.number_of_installments s = 12%Z
    ∧ PaymentSchedule.installment_amount s = mkDec 100000000000000000000000001 (-2)
    ∧ PaymentSchedule.annual_total s = mkDec 1200000000000000000000000005 (-2)
    ∧ partition_bound s = false.
Proof.
  eexists. split; [reflexivity|]. split; [vm_compute; reflexivity|].
  repeat split; reflexivity.
Qed.

(** The same happens with a single installment when the total has more
    than 28 digits: 1.004999999999999999999999999999 gives the
    installment 1.01 for the annual total 1.00. *)
Example schedule_partition_fails_annual :
  ∃ s, calculate_payment_schedule (mkDec 1004999999999999999999999999999 (-30)) "annual"
       = inr s
    ∧ PaymentSchedule.installment_amount s = mkDec 101 (-2)
    ∧ PaymentSchedule.annual_total s = mkDec 100 (-2)
    ∧ partition_bound s = false.
Proof.
  eexists. split; [vm_compute; reflexivity|]. repeat split; reflexivity.
Qed.

Lemma rnd_cents (x : R) (N : Z) :
  rnd x (-2) N → IZR N - 1 / 2 <= 100 * x < IZR N + 1 / 2.
Proof.
  unfold rnd. change (bpow (-2)) with (/ (10 * (10 * 1))). intros [H1 H2]. split; lra.
Qed.

(** C6, amended. For an annual total from 0 to 10^22 with at most 28
    significant digits, and every valid frequency, the installment is
    the quotient rounded half up to cents, every entry of the schedule
    carries it, and [n] installments are within [n * 0.005] of the
    annual total of the schedule. *)
Theorem schedule_partition (a : Decimal) (f : string) (s : PaymentSchedule.t) :
  dec_le (of_int 0) a = true → (ndigits (coef a) ≤ prec)%Z →
  dec_le a (mkDec 1 22) = true →
  calculate_payment_schedule a f = inr s →
  let n := PaymentSchedule.number_of_installments s in
  (x ← dec_div a (of_int n); q2 x) = Some (PaymentSchedule.installment_amount s)
  ∧ PaymentInstallment.payment_amount <$> PaymentSchedule.schedule s
    = replicate (Z.to_nat n) (PaymentSchedule.installment_amount s)
  ∧ partition_bound s = true.
Proof.
  intros H0 Hfit Hmax H n.
  apply calculate_payment_schedule_inr in H
    as (_ & n' & D & Hn & HD & Hq & Ht & _ & Hnum & Hsched).
  subst n. unfold partition_bound. rewrite !Hnum. clear Hnum.
  apply dec_le_val in H0. rewrite val_of_int in H0.
  destruct (clamped_cases a) as [[Hneg _]|[_ [Hc Ha0]]].
  { apply dec_lt_val in Hneg. rewrite val_of_int in Hneg. lra. }
  rewrite Hc in HD, Ht. clear Hc.
  split; [rewrite HD; exact Hq|]. split.
  { rewrite Hsched, <- list_fmap_compose.
    destruct Hn as [->|[->| ->]]; reflexivity. }
  rewrite (q2_expo _ _ Hq), (q2_expo _ _ Ht). cbn [Z.eqb andb].
  apply Z.leb_le.
  apply dec_le_val in Hmax. unfold val at 2 in Hmax. cbn [coef expo] in Hmax.
  rewrite Rmult_1_l in Hmax.
  assert (HD0 : (0 ≤ coef D)%Z ∧ Rabs (val D - val a / IZR n') <= bpow (-5)).
  { assert (Hn1 : 1 <= IZR n') by (apply IZR_le; lia).
    assert (Hx : val a / val (of_int n') <= bpow 22).
    { rewrite val_of_int. apply Rle_trans with (val a); [|exact Hmax].
      apply (Rmult_le_reg_r (IZR n')); [lra|]. unfold Rdiv.
      rewrite Rmult_assoc, Rinv_l by lra. nra. }
    destruct (dec_div_error a (of_int n') Ha0 ltac:(simpl; lia) Hx)
      as (D' & HD' & HD0 & HDerr).
    rewrite HD in HD'. injection HD' as <-. rewrite val_of_int in HDerr. auto. }
  destruct HD0 as [HD0 HDerr].
  apply quantize_Some in Hq as [Hq _]. apply quantize_Some in Ht as [Ht _].
  pose proof (rnd_cents _ _ (rescale_rnd D (-2) HD0)) as Hri.
  pose proof (rnd_cents _ _ (rescale_rnd a (-2) Ha0)) as Hrt.
  rewrite <- Hq in Hri. rewrite <- Ht in Hrt.
  set (ci := coef (PaymentSchedule.installment_amount s)) in *.
  set (ct := coef (PaymentSchedule.annual_total s)) in *.
  apply Rabs_bound in HDerr.
  assert (H5 : bpow (-5) = 1 / 100000).
  { change (bpow (-5)) with (/ (10 * (10 * (10 * (10 * (10 * 1)))))). lra. }
  rewrite H5 in HDerr. clear H5 Hmax.
  destruct Hn as [->|[->| ->]].
  - assert (Hd : -7 < IZR (12 * ci - ct) < 7).
    { rewrite minus_IZR, mult_IZR. revert HDerr Hri Hrt.
      generalize (val D) (val a) (IZR ci) (IZR ct). clear. intros. lra. }
    destruct Hd as [Hd1 Hd2]. apply lt_IZR in Hd1, Hd2. lia.
  - assert (Hd : -3 < IZR (4 * ci - ct) < 3).
    { rewrite minus_IZR, mult_IZR. revert HDerr Hri Hrt.
      generalize (val D) (val a) (IZR ci) (IZR ct). clear. intros. lra. }
    destruct Hd as [Hd1 Hd2]. apply lt_IZR in Hd1, Hd2. lia.
  - (* one installment: the quotient is the total itself *)
    assert (Heq : ci = ct); [|lia].
    unfold ci, ct. rewrite Hq, Ht.
    destruct (Z.eq_dec (coef a) 0%Z) as [Hz|Hnz].
    + unfold dec_div in HD. cbn [of_int coef expo] in HD.
      rewrite Hz in HD. cbn [Z.eqb] in HD. injection HD as <-.
      rewrite fix_ctx_zero by reflexivity.
      rewrite !rescale_zero by (assumption || reflexivity). reflexivity.
    + rewrite dec_div_one in HD by (assumption || lia). injection HD as <-. reflexivity.
Qed.

Lemma schedule_partition_witness :
  ∃ s, calculate_payment_schedule (of_int 5000) "monthly" = inr s
    ∧ PaymentSchedule.installment_amount s = mkDec 41667 (-2)
    ∧ PaymentSchedule.annual_total s = mkDec 500000 (-2)
    ∧ PaymentInstallment.payment_amount <$> PaymentSchedule.schedule s
      = replicate 12 (mkDec 41667 (-2))
    ∧ partition_bound s = true.
Proof.
  eexists. split; [vm_compute; reflexivity|]. split; [reflexivity|]. split; [reflexivity|].
  refine (proj2 (schedule_partition (of_int 5000) "monthly" _ _ _ _ _));
    vm_compute; first [reflexivity | discriminate].
Defined.

(** ** The results of the calculators are in cents *)

Lemma bracket_loop_ok (bs : list TaxBracket.t) :
  ∀ rem prev total lines T L,
    Forall bracket_line_ok lines →
    bracket_loop bs rem prev total lines = Some (T, L) →
    Forall bracket_line_ok L.
Proof.
  induction bs as [|b rest IH]; intros rem prev total lines T L Hlines H.
  - simpl in H. injection H as <- <-. exact Hlines.
  - simpl in H. destruct (dec_le rem (of_int 0)).
    { injection H as <- <-. exact Hlines. }
    apply bind_Some in H as (bmin & Hbmin & H).
    apply bind_Some in H as (bmax & Hbmax & H).
    apply bind_Some in H as (r & Hr & H).
    apply bind_Some in H as (amount & Hamount & H).
    apply bind_Some in H as (tax & Htax & H).
    apply (IH _ _ _ _ _ _) in H; [exact H|].
    apply Forall_app. split; [exact Hlines|]. constructor; [|constructor].
    repeat split; cbn; try (eapply q2_expo; eassumption).
    destruct (TaxBracket.upper_limit b) as [limit|].
    + right. apply fmap_Some in Hbmax as (d & Hd & ->).
      exists d. split; [reflexivity | exact (q2_expo _ _ Hd)].
    + left. injection Hbmax as <-. reflexivity.
Qed.

Lemma calculate_income_tax_ok (t : Decimal) (r : IncomeTaxBreakdown.t) :
  calculate_income_tax t = Some r → income_tax_ok r.
Proof.
  unfold calculate_income_tax. destruct (dec_le t (of_int 0)).
  - intros [= <-]. repeat split. constructor.
  - intros H. apply bind_Some in H as ([T L] & Hloop & H).
    apply bind_Some in H as (er & _ & H).
    apply bind_Some in H as (Tr & HT & H).
    apply bind_Some in H as (err & Herr & H). injection H as <-.
    split; [exact (q2_expo _ _ HT)|]. split; [exact (q2_expo _ _ Herr)|].
    exact (bracket_loop_ok _ _ _ _ _ _ _ (List.Forall_nil _) Hloop).
Qed.

Lemma calculate_vat_ok (g : Decimal) (r : VATCalculation.t) :
  calculate_vat g = Some r → vat_ok r.
Proof.
  unfold calculate_vat. destruct (dec_le g (of_int 0)); intros H; bind_inv H;
    injection H as <-; split; cbn; first [reflexivity | eapply q2_expo; eassumption].
Qed.

Lemma calculate_social_security_ok (g : Decimal) (r : SocialSecurityCalculation.t) :
  calculate_social_security g = Some r → social_security_ok r.
Proof.
  unfold calculate_social_security. destruct (dec_le g (of_int 0)); intros H; bind_inv H;
    injection H as <-; repeat split; cbn;
    first [reflexivity | eapply q2_expo; eassumption].
Qed.

Lemma calculate_all_taxes_ok (g e : Decimal) (r : TaxCalculationResult.t) :
  calculate_all_taxes g e = Some r → result_ok r.
Proof.
  unfold calculate_all_taxes, calculate_taxable_income.
  destruct (dec_le g (of_int 0)); intros H.
  - apply bind_Some in H as (gq & Hgq & H). apply bind_Some in H as (eq & Heq & H).
    apply bind_Some in H as (it & Hit & H). apply bind_Some in H as (v & Hv & H).
    apply bind_Some in H as (ss & Hss & H). injection H as <-.
    unfold result_ok; cbn. repeat split; try reflexivity;
      first [ exact (q2_expo _ _ Hgq) | exact (q2_expo _ _ Heq)
            | apply (calculate_income_tax_ok _ _ Hit)
            | apply (calculate_vat_ok _ _ Hv)
            | apply (calculate_social_security_ok _ _ Hss) ].
  - apply bind_Some in H as (ti & Hti & H). apply bind_Some in H as (it & Hit & H).
    apply bind_Some in H as (v & Hv & H). apply bind_Some in H as (ss & Hss & H).
    apply bind_Some in H as (er & _ & H).
    apply bind_Some in H as (gq & Hgq & H). apply bind_Some in H as (eq & Heq & H).
    apply bind_Some in H as (tq & Htq & H). apply bind_Some in H as (oq & Hoq & H).
    apply bind_Some in H as (nq & Hnq & H). apply bind_Some in H as (erq & Herq & H).
    injection H as <-.
    unfold result_ok; cbn. repeat split;
      first [ eapply q2_expo; eassumption
            | apply (calculate_income_tax_ok _ _ Hit)
            | apply (calculate_vat_ok _ _ Hv)
            | apply (calculate_social_security_ok _ _ Hss) ].
Qed.

(** C9. A result of [calculate_all_taxes], written with [to_dict] and
    read back with [from_dict], is the same result, field for field,
    with its bracket lines, its VAT and its social security. *)
Theorem to_dict_from_dict_roundtrip (g e : Decimal) (r : TaxCalculationResult.t) :
  calculate_all_taxes g e = Some r →
  TaxCalculationResultDict.from_dict (TaxCalculationResultDict.to_dict r) = Some r.
Proof.
  intros H. apply TaxCalculationResult_roundtrip. exact (calculate_all_taxes_ok g e r H).
Qed.

Lemma to_dict_from_dict_roundtrip_witness :
  ∃ r, calculate_all_taxes (of_int 60000) (of_int 10000) = Some r
    ∧ getitem (TaxCalculationResultDict.to_dict r) "net_income" = Some (VStr "34100.00")
    ∧ TaxCalculationResultDict.from_dict (TaxCalculationResultDict.to_dict r) = Some r.
Proof.
  eexists. split; [vm_compute; reflexivity|]. split; [vm_compute; reflexivity|].
  apply (to_dict_from_dict_roundtrip (of_int 60000) (of_int 10000)).
  vm_compute. reflexivity.
Defined.

(** The round trip is not a property of every record: an upper bound
    given as text that happens to be a number is read back as a
    number. *)
Example from_dict_changes_textual_bound :
  BracketBreakdownDict.from_dict
    (BracketBreakdownDict.to_dict
       (BracketBreakdown.mk (mkDec 0 (-2)) (BoundStr "10.00") (mkDec 900 (-2))
          (mkDec 0 (-2)) (mkDec 0 (-2))))
  = Some (BracketBreakdown.mk (mkDec 0 (-2)) (BoundDec (mkDec 1000 (-2))) (mkDec 900 (-2))
            (mkDec 0 (-2)) (mkDec 0 (-2))).
Proof. vm_compute. reflexivity. Qed.

(** * Exact arithmetic on amounts in cents *)

Lemma fix_ctx_small (c e : Z) : (Z.abs c < 10 ^ prec)%Z → fix_ctx (mkDec c e) = mkDec c e.
Proof.
  intros H. apply fix_ctx_fits. cbn [coef]. apply ndigits_le_iff; [unfold prec; lia | exact H].
Qed.

Lemma dec_sub_cents (a b : Z) :
  (Z.abs (a - b) < 10 ^ prec)%Z →
  dec_sub (mkDec a (-2)) (mkDec b (-2)) = mkDec (a - b) (-2).
Proof.
  intros H. unfold dec_sub, dec_add, dec_neg. cbn [coef expo].
  rewrite Z.min_id, Z.sub_diag. change (10 ^ 0)%Z with 1%Z. rewrite !Z.mul_1_r.
  replace (a + - b)%Z with (a - b)%Z by lia. apply fix_ctx_small, H.
Qed.

Lemma dec_sub_cents_zero (a : Z) :
  (Z.abs a < 10 ^ prec)%Z → dec_sub (mkDec a (-2)) (of_int 0) = mkDec a (-2).
Proof.
  intros H. unfold dec_sub, dec_add, dec_neg, of_int. cbn [coef expo].
  change (Z.min (-2) 0) with (-2)%Z. change (-2 - -2)%Z with 0%Z.
  change (10 ^ 0)%Z with 1%Z. rewrite Z.mul_1_r.
  change (- 0 * 10 ^ (0 - -2))%Z with 0%Z. rewrite Z.add_0_r. apply fix_ctx_small, H.
Qed.

Lemma dec_lt_cents (a b : Z) : dec_lt (mkDec a (-2)) (mkDec b (-2)) = (a <? b)%Z.
Proof.
  unfold dec_lt, dec_cmp. cbn [coef expo]. rewrite Z.min_id, Z.sub_diag.
  change (10 ^ 0)%Z with 1%Z. rewrite !Z.mul_1_r.
  unfold Z.ltb. destruct (a ?= b)%Z; reflexivity.
Qed.

Lemma py_min_cents (a b : Z) :
  py_min (mkDec a (-2)) (mkDec b (-2)) = mkDec (Z.min a b) (-2).
Proof.
  unfold py_min. rewrite dec_lt_cents. destruct (Z.ltb_spec b a).
  - rewrite Z.min_r by lia. reflexivity.
  - rewrite Z.min_l by lia. reflexivity.
Qed.

Lemma dec_le_cents_zero (c : Z) : dec_le (mkDec c (-2)) (of_int 0) = (c <=? 0)%Z.
Proof.
  unfold dec_le, dec_cmp, of_int. cbn [coef expo].
  change (Z.min (-2) 0) with (-2)%Z. change (-2 - -2)%Z with 0%Z.
  change (10 ^ 0)%Z with 1%Z. rewrite Z.mul_1_r.
  change (0 * 10 ^ (0 - -2))%Z with 0%Z.
  unfold Z.leb. destruct (c ?= 0)%Z; reflexivity.
Qed.

Lemma dec_mul_cents (a r : Z) :
  (Z.abs (a * r) < 10 ^ prec)%Z →
  dec_mul (mkDec a (-2)) (mkDec r (-2)) = mkDec (a * r) (-4).
Proof. intros H. unfold dec_mul. cbn [coef expo]. apply fix_ctx_small, H. Qed.

Lemma dec_mul_hundred (r : Z) :
  (Z.abs (r * 100) < 10 ^ prec)%Z →
  dec_mul (mkDec r (-2)) (of_int 100) = mkDec (r * 100) (-2).
Proof. intros H. unfold dec_mul, of_int. cbn [coef expo]. apply fix_ctx_small, H. Qed.

Lemma dec_add_4 (x y : Z) :
  (Z.abs (x + y) < 10 ^ prec)%Z →
  dec_add (mkDec x (-4)) (mkDec y (-4)) = mkDec (x + y) (-4).
Proof.
  intros H. unfold dec_add. cbn [coef expo]. rewrite Z.min_id, Z.sub_diag.
  change (10 ^ 0)%Z with 1%Z. rewrite !Z.mul_1_r. apply fix_ctx_small, H.
Qed.

Lemma dec_add_zero_4 (y : Z) :
  (Z.abs y < 10 ^ prec)%Z → dec_add (of_int 0) (mkDec y (-4)) = mkDec y (-4).
Proof.
  intros H. unfold dec_add, of_int. cbn [coef expo].
  change (Z.min 0 (-4)) with (-4)%Z. change (-4 - -4)%Z with 0%Z.
  change (10 ^ 0)%Z with 1%Z. rewrite Z.mul_1_r.
  change (0 * 10 ^ (0 - -4))%Z with 0%Z. rewrite Z.add_0_l. apply fix_ctx_small, H.
Qed.

Lemma q2_cents (a : Z) : (Z.abs a < 10 ^ prec)%Z → q2 (mkDec a (-2)) = Some (mkDec a (-2)).
Proof.
  intros H. unfold q2, quantize. cbn [coef expo].
  destruct (Z.eqb_spec a 0) as [->|Hne]; [reflexivity|].
  assert (Hn : (ndigits a ≤ prec)%Z) by (apply ndigits_le_iff; [unfold prec; lia | exact H]).
  replace (prec <? ndigits a + -2 - -2)%Z with false by (symmetry; apply Z.ltb_ge; lia).
  unfold rescale. cbn [coef expo]. rewrite Z.leb_refl, Z.sub_diag.
  change (10 ^ 0)%Z with 1%Z. rewrite Z.mul_1_r. cbn [coef].
  replace (prec <? ndigits a)%Z with false by (symmetry; apply Z.ltb_ge; lia).
  reflexivity.
Qed.

Lemma q2_of_int_zero : q2 (of_int 0) = Some (mkDec 0 (-2)).
Proof. reflexivity. Qed.

Lemma round_cents_bounds (x : Z) :
  (0 ≤ x)%Z → (0 ≤ round_cents x ∧ 100 * round_cents x - 50 ≤ x < 100 * round_cents x + 50)%Z.
Proof. intros H. unfold round_cents. Z.div_mod_to_equations. lia. Qed.

Lemma q2_hundredths (x : Z) :
  (0 ≤ x < 10 ^ prec)%Z → q2 (mkDec x (-4)) = Some (mkDec (round_cents x) (-2)).
Proof.
  intros [H0 H]. unfold q2, quantize. cbn [coef expo].
  destruct (Z.eqb_spec x 0) as [->|Hne]; [reflexivity|].
  assert (Hn : (ndigits x ≤ prec)%Z).
  { apply ndigits_le_iff; [unfold prec; lia | rewrite Z.abs_eq by lia; exact H]. }
  replace (prec <? ndigits x + -4 - -2)%Z with false by (symmetry; apply Z.ltb_ge; lia).
  unfold rescale. cbn [coef expo]. change (-2 <=? -4)%Z with false. cbn iota.
  change (-2 - -4)%Z with 2%Z. unfold half_up_div.
  rewrite Z.sgn_pos by lia. rewrite Z.abs_eq by lia. rewrite Z.mul_1_l.
  change (5 * 10 ^ (2 - 1))%Z with 50%Z. change (10 ^ 2)%Z with 100%Z.
  fold (round_cents x). cbn [coef].
  assert (Hr : (Z.abs (round_cents x) < 10 ^ prec)%Z).
  { pose proof (round_cents_bounds x H0). rewrite Z.abs_eq by lia. lia. }
  replace (prec <? ndigits (round_cents x))%Z with false; [reflexivity|].
  symmetry. apply Z.ltb_ge. apply ndigits_le_iff; [unfold prec; lia | exact Hr].
Qed.

(** * The bracket loop on an income in cents *)

Lemma bracket_loop_unfold (b : TaxBracket.t) rest rem prev total lines :
  bracket_loop (b :: rest) rem prev total lines
  = if dec_le rem (of_int 0) then Some (total, lines)
    else
      bmin ← q2 prev;
      bmax ← match TaxBracket.upper_limit b with
             | None => Some (BoundStr "unlimited")
             | Some limit => BoundDec <$> q2 limit
             end;
      r ← q2 (dec_mul (TaxBracket.rate b) (of_int 100));
      amount ← q2 (portion b prev rem);
      tax ← q2 (dec_mul (portion b prev rem) (TaxBracket.rate b));
      bracket_loop rest (dec_sub rem (portion b prev rem)) (next_limit b prev)
        (dec_add total (dec_mul (portion b prev rem) (TaxBracket.rate b)))
        (lines ++ [BracketBreakdown.mk bmin bmax r amount tax]).
Proof. reflexivity. Qed.

Lemma tax4_bounds (bs : list TaxBracket.t) :
  ∀ prev c, table_in_cents prev bs = true →
    (0 ≤ tax4 bs prev c ∧ tax4 bs prev c ≤ 100 * Z.max c 0)%Z.
Proof.
  induction bs as [|b rest IH]; intros prev c Hok; [simpl; lia|].
  simpl in Hok. simpl.
  destruct (Z.leb_spec c 0) as [Hc|Hc]; [lia|].
  apply andb_prop in Hok as [Hok Hrest]. apply andb_prop in Hok as [Hok Hr100].
  apply andb_prop in Hok as [_ Hr0].
  apply Z.leb_le in Hr0, Hr100.
  destruct (TaxBracket.upper_limit b) as [limit|].
  - apply andb_prop in Hrest as [Hl Hrest]. apply andb_prop in Hl as [Hl _].
    apply andb_prop in Hl as [_ Hlt]. apply Z.ltb_lt in Hlt.
    specialize (IH (coef limit) (c - Z.min c (coef limit - prev))%Z Hrest).
    nia.
  - specialize (IH prev (c - c)%Z Hrest). nia.
Qed.

Lemma bracket_loop_cents (bs : list TaxBracket.t) :
  ∀ prev P c total T4 lines,
    table_in_cents P bs = true →
    (prev = of_int 0 ∧ P = 0%Z ∨ prev = mkDec P (-2)) → (0 ≤ P ≤ 10 ^ 22)%Z →
    (total = of_int 0 ∧ T4 = 0%Z ∨ total = mkDec T4 (-4)) →
    (0 ≤ T4)%Z → (c < 10 ^ 24)%Z → (T4 + 100 * Z.max c 0 < 10 ^ 27)%Z →
    ∃ T, bracket_loop bs (mkDec c (-2)) prev total lines
         = Some (T, lines ++ lines_spec bs P c)
       ∧ (T = of_int 0 ∧ total = of_int 0 ∧ (T4 + tax4 bs P c = 0)%Z
          ∨ T = mkDec (T4 + tax4 bs P c) (-4)).
Proof.
  induction bs as [|b rest IH]; intros prev P c total T4 lines Hok Hprev HP Htot HT4 Hc Hsum.
  - simpl. rewrite app_nil_r, Z.add_0_r. exists total. split; [reflexivity|].
    destruct Htot as [[-> ->] | ->]; [left; repeat split; reflexivity | right; reflexivity].
  - rewrite bracket_loop_unfold, dec_le_cents_zero. cbn [tax4 lines_spec].
    destruct (Z.leb_spec c 0) as [Hc0|Hc0].
    { rewrite app_nil_r, Z.add_0_r. exists total. split; [reflexivity|].
      destruct Htot as [[-> ->] | ->]; [left; repeat split; reflexivity | right; reflexivity]. }
    simpl in Hok.
    apply andb_prop in Hok as [Hok Hrest]. apply andb_prop in Hok as [Hok Hr100].
    apply andb_prop in Hok as [Hre Hr0].
    apply Z.leb_le in Hr0, Hr100. apply Z.eqb_eq in Hre.
    destruct b as [lim [rt re] descr]. cbn [TaxBracket.rate TaxBracket.upper_limit coef expo] in *.
    subst re.
    assert (Hqprev : q2 prev = Some (mkDec P (-2))).
    { destruct Hprev as [[-> ->] | ->]; [reflexivity|]. apply q2_cents.
      rewrite Z.abs_eq by lia. unfold prec. lia. }
    assert (Hp10 : (10 ^ 22 < 10 ^ 24 ∧ 10 ^ 24 < 10 ^ 27 ∧ 10 ^ 27 < 10 ^ prec)%Z)
      by (unfold prec; lia).
    set (p := match lim with Some limit => Z.min c (coef limit - P) | None => c end).
    set (P' := match lim with Some limit => coef limit | None => P end).
    assert (Hp : (0 < p ≤ c)%Z ∧ portion (TaxBracket.mk lim (mkDec rt (-2)) descr) prev (mkDec c (-2))
                               = mkDec p (-2)
                 ∧ table_in_cents P' rest = true
                 ∧ (next_limit (TaxBracket.mk lim (mkDec rt (-2)) descr) prev = of_int 0 ∧ P' = 0%Z
                    ∨ next_limit (TaxBracket.mk lim (mkDec rt (-2)) descr) prev = mkDec P' (-2))
                 ∧ (0 ≤ P' ≤ 10 ^ 22)%Z
                 ∧ match lim with
                   | None => Some (BoundStr "unlimited")
                   | Some limit => BoundDec <$> q2 limit
                   end
                   = Some (match lim with
                           | None => BoundStr "unlimited"
                           | Some limit => BoundDec (mkDec (coef limit) (-2))
                           end)).
    { unfold portion, next_limit, p, P'. cbn [TaxBracket.upper_limit].
      destruct lim as [[L eL]|]; cbn [coef expo] in *.
      - apply andb_prop in Hrest as [Hl Hrest]. apply andb_prop in Hl as [Hl HL22].
        apply andb_prop in Hl as [HeL Hlt]. apply Z.ltb_lt in Hlt. apply Z.leb_le in HL22.
        apply Z.eqb_eq in HeL. subst eL.
        assert (Hsub : dec_sub (mkDec L (-2)) prev = mkDec (L - P) (-2)).
        { destruct Hprev as [[-> ->] | ->].
          - rewrite Z.sub_0_r. apply dec_sub_cents_zero. rewrite Z.abs_eq by lia. lia.
          - apply dec_sub_cents. rewrite Z.abs_eq by lia. lia. }
        rewrite Hsub, py_min_cents.
        split; [lia|]. split; [reflexivity|]. split; [exact Hrest|].
        split; [right; reflexivity|]. split; [lia|].
        rewrite q2_cents by (rewrite Z.abs_eq by lia; lia). reflexivity.
      - split; [lia|]. split; [reflexivity|]. split; [exact Hrest|].
        split; [exact Hprev|]. split; [exact HP|]. reflexivity. }
    destruct Hp as (Hp & Hport & Hrest' & Hprev' & HP' & Hbmax).
    rewrite Hport, Hqprev, Hbmax.
    assert (Hprt : (0 ≤ p * rt ≤ 100 * p)%Z).
    { split; [apply Z.mul_nonneg_nonneg; lia|].
      rewrite (Z.mul_comm 100 p). apply Z.mul_le_mono_nonneg_l; lia. }
    assert (Hmax : Z.max c 0 = c) by lia. rewrite Hmax in Hsum.
    rewrite dec_mul_hundred by (rewrite Z.abs_eq by lia; lia).
    rewrite (q2_cents (rt * 100)) by (rewrite Z.abs_eq by lia; lia).
    rewrite (q2_cents p) by (rewrite Z.abs_eq by lia; lia).
    rewrite dec_mul_cents by (rewrite Z.abs_eq by lia; lia).
    rewrite q2_hundredths by lia.
    rewrite dec_sub_cents by (rewrite Z.abs_eq by lia; lia).
    assert (Htot' : dec_add total (mkDec (p * rt) (-4)) = mkDec (T4 + p * rt) (-4)).
    { destruct Htot as [[-> ->] | ->].
      - rewrite Z.add_0_l. apply dec_add_zero_4. rewrite Z.abs_eq by lia. lia.
      - apply dec_add_4. rewrite Z.abs_eq by lia. lia. }
    rewrite Htot'. cbn [mbind option_bind].
    destruct (IH (next_limit (TaxBracket.mk lim (mkDec rt (-2)) descr) prev) P' (c - p)%Z
                (mkDec (T4 + p * rt) (-4)) (T4 + p * rt)%Z
                (lines ++ [BracketBreakdown.mk (mkDec P (-2))
                             (match lim with
                              | None => BoundStr "unlimited"
                              | Some limit => BoundDec (mkDec (coef limit) (-2))
                              end) (mkDec (rt * 100) (-2)) (mkDec p (-2))
                             (mkDec (round_cents (p * rt)) (-2))])
                Hrest' Hprev' HP' ltac:(right; reflexivity) ltac:(lia) ltac:(lia) ltac:(lia))
      as (T & Hloop & HT).
    exists T. split.
    + rewrite Hloop. f_equal. f_equal. rewrite <- app_assoc. cbn [app].
      rewrite (Z.mul_comm rt p). reflexivity.
    + right. destruct HT as [(_ & HT & _) | ->]; [discriminate HT|].
      f_equal. rewrite (Z.mul_comm rt p). lia.
Qed.

Lemma INCOME_TAX_BRACKETS_in_table : table_in_cents 0 INCOME_TAX_BRACKETS = true.
Proof. vm_compute. reflexivity. Qed.

Lemma tax4_progressive (c : Z) :
  (0 < c)%Z → tax4 INCOME_TAX_BRACKETS 0 c = progressive_tax c.
Proof.
  intros Hc. unfold progressive_tax, INCOME_TAX_BRACKETS.
  cbn [tax4 TaxBracket.upper_limit TaxBracket.rate coef].
  repeat match goal with
         | |- context [Z.leb ?a ?b] => destruct (Z.leb_spec a b)
         end; lia.
Qed.

Lemma progressive_tax_bounds (c : Z) :
  (0 < c)%Z → (9 * c ≤ progressive_tax c ≤ 44 * c)%Z.
Proof. intros Hc. unfold progressive_tax. lia. Qed.

(** * Rates in percent *)

Lemma Rdiv_le_bound (x y k : R) : 0 < y → x <= k * y → x / y <= k.
Proof.
  intros Hy H. unfold Rdiv. apply Rmult_le_reg_r with y; [exact Hy|].
  rewrite Rmult_assoc, Rinv_l, Rmult_1_r by lra. exact H.
Qed.

Lemma Rdiv_ge_bound (x y k : R) : 0 < y → k * y <= x → k <= x / y.
Proof.
  intros Hy H. unfold Rdiv. apply Rmult_le_reg_r with y; [exact Hy|].
  rewrite Rmult_assoc, Rinv_l, Rmult_1_r by lra. exact H.
Qed.

Lemma bpow_neg5 : bpow (-5) = 1 / 100000.
Proof. unfold bpow. simpl. lra. Qed.

Lemma bpow_22 : bpow 22 = 10000000000000000000000.
Proof. rewrite bpow_IZR by lia. reflexivity. Qed.

Lemma bpow_25 : bpow 25 = 10000000000000000000000000.
Proof. rewrite bpow_IZR by lia. reflexivity. Qed.

(** [(a / b * 100).quantize(0.01)]: the quotient in percent, to within
    0.0065. *)
Lemma percent_rate (a b : Decimal) :
  (0 ≤ coef a)%Z → (0 < coef b)%Z → val a / val b <= bpow 22 →
  ∃ D E, dec_div a b = Some D
    ∧ q2 (dec_mul D (of_int 100)) = Some E
    ∧ expo E = (-2)%Z ∧ (0 ≤ coef E)%Z
    ∧ Rabs (val E - 100 * (val a / val b)) <= 65 / 10000.
Proof.
  intros Ha Hb Hq.
  destruct (dec_div_error a b Ha Hb Hq) as (D & HD & HD0 & Herr).
  rewrite bpow_neg5 in Herr. apply Rabs_bound in Herr.
  set (d := mul_exact D (of_int 100)).
  assert (Hd0 : (0 ≤ coef d)%Z) by (unfold d; cbn [mul_exact coef of_int]; lia).
  assert (Hvd : val d = 100 * val D).
  { unfold d. rewrite val_mul_exact, val_of_int. lra. }
  assert (Hfix : val (fix_ctx d) <= bpow 25).
  { replace (bpow 25) with (val (fix_ctx (mkDec 1 25))).
    - apply fix_ctx_mono; [exact Hd0|]. rewrite Hvd. unfold val at 2. cbn [coef expo].
      rewrite bpow_25. rewrite bpow_22 in Hq. lra.
    - rewrite fix_ctx_small by (vm_compute; reflexivity). unfold val. cbn [coef expo]. lra. }
  assert (HqE : q2 (fix_ctx d) = Some (rescale (fix_ctx d) (-2))).
  { apply quantize_ok; [apply fix_ctx_nonneg, Hd0 | exact Hfix]. }
  exists D, (rescale (fix_ctx d) (-2)).
  split; [exact HD|]. rewrite dec_mul_unfold. fold d. split; [exact HqE|].
  split; [apply rescale_expo|]. split; [apply rescale_nonneg, fix_ctx_nonneg, Hd0|].
  pose proof (q2_fix_error d _ Hd0 HqE) as He. apply Rabs_bound in He.
  apply Rabs_le. rewrite Hvd in He. lra.
Qed.

(** * Income tax of an income in cents *)

Lemma val_hundredths (x : Z) : val (mkDec x (-4)) = IZR x / 10000.
Proof. unfold val. cbn [coef expo]. unfold bpow. simpl. lra. Qed.

Lemma calculate_income_tax_cents (c : Z) :
  (0 < c ≤ 10 ^ 22)%Z →
  ∃ E, calculate_income_tax (mkDec c (-2))
       = Some (IncomeTaxBreakdown.mk (mkDec (round_cents (progressive_tax c)) (-2)) E
                 (lines_spec INCOME_TAX_BRACKETS 0 c))
     ∧ expo E = (-2)%Z
     ∧ Rabs (val E - 100 * (IZR (progressive_tax c) / (100 * IZR c))) <= 65 / 10000.
Proof.
  intros Hc. pose proof (progressive_tax_bounds c ltac:(lia)) as Hpt.
  destruct (bracket_loop_cents INCOME_TAX_BRACKETS (of_int 0) 0 c (of_int 0) 0 []
              INCOME_TAX_BRACKETS_in_table ltac:(left; split; reflexivity) ltac:(lia)
              ltac:(left; split; reflexivity) ltac:(lia) ltac:(lia) ltac:(lia))
    as (T & Hloop & HT).
  rewrite tax4_progressive in HT by lia. rewrite Z.add_0_l in HT.
  destruct HT as [(_ & _ & HT) | ->]; [lia|].
  cbn [app] in Hloop.
  assert (HcR : 0 < IZR c) by (apply IZR_lt; lia).
  assert (Hquot : val (mkDec (progressive_tax c) (-4)) / val (mkDec c (-2))
                  = IZR (progressive_tax c) / (100 * IZR c)).
  { rewrite val_hundredths, val_cents by reflexivity. cbn [coef]. field. lra. }
  assert (Hq44 : IZR (progressive_tax c) / (100 * IZR c) <= 44 / 100).
  { apply Rdiv_le_bound; [lra|]. replace (44 / 100 * (100 * IZR c)) with (IZR (44 * c)).
    - apply IZR_le. lia.
    - rewrite mult_IZR. lra. }
  destruct (percent_rate (mkDec (progressive_tax c) (-4)) (mkDec c (-2)))
    as (D & E & HD & HE & HeE & _ & Hacc).
  { cbn [coef]. lia. }
  { cbn [coef]. lia. }
  { rewrite Hquot, bpow_22. lra. }
  exists E. split; [|split; [exact HeE | rewrite <- Hquot; exact Hacc]].
  unfold calculate_income_tax. rewrite dec_le_cents_zero.
  replace (c <=? 0)%Z with false by (symmetry; apply Z.leb_gt; lia).
  rewrite Hloop. cbn [mbind option_bind].
  replace (dec_lt (of_int 0) (mkDec c (-2))) with true.
  2:{ symmetry. apply dec_lt_val. rewrite val_of_int, val_cents by reflexivity.
      cbn [coef]. lra. }
  rewrite HD. cbn [mbind option_bind].
  rewrite q2_hundredths by (unfold prec; lia).
  cbn [mbind option_bind]. rewrite HE. reflexivity.
Qed.

Lemma tax_amount_sum_lines_spec (c : Z) :
  (0 < c)%Z →
  tax_amount_sum (lines_spec INCOME_TAX_BRACKETS 0 c) = round_cents (progressive_tax c).
Proof.
  intros Hc. unfold progressive_tax, INCOME_TAX_BRACKETS.
  cbn [lines_spec TaxBracket.upper_limit TaxBracket.rate coef].
  repeat match goal with
         | |- context [Z.leb ?a ?b] => destruct (Z.leb_spec a b)
         end;
    cbn [tax_amount_sum foldr BracketBreakdown.tax_amount coef];
    repeat match goal with
           | |- context [Z.min ?a ?b] =>
               first [rewrite (Z.min_l a b) by lia | rewrite (Z.min_r a b) by lia]
           | |- context [Z.max ?a ?b] =>
               first [rewrite (Z.max_l a b) by lia | rewrite (Z.max_r a b) by lia]
           end;
    unfold round_cents; Z.div_mod_to_equations; lia.
Qed.

(** ** The income tax is the progressive tax *)

(** X1. For a taxable income of [c] cents, [0 < c <= 10^22],
    [calculate_income_tax] returns, and its [total_tax] is the
    progressive tax of the brackets (9%, 22%, 28%, 36% on the four
    slices of 10000.00, 44% above 40000.00) rounded half up to cents:
    no rounding of the 28-digit context interferes. *)
Theorem income_tax_is_progressive (c : Z) :
  (0 < c ≤ 10 ^ 22)%Z →
  ∃ r, calculate_income_tax (mkDec c (-2)) = Some r
     ∧ IncomeTaxBreakdown.total_tax r = mkDec (round_cents (progressive_tax c)) (-2).
Proof.
  intros Hc. destruct (calculate_income_tax_cents c Hc) as (E & Hr & _).
  eexists. split; [exact Hr | reflexivity].
Qed.

Lemma income_tax_is_progressive_witness :
  ∃ r, calculate_income_tax (mkDec 2500000 (-2)) = Some r
     ∧ IncomeTaxBreakdown.total_tax r = mkDec 450000 (-2).
Proof. apply (income_tax_is_progressive 2500000). lia. Defined.

(** X2. For the same incomes the breakdown has one line for each
    bracket that the income reaches, with the bounds and the rate of the
    bracket, the slice of the income inside it and the tax of the slice
    rounded to cents; and the [tax_amount] fields of the lines add up
    exactly to [total_tax]. *)
Theorem breakdown_lines_add_up (c : Z) :
  (0 < c ≤ 10 ^ 22)%Z →
  ∃ r, calculate_income_tax (mkDec c (-2)) = Some r
     ∧ IncomeTaxBreakdown.bracket_breakdown r = lines_spec INCOME_TAX_BRACKETS 0 c
     ∧ tax_amount_sum (IncomeTaxBreakdown.bracket_breakdown r)
       = coef (IncomeTaxBreakdown.total_tax r).
Proof.
  intros Hc. destruct (calculate_income_tax_cents c Hc) as (E & Hr & _).
  eexists. split; [exact Hr|]. split; [reflexivity|].
  cbn [IncomeTaxBreakdown.bracket_breakdown IncomeTaxBreakdown.total_tax coef].
  apply tax_amount_sum_lines_spec. lia.
Qed.

Lemma breakdown_lines_add_up_witness :
  ∃ r, calculate_income_tax (mkDec 2500050 (-2)) = Some r
     ∧ IncomeTaxBreakdown.bracket_breakdown r
       = [ BracketBreakdown.mk (mkDec 0 (-2)) (BoundDec (mkDec 1000000 (-2)))
             (mkDec 900 (-2)) (mkDec 1000000 (-2)) (mkDec 90000 (-2));
           BracketBreakdown.mk (mkDec 1000000 (-2)) (BoundDec (mkDec 2000000 (-2)))
             (mkDec 2200 (-2)) (mkDec 1000000 (-2)) (mkDec 220000 (-2));
           BracketBreakdown.mk (mkDec 2000000 (-2)) (BoundDec (mkDec 3000000 (-2)))
             (mkDec 2800 (-2)) (mkDec 500050 (-2)) (mkDec 140014 (-2)) ]
     ∧ tax_amount_sum (IncomeTaxBreakdown.bracket_breakdown r)
       = coef (IncomeTaxBreakdown.total_tax r).
Proof. apply (breakdown_lines_add_up 2500050). lia. Defined.

(** X3. For the same incomes the effective rate is the total tax over
    the income in percent, to within 0.0065, and lies between the lowest
    rate 9.00 and the top rate 44.00. *)
Theorem effective_rate_between_rates (c : Z) :
  (0 < c ≤ 10 ^ 22)%Z →
  ∃ r, calculate_income_tax (mkDec c (-2)) = Some r
     ∧ expo (IncomeTaxBreakdown.effective_rate r) = (-2)%Z
     ∧ (900 ≤ coef (IncomeTaxBreakdown.effective_rate r) ≤ 4400)%Z
     ∧ Rabs (val (IncomeTaxBreakdown.effective_rate r)
             - 100 * (IZR (progressive_tax c) / (100 * IZR c))) <= 65 / 10000.
Proof.
  intros Hc. destruct (calculate_income_tax_cents c Hc) as (E & Hr & HeE & Hacc).
  eexists. split; [exact Hr|]. cbn [IncomeTaxBreakdown.effective_rate].
  split; [exact HeE|]. split; [|exact Hacc].
  pose proof (progressive_tax_bounds c ltac:(lia)) as [Hlo Hhi].
  assert (HcR : 0 < IZR c) by (apply IZR_lt; lia).
  assert (Hq : 9 / 100 <= IZR (progressive_tax c) / (100 * IZR c) <= 44 / 100).
  { split.
    - apply Rdiv_ge_bound; [lra|]. apply IZR_le in Hlo. rewrite mult_IZR in Hlo. lra.
    - apply Rdiv_le_bound; [lra|]. apply IZR_le in Hhi. rewrite mult_IZR in Hhi. lra. }
  apply Rabs_bound in Hacc. rewrite (val_cents E HeE) in Hacc.
  assert (H1 : IZR 899 < IZR (coef E)) by lra.
  assert (H2 : IZR (coef E) < IZR 4401) by lra.
  apply lt_IZR in H1, H2. lia.
Qed.

Lemma effective_rate_between_rates_witness :
  ∃ r, calculate_income_tax (mkDec 2500000 (-2)) = Some r
     ∧ expo (IncomeTaxBreakdown.effective_rate r) = (-2)%Z
     ∧ (900 ≤ coef (IncomeTaxBreakdown.effective_rate r) ≤ 4400)%Z
     ∧ Rabs (val (IncomeTaxBreakdown.effective_rate r)
             - 100 * (IZR (progressive_tax 2500000) / (100 * IZR 2500000))) <= 65 / 10000.
Proof. apply (effective_rate_between_rates 2500000). lia. Defined.

(** * Negative decimals *)

Lemma ndigits_opp (c : Z) : ndigits (- c) = ndigits c.
Proof. unfold ndigits. rewrite Z.abs_opp. reflexivity. Qed.

Lemma dec_neg_involutive (d : Decimal) : dec_neg (dec_neg d) = d.
Proof. destruct d as [c e]. unfold dec_neg. cbn [coef expo]. f_equal. lia. Qed.

Lemma half_up_div_opp (c k : Z) : half_up_div (- c) k = (- half_up_div c k)%Z.
Proof. unfold half_up_div. rewrite Z.sgn_opp, Z.abs_opp. lia. Qed.

Lemma fix_ctx_neg_pos (d : Decimal) :
  (0 < coef d)%Z → fix_ctx (dec_neg d) = dec_neg (fix_ctx d).
Proof.
  intros Hc. unfold fix_ctx, dec_neg. cbn [coef expo]. rewrite ndigits_opp.
  set (n := ndigits (coef d)).
  destruct (Z.leb_spec n prec) as [Hfit|Hbig]; [reflexivity|].
  set (k := (n - prec)%Z). assert (Hk : (1 ≤ k)%Z) by (unfold k; lia).
  rewrite half_up_div_opp, Z.abs_opp.
  destruct (half_up_div_spec (coef d) k ltac:(lia) Hk) as (HN0 & HN1 & HN2).
  set (N := half_up_div (coef d) k) in *.
  destruct (Z.leb_spec (10 ^ prec) (Z.abs N)) as [Hcarry|Hno]; cbn [coef expo]; [|reflexivity].
  assert (HN : N = (10 ^ prec)%Z).
  { pose proof (ndigits_upper (coef d)) as Hu. fold n in Hu.
    rewrite Z.abs_eq in Hu by lia. rewrite Z.abs_eq in Hcarry by lia.
    replace n with (prec + k)%Z in Hu by (unfold k; lia).
    rewrite Z.pow_add_r in Hu by (unfold prec; lia).
    assert (0 < 10 ^ k)%Z by (apply Z.pow_pos_nonneg; lia).
    assert (2 * N - 1 < 2 * 10 ^ prec)%Z by nia. lia. }
  rewrite HN. reflexivity.
Qed.

Lemma fix_ctx_neg (d : Decimal) : fix_ctx (dec_neg d) = dec_neg (fix_ctx d).
Proof.
  destruct (Z.lt_trichotomy (coef d) 0) as [Hneg|[H0|Hpos]].
  - rewrite <- (dec_neg_involutive d) at 2.
    rewrite (fix_ctx_neg_pos (dec_neg d)) by (unfold dec_neg; cbn [coef]; lia).
    rewrite dec_neg_involutive. reflexivity.
  - rewrite (fix_ctx_zero d H0).
    apply fix_ctx_zero. unfold dec_neg. cbn [coef]. lia.
  - apply fix_ctx_neg_pos, Hpos.
Qed.

Lemma fix_ctx_nonpos (d : Decimal) : (coef d ≤ 0)%Z → (coef (fix_ctx d) ≤ 0)%Z.
Proof.
  intros H. rewrite <- (dec_neg_involutive d), fix_ctx_neg. unfold dec_neg at 1. cbn [coef].
  pose proof (fix_ctx_nonneg (dec_neg d)) as Hn. unfold dec_neg at 1 in Hn. cbn [coef] in Hn.
  lia.
Qed.

Lemma rescale_neg (d : Decimal) (t : Z) : rescale (dec_neg d) t = dec_neg (rescale d t).
Proof.
  unfold rescale, dec_neg. cbn [coef expo].
  destruct (t <=? expo d)%Z; cbn [coef expo]; f_equal; [lia | apply half_up_div_opp].
Qed.

Lemma quantize_dec_neg (d : Decimal) (t : Z) :
  quantize (dec_neg d) t = dec_neg <$> quantize d t.
Proof.
  unfold quantize. rewrite rescale_neg. unfold dec_neg at 1 2 3. cbn [coef expo].
  rewrite ndigits_opp.
  destruct (Z.eqb_spec (coef d) 0) as [H0|Hne].
  - rewrite H0. reflexivity.
  - destruct (Z.eqb_spec (- coef d) 0); [lia|].
    destruct (prec <? _)%Z; [reflexivity|].
    unfold dec_neg at 1. cbn [coef]. rewrite ndigits_opp.
    destruct (prec <? _)%Z; reflexivity.
Qed.

(** A decimal of magnitude at most [10^(prec+t-1)] can be quantized. *)
Lemma quantize_ok_abs (d : Decimal) (t : Z) :
  Rabs (val d) <= bpow (prec + t - 1) → quantize d t = Some (rescale d t).
Proof.
  intros H. destruct (Z_le_gt_dec 0 (coef d)) as [Hc|Hc].
  - apply quantize_ok; [exact Hc|]. apply val_nonneg in Hc. rewrite Rabs_right in H; lra.
  - rewrite <- (dec_neg_involutive d), quantize_dec_neg, rescale_neg.
    rewrite quantize_ok; [reflexivity | unfold dec_neg; cbn [coef]; lia |].
    rewrite val_neg. assert (val d < 0).
    { assert (Hp : (0 < coef (dec_neg d))%Z) by (unfold dec_neg; cbn [coef]; lia).
      apply val_pos in Hp. rewrite val_neg in Hp. lra. }
    rewrite Rabs_left in H; lra.
Qed.

(** * Sums of amounts in cents *)

(** A sum in cents that can be quantized was not rounded by the
    context. *)
Lemma q2_fix_cents (s : Z) (r : Decimal) :
  q2 (fix_ctx (mkDec s (-2))) = Some r →
  r = mkDec s (-2) ∧ fix_ctx (mkDec s (-2)) = mkDec s (-2).
Proof.
  assert (Hpos : ∀ s r, (0 < s)%Z → q2 (fix_ctx (mkDec s (-2))) = Some r →
                        r = mkDec s (-2) ∧ fix_ctx (mkDec s (-2)) = mkDec s (-2)).
  { clear s r. intros s r Hs Hq.
    destruct (Z_lt_ge_dec s (10 ^ prec)) as [Hsmall|Hbig].
    - rewrite fix_ctx_small in Hq by (rewrite Z.abs_eq by lia; exact Hsmall).
      rewrite q2_cents in Hq by (rewrite Z.abs_eq by lia; exact Hsmall).
      injection Hq as <-. split; [reflexivity|].
      apply fix_ctx_small. rewrite Z.abs_eq by lia. exact Hsmall.
    - exfalso. set (d := mkDec s (-2)) in *.
      assert (Hd : (0 < coef d)%Z) by exact Hs.
      pose proof (fix_ctx_pos d Hd) as Hf.
      pose proof (quantize_mag _ _ _ Hq ltac:(lia)) as Hmag.
      pose proof (fix_ctx_lower d Hd) as Hl.
      destruct (mag_bounds (fix_ctx d) Hf) as [_ Hu].
      assert (Hn : (prec < ndigits s)%Z).
      { destruct (Z_le_gt_dec (ndigits s) prec) as [Hle|Hgt]; [|lia].
        apply ndigits_le_iff in Hle; [|unfold prec; lia].
        rewrite Z.abs_eq in Hle by lia. lia. }
      assert (Hmd : (prec - 2 ≤ mag d - 1)%Z) by (unfold mag, d; cbn [coef expo]; lia).
      apply bpow_le in Hmd.
      assert (Hmf : (mag (fix_ctx d) ≤ prec - 2)%Z) by lia.
      apply bpow_le in Hmf. lra. }
  destruct (Z.lt_trichotomy s 0) as [Hneg|[->|Hp]].
  - intros Hq.
    assert (Hs : mkDec s (-2) = dec_neg (mkDec (- s) (-2)))
      by (unfold dec_neg; cbn [coef expo]; f_equal; lia).
    rewrite Hs in Hq |- *.
    rewrite fix_ctx_neg in Hq |- *. unfold q2 in Hq. rewrite quantize_dec_neg in Hq.
    destruct (quantize (fix_ctx (mkDec (- s) (-2))) (-2)) as [r'|] eqn:Hq'; [|discriminate].
    apply (Hpos (- s)%Z r' ltac:(lia)) in Hq' as [-> Hfix].
    injection Hq as <-. rewrite Hfix. split; reflexivity.
  - intros Hq. rewrite fix_ctx_small in Hq |- * by (vm_compute; reflexivity).
    injection Hq as <-. split; reflexivity.
  - apply Hpos, Hp.
Qed.

Lemma dec_add_cents_unfold (a b : Decimal) :
  expo a = (-2)%Z → expo b = (-2)%Z →
  dec_add a b = fix_ctx (mkDec (coef a + coef b) (-2)).
Proof.
  intros Ha Hb. unfold dec_add. rewrite Ha, Hb, Z.min_id, Z.sub_diag.
  change (10 ^ 0)%Z with 1%Z. rewrite !Z.mul_1_r. reflexivity.
Qed.

Lemma dec_sub_cents_unfold (a b : Decimal) :
  (-2 ≤ expo a)%Z → expo b = (-2)%Z →
  dec_sub a b = fix_ctx (mkDec (coef a * 10 ^ (expo a + 2) - coef b) (-2)).
Proof.
  intros Ha Hb. unfold dec_sub, dec_add, dec_neg. cbn [coef expo].
  rewrite Hb, Z.min_r by lia. change (-2 - -2)%Z with 0%Z.
  change (10 ^ 0)%Z with 1%Z. rewrite Z.mul_1_r.
  replace (expo a - -2)%Z with (expo a + 2)%Z by lia.
  reflexivity.
Qed.

(** ** Taxable income *)

(** X4. The taxable income is in cents and never negative; it is 0.00
    when the expenses reach the gross income, and otherwise within
    0.0055 of gross income minus expenses (0.005 for the rounding to
    cents, the rest for the 28 digits of the context). *)
Theorem taxable_income_clamped (g e r : Decimal) :
  calculate_taxable_income g e = Some r →
  expo r = (-2)%Z ∧ (0 ≤ coef r)%Z
  ∧ (val g <= val e → r = mkDec 0 (-2))
  ∧ (val e < val g → Rabs (val r - (val g - val e)) <= 55 / 10000).
Proof.
  unfold calculate_taxable_income. intros H.
  set (d := add_exact g (dec_neg e)).
  assert (Hsub : dec_sub g e = fix_ctx d) by (unfold dec_sub; apply dec_add_unfold).
  assert (Hvd : val d = val g - val e) by (unfold d; rewrite val_add_exact, val_neg; lra).
  rewrite Hsub in H. split; [exact (q2_expo _ _ H)|].
  destruct (Rle_or_lt (val g) (val e)) as [Hle|Hlt].
  - assert (Hd0 : (coef d ≤ 0)%Z).
    { destruct (Z_le_gt_dec (coef d) 0) as [?|Hgt]; [assumption|].
      assert (Hp : (0 < coef d)%Z) by lia. apply val_pos in Hp. lra. }
    pose proof (fix_ctx_nonpos d Hd0) as Hf.
    assert (Hmax : py_max (of_int 0) (fix_ctx d) = of_int 0).
    { unfold py_max. replace (dec_lt (of_int 0) (fix_ctx d)) with false; [reflexivity|].
      symmetry. apply dec_lt_false_val. rewrite val_of_int.
      destruct (Z.eq_dec (coef (fix_ctx d)) 0%Z) as [H0|Hne].
      - unfold val. rewrite H0. lra.
      - assert (Hp : (0 < coef (dec_neg (fix_ctx d)))%Z) by (unfold dec_neg; cbn [coef]; lia).
        apply val_pos in Hp. rewrite val_neg in Hp. lra. }
    rewrite Hmax in H. injection H as <-.
    split; [cbn; lia|]. split; [reflexivity | lra].
  - assert (Hd0 : (0 < coef d)%Z) by (apply val_pos; lra).
    pose proof (fix_ctx_pos d Hd0) as Hf.
    assert (Hmax : py_max (of_int 0) (fix_ctx d) = fix_ctx d).
    { unfold py_max. replace (dec_lt (of_int 0) (fix_ctx d)) with true; [reflexivity|].
      symmetry. apply dec_lt_val. rewrite val_of_int. apply val_pos. exact Hf. }
    rewrite Hmax in H. split.
    + pose proof H as H'. apply quantize_Some in H' as [-> _].
      apply rescale_nonneg. lia.
    + split; [lra|]. intros _. rewrite <- Hvd. apply q2_fix_error; [lia | exact H].
Qed.

Lemma taxable_income_clamped_witness :
  calculate_taxable_income (of_int 30000) (of_int 40000) = Some (mkDec 0 (-2))
  ∧ calculate_taxable_income (mkDec 500005 (-1)) (mkDec 123456 (-3))
    = Some (mkDec 4987704 (-2))
  ∧ expo (mkDec 0 (-2)) = (-2)%Z ∧ (0 ≤ coef (mkDec 0 (-2)))%Z
  ∧ (val (of_int 30000) <= val (of_int 40000) → mkDec 0 (-2) = mkDec 0 (-2))
  ∧ (val (of_int 40000) < val (of_int 30000) →
     Rabs (val (mkDec 0 (-2)) - (val (of_int 30000) - val (of_int 40000))) <= 55 / 10000).
Proof.
  split; [vm_compute; reflexivity|]. split; [vm_compute; reflexivity|].
  apply (taxable_income_clamped (of_int 30000) (of_int 40000)). vm_compute. reflexivity.
Defined.

(** ** The totals of the aggregate result *)

Lemma q2_dec_add_cents (a b r : Decimal) :
  expo a = (-2)%Z → expo b = (-2)%Z → q2 (dec_add a b) = Some r →
  r = mkDec (coef a + coef b) (-2) ∧ dec_add a b = mkDec (coef a + coef b) (-2).
Proof.
  intros Ha Hb H. rewrite dec_add_cents_unfold in H |- * by assumption.
  apply q2_fix_cents, H.
Qed.

Lemma q2_dec_sub_cents (a b r : Decimal) :
  (-2 ≤ expo a)%Z → expo b = (-2)%Z → q2 (dec_sub a b) = Some r →
  r = mkDec (coef a * 10 ^ (expo a + 2) - coef b) (-2).
Proof.
  intros Ha Hb H. rewrite dec_sub_cents_unfold in H by assumption.
  apply q2_fix_cents in H as [-> _]. reflexivity.
Qed.

Lemma q2_pad_cents (a r : Decimal) :
  (-2 ≤ expo a)%Z → q2 a = Some r → r = mkDec (coef a * 10 ^ (expo a + 2)) (-2).
Proof.
  intros Ha H. apply quantize_Some in H as [-> _]. unfold rescale.
  destruct (Z.leb_spec (-2) (expo a)); [|lia].
  replace (expo a - -2)%Z with (expo a + 2)%Z by lia. reflexivity.
Qed.

(** X6. The totals of a result add up exactly from the amounts shown:
    [total_taxes] is income tax plus social security and
    [total_obligations] is [total_taxes] plus VAT; for a positive gross
    income with at most two decimals [net_income] is the gross income
    less [total_taxes]. *)
Theorem totals_add_up (g e : Decimal) (r : TaxCalculationResult.t) :
  calculate_all_taxes g e = Some r →
  let income_tax := IncomeTaxBreakdown.total_tax (TaxCalculationResult.income_tax r) in
  let efka :=
    SocialSecurityCalculation.total_contribution (TaxCalculationResult.social_security r) in
  let vat := VATCalculation.vat_amount (TaxCalculationResult.vat r) in
  TaxCalculationResult.total_taxes r = mkDec (coef income_tax + coef efka) (-2)
  ∧ TaxCalculationResult.total_obligations r
    = mkDec (coef (TaxCalculationResult.total_taxes r) + coef vat) (-2)
  ∧ (dec_lt (of_int 0) g = true → (-2 ≤ expo g)%Z →
     TaxCalculationResult.net_income r
     = mkDec (coef (TaxCalculationResult.gross_income r)
              - coef (TaxCalculationResult.total_taxes r)) (-2)).
Proof.
  intros H. cbn zeta. unfold calculate_all_taxes in H.
  destruct (dec_le g (of_int 0)) eqn:Hg.
  - apply bind_Some in H as (gq & Hgq & H). apply bind_Some in H as (eq & Heq & H).
    apply bind_Some in H as (it & Hit & H). apply bind_Some in H as (v & Hv & H).
    apply bind_Some in H as (ss & Hss & H). injection H as <-.
    vm_compute in Hit, Hv, Hss.
    injection Hit as <-. injection Hv as <-. injection Hss as <-.
    split; [reflexivity|]. split; [reflexivity|].
    intros Hpos. apply dec_lt_val in Hpos. apply dec_le_val in Hg. lra.
  - apply bind_Some in H as (ti & Hti & H). apply bind_Some in H as (it & Hit & H).
    apply bind_Some in H as (v & Hv & H). apply bind_Some in H as (ss & Hss & H).
    apply bind_Some in H as (er & _ & H).
    apply bind_Some in H as (gq & Hgq & H). apply bind_Some in H as (eq & Heq & H).
    apply bind_Some in H as (tq & Htq & H). apply bind_Some in H as (oq & Hoq & H).
    apply bind_Some in H as (nq & Hnq & H). apply bind_Some in H as (erq & Herq & H).
    injection H as <-. cbn.
    destruct (calculate_income_tax_ok _ _ Hit) as (Hit2 & _).
    destruct (calculate_social_security_ok _ _ Hss) as (Hss2 & _).
    destruct (calculate_vat_ok _ _ Hv) as (Hv2 & _).
    unfold cents in *.
    destruct (q2_dec_add_cents _ _ _ Hit2 Hss2 Htq) as [-> Htot].
    rewrite Htot in Hoq, Hnq.
    destruct (q2_dec_add_cents (mkDec _ (-2)) _ _ eq_refl Hv2 Hoq) as [-> _].
    split; [reflexivity|]. split; [reflexivity|].
    intros _ Hexp.
    apply (q2_dec_sub_cents g (mkDec _ (-2)) _ Hexp eq_refl) in Hnq. subst nq.
    apply (q2_pad_cents _ _ Hexp) in Hgq. subst gq. reflexivity.
Qed.

Lemma totals_add_up_witness :
  ∃ r, calculate_all_taxes (mkDec 350005 (-1)) (mkDec 500049 (-2)) = Some r
     ∧ TaxCalculationResult.total_taxes r = mkDec 1290010 (-2)
     ∧ TaxCalculationResult.total_obligations r = mkDec 2130022 (-2)
     ∧ TaxCalculationResult.net_income r = mkDec 2210040 (-2)
     ∧ TaxCalculationResult.total_taxes r
       = mkDec (coef (IncomeTaxBreakdown.total_tax (TaxCalculationResult.income_tax r))
                + coef (SocialSecurityCalculation.total_contribution
                          (TaxCalculationResult.social_security r))) (-2)
     ∧ TaxCalculationResult.total_obligations r
       = mkDec (coef (TaxCalculationResult.total_taxes r)
                + coef (VATCalculation.vat_amount (TaxCalculationResult.vat r))) (-2)
     ∧ (dec_lt (of_int 0) (mkDec 350005 (-1)) = true → (-2 ≤ expo (mkDec 350005 (-1)))%Z →
        TaxCalculationResult.net_income r
        = mkDec (coef (TaxCalculationResult.gross_income r)
                 - coef (TaxCalculationResult.total_taxes r)) (-2)).
Proof.
  eexists. split; [vm_compute; reflexivity|].
  do 3 (split; [reflexivity|]).
  apply (totals_add_up (mkDec 350005 (-1)) (mkDec 500049 (-2))). vm_compute. reflexivity.
Defined.

(** ** VAT *)

(** X5. For a positive gross income the VAT amount is 24% of it, to
    within 0.0055; when the gross income has at most 26 digits it is
    exactly 24% of it rounded half up to cents.  The rate reported is
    24.00. *)
Theorem vat_is_24_percent (g : Decimal) (r : VATCalculation.t) :
  dec_lt (of_int 0) g = true → calculate_vat g = Some r →
  VATCalculation.rate r = mkDec 2400 (-2)
  ∧ expo (VATCalculation.vat_amount r) = (-2)%Z
  ∧ Rabs (val (VATCalculation.vat_amount r) - 24 / 100 * val g) <= 55 / 10000
  ∧ ((coef g < 10 ^ 26)%Z → rnd (24 / 100 * val g) (-2) (coef (VATCalculation.vat_amount r))).
Proof.
  intros Hg H. unfold calculate_vat in H.
  replace (dec_le g (of_int 0)) with false in H.
  2:{ symmetry. apply dec_le_false_val. apply dec_lt_val in Hg. exact Hg. }
  apply bind_Some in H as (vq & Hvq & H). apply bind_Some in H as (rq & Hrq & H).
  injection H as <-. cbn [VATCalculation.rate VATCalculation.vat_amount].
  vm_compute in Hrq. injection Hrq as <-.
  split; [reflexivity|]. split; [exact (q2_expo _ _ Hvq)|].
  apply dec_lt_val in Hg. rewrite val_of_int in Hg. apply val_pos in Hg.
  set (d := mul_exact g VAT_RATE).
  assert (Hd0 : (0 ≤ coef d)%Z) by (unfold d, VAT_RATE; cbn [mul_exact coef]; lia).
  assert (Hvd : val d = 24 / 100 * val g).
  { unfold d. rewrite val_mul_exact. unfold VAT_RATE, val at 2. cbn [coef expo].
    change (bpow (-2)) with (/ (10 * (10 * 1))). lra. }
  rewrite dec_mul_unfold in Hvq. fold d in Hvq. split.
  - rewrite <- Hvd. apply q2_fix_error; assumption.
  - intros Hsmall. rewrite <- Hvd.
    rewrite fix_ctx_fits in Hvq.
    + apply quantize_Some in Hvq as [-> _]. apply rescale_rnd, Hd0.
    + apply ndigits_le_iff; [unfold prec; lia|].
      unfold d, VAT_RATE. cbn [mul_exact coef]. rewrite Z.abs_eq by lia.
      unfold prec. lia.
Qed.

Lemma vat_is_24_percent_witness :
  ∃ r, calculate_vat (mkDec 1234567 (-2)) = Some r
     ∧ VATCalculation.vat_amount r = mkDec 296296 (-2)
     ∧ VATCalculation.rate r = mkDec 2400 (-2)
     ∧ expo (VATCalculation.vat_amount r) = (-2)%Z
     ∧ Rabs (val (VATCalculation.vat_amount r) - 24 / 100 * val (mkDec 1234567 (-2)))
       <= 55 / 10000
     ∧ ((coef (mkDec 1234567 (-2)) < 10 ^ 26)%Z →
        rnd (24 / 100 * val (mkDec 1234567 (-2))) (-2) (coef (VATCalculation.vat_amount r))).
Proof.
  eexists. split; [vm_compute; reflexivity|]. split; [reflexivity|].
  apply (vat_is_24_percent (mkDec 1234567 (-2))); vm_compute; reflexivity.
Defined.

(** * Text *)

Lemma chars_app (a b : string) :
  list_ascii_of_string (a +:+ b) = list_ascii_of_string a ++ list_ascii_of_string b.
Proof. induction a as [|c a IH]; [reflexivity|]. simpl. f_equal. exact IH. Qed.

Lemma chars_inj (a b : string) : list_ascii_of_string a = list_ascii_of_string b → a = b.
Proof.
  intros H. rewrite <- (string_of_list_ascii_of_string a), H.
  apply string_of_list_ascii_of_string.
Qed.

Lemma chars_strip (s : string) :
  list_ascii_of_string (strip s) = strip_chars (list_ascii_of_string s).
Proof. unfold strip. apply list_ascii_of_string_of_list_ascii. Qed.

Lemma lstrip_head (l : list ascii) (c : ascii) (r : list ascii) :
  lstrip l = c :: r → py_isspace c = false.
Proof.
  induction l as [|a l IH]; [discriminate|]. simpl.
  destruct (py_isspace a) eqn:Ha; [exact IH|]. intros [= <- <-]. exact Ha.
Qed.

Lemma lstrip_id (l : list ascii) :
  match l with c :: _ => py_isspace c = false | [] => True end → lstrip l = l.
Proof. destruct l as [|c l]; [reflexivity|]. simpl. intros ->. reflexivity. Qed.

Lemma strip_chars_id (l : list ascii) :
  forallb (λ c, negb (py_isspace c)) l = true → strip_chars l = l.
Proof.
  intros H. unfold strip_chars.
  assert (Hall : ∀ c, In c l → py_isspace c = false).
  { intros c Hc. rewrite forallb_forall in H. specialize (H c Hc).
    destruct (py_isspace c); [discriminate | reflexivity]. }
  rewrite (lstrip_id l).
  2:{ destruct l as [|c l']; [exact I|]. apply Hall. left. reflexivity. }
  rewrite (lstrip_id (rev l)); [apply rev_involutive|].
  destruct (rev l) as [|c r] eqn:Hr; [exact I|].
  apply Hall. apply in_rev. rewrite Hr. left. reflexivity.
Qed.

Lemma contains_single (c : ascii) (l : list ascii) :
  contains_chars [c] l = existsb (Ascii.eqb c) l.
Proof.
  induction l as [|a l IH]; [reflexivity|]. simpl. rewrite IH.
  destruct (Ascii.eqb c a); reflexivity.
Qed.

Lemma name_char_not_space (c : ascii) : name_char c = true → py_isspace c = false.
Proof.
  destruct c as [[] [] [] [] [] [] [] []]; vm_compute; intros H;
    first [reflexivity | discriminate H].
Qed.

Lemma name_char_neq (c a : ascii) :
  name_char c = true → name_char a = false → Ascii.eqb a c = false.
Proof.
  intros Hc Ha. destruct (Ascii.eqb_spec a c) as [->|]; [|reflexivity]. congruence.
Qed.

Lemma forallb_name_no (a : ascii) (l : list ascii) :
  name_char a = false → forallb name_char l = true → existsb (Ascii.eqb a) l = false.
Proof.
  intros Ha. induction l as [|c l IH]; [reflexivity|]. simpl.
  intros H. apply andb_prop in H as [Hc Hl].
  rewrite (name_char_neq c a Hc Ha), (IH Hl). reflexivity.
Qed.

(** After [strip] the pattern of the name is a test of every
    character. *)
Lemma match_name_stripped (l : list ascii) :
  match_name (string_of_list_ascii (strip_chars l))
  = match strip_chars l with [] => false | _ :: _ => forallb name_char (strip_chars l) end.
Proof.
  unfold match_name. rewrite list_ascii_of_string_of_list_ascii.
  assert (Hrev : rev (strip_chars l) = lstrip (rev (lstrip l)))
    by (unfold strip_chars; apply rev_involutive).
  rewrite Hrev.
  destruct (lstrip (rev (lstrip l))) as [|c r] eqn:Hl; [reflexivity|].
  apply lstrip_head in Hl as Hc.
  destruct (Ascii.eqb_spec c "010") as [->|_]; [discriminate Hc|]. reflexivity.
Qed.

Lemma match_name_all (l : list ascii) :
  l ≠ [] → forallb name_char l = true → match_name (string_of_list_ascii l) = true.
Proof.
  intros Hne Hall. unfold match_name. rewrite list_ascii_of_string_of_list_ascii.
  destruct (rev l) as [|c r] eqn:Hr.
  - destruct l; [contradiction | exact Hall].
  - assert (Hc : name_char c = true).
    { rewrite forallb_forall in Hall. apply Hall. apply in_rev. rewrite Hr. left. reflexivity. }
    destruct (Ascii.eqb_spec c "010") as [->|_]; [discriminate Hc|].
    destruct l; [contradiction | exact Hall].
Qed.

(** * The file name of the results *)

Lemma sanitize_filename_inr (s n : string) :
  sanitize_filename s = inr n →
  n = strip s ∧ n ≠ ""%string
  ∧ forallb name_char (list_ascii_of_string n) = true ∧ contains ".." n = false.
Proof.
  unfold sanitize_filename.
  destruct (bool_decide (s = ""%string) || bool_decide (strip s = ""%string)) eqn:He;
    [discriminate|].
  apply orb_false_elim in He as [_ He]. apply bool_decide_eq_false in He.
  destruct (startswith "/" (strip s)); [discriminate|].
  destruct (second_is_colon (strip s)); [discriminate|].
  destruct (contains ".." (strip s)) eqn:Hdd; [discriminate|].
  destruct (contains "/" (strip s) || contains "\" (strip s)); [discriminate|].
  destruct (match_name (strip s)) eqn:Hm; [|discriminate].
  intros [= <-]. split; [reflexivity|]. split; [exact He|]. split; [|exact Hdd].
  unfold strip in Hm |- *. rewrite match_name_stripped in Hm.
  rewrite list_ascii_of_string_of_list_ascii.
  destruct (strip_chars (list_ascii_of_string s)); [discriminate | exact Hm].
Qed.

Lemma name_chars_not_blank (l : list ascii) :
  forallb name_char l = true → strip_chars l = l.
Proof.
  intros H. apply strip_chars_id. rewrite forallb_forall in H |- *.
  intros c Hc. rewrite (name_char_not_space c (H c Hc)). reflexivity.
Qed.

Lemma strip_name (n : string) :
  forallb name_char (list_ascii_of_string n) = true → strip n = n.
Proof.
  intros H. unfold strip. rewrite (name_chars_not_blank _ H).
  apply string_of_list_ascii_of_string.
Qed.

Lemma sanitize_filename_name (n : string) :
  n ≠ ""%string → forallb name_char (list_ascii_of_string n) = true →
  contains ".." n = false → sanitize_filename n = inr n.
Proof.
  intros Hne Hall Hdd. unfold sanitize_filename. rewrite (strip_name n Hall).
  rewrite !bool_decide_eq_false_2 by exact Hne. cbn [orb].
  set (l := list_ascii_of_string n) in *.
  assert (Hl : l ≠ []).
  { intros Hl. apply Hne. apply chars_inj. exact Hl. }
  replace (startswith "/" n) with false.
  2:{ unfold startswith. fold l. destruct l as [|c l']; [contradiction|].
      cbn [forallb] in Hall. cbn [list_ascii_of_string is_prefix].
      apply andb_prop in Hall as [Hc _].
      rewrite (name_char_neq c "/" Hc eq_refl). reflexivity. }
  replace (second_is_colon n) with false.
  2:{ unfold second_is_colon. fold l. destruct l as [|c [|c' l']]; try reflexivity.
      cbn [forallb] in Hall.
      apply andb_prop in Hall as [_ Hall]. apply andb_prop in Hall as [Hc' _].
      rewrite Ascii.eqb_sym, (name_char_neq c' ":" Hc' eq_refl). reflexivity. }
  rewrite Hdd.
  replace (contains "/" n) with false.
  2:{ unfold contains. fold l. cbn [list_ascii_of_string]. rewrite contains_single.
      symmetry. apply forallb_name_no; [reflexivity | exact Hall]. }
  replace (contains "\" n) with false.
  2:{ unfold contains. fold l. cbn [list_ascii_of_string]. rewrite contains_single.
      symmetry. apply forallb_name_no; [reflexivity | exact Hall]. }
  cbn [orb].
  rewrite <- (string_of_list_ascii_of_string n) at 1. fold l.
  rewrite (match_name_all l Hl Hall). reflexivity.
Qed.

(** X8. [sanitize_filename] returns a name exactly when the text, once
    stripped of surrounding blanks, is not empty, is made of letters,
    digits, underscore, hyphen and dot only, and has no two dots in a
    row; the name returned is the stripped text.  (The tests for an
    absolute path and for a separator only choose the message.) *)
Theorem sanitize_filename_accepts (s n : string) :
  sanitize_filename s = inr n
  ↔ n = strip s ∧ n ≠ ""%string
    ∧ forallb name_char (list_ascii_of_string n) = true ∧ contains ".." n = false.
Proof.
  split; [apply sanitize_filename_inr|].
  intros (-> & Hne & Hall & Hdd).
  unfold sanitize_filename.
  rewrite (bool_decide_eq_false_2 (strip s = ""%string)) by exact Hne.
  rewrite (bool_decide_eq_false_2 (s = ""%string)).
  2:{ intros ->. apply Hne. reflexivity. }
  cbn [orb].
  pose proof (sanitize_filename_name (strip s) Hne Hall Hdd) as H.
  unfold sanitize_filename in H. rewrite (strip_name _ Hall) in H.
  rewrite !bool_decide_eq_false_2 in H by exact Hne. exact H.
Qed.

Example sanitize_filename_examples :
  sanitize_filename "  my_taxes-2024.txt " = inr "my_taxes-2024.txt"%string
  ∧ sanitize_filename "." = inr "."%string
  ∧ sanitize_filename "   " = inl (ValueError "Filename cannot be empty")
  ∧ sanitize_filename "/etc/passwd"
    = inl (ValueError "Absolute paths are not allowed: /etc/passwd")
  ∧ sanitize_filename "C:taxes" = inl (ValueError "Absolute paths are not allowed: C:taxes")
  ∧ sanitize_filename "a..b"
    = inl (ValueError "Path traversal patterns (..) are not allowed: a..b")
  ∧ sanitize_filename "a\b"
    = inl (ValueError "Directory separators are not allowed in filename: a\b")
  ∧ sanitize_filename "a b"
    = inl (ValueError
             "Filename contains invalid characters. Only alphanumeric, underscore, hyphen, and dot are allowed: a b").
Proof. repeat split; vm_compute; reflexivity. Qed.

(** X9. A name that [sanitize_filename] returns is returned unchanged
    when it is sanitized again, and it has no separator, no colon and
    no blank. *)
Theorem sanitize_filename_idempotent (s n : string) :
  sanitize_filename s = inr n →
  sanitize_filename n = inr n
  ∧ contains "/" n = false ∧ contains "\" n = false ∧ contains ":" n = false
  ∧ strip n = n.
Proof.
  intros H. apply sanitize_filename_inr in H as (_ & Hne & Hall & Hdd).
  split; [exact (sanitize_filename_name n Hne Hall Hdd)|].
  unfold contains. cbn [list_ascii_of_string]. rewrite !contains_single.
  rewrite !forallb_name_no by (reflexivity || exact Hall).
  repeat split. apply strip_name, Hall.
Qed.

Lemma sanitize_filename_idempotent_witness :
  sanitize_filename " results.v2.txt" = inr "results.v2.txt"%string
  ∧ sanitize_filename "results.v2.txt" = inr "results.v2.txt"%string
  ∧ contains "/" "results.v2.txt" = false ∧ contains "\" "results.v2.txt" = false
  ∧ contains ":" "results.v2.txt" = false ∧ strip "results.v2.txt" = "results.v2.txt"%string.
Proof.
  split; [vm_compute; reflexivity|].
  apply (sanitize_filename_idempotent " results.v2.txt"). vm_compute. reflexivity.
Defined.

(** ** The default names *)

Lemma contains_dotdot_nodot (a b : list ascii) :
  forallb (λ c, negb (Ascii.eqb "." c)) a = true →
  contains_chars [".";"."]%char (a ++ b) = contains_chars [".";"."]%char b.
Proof.
  induction a as [|c a IH]; [reflexivity|]. intros H. cbn [forallb] in H.
  apply andb_prop in H as [Hc Ha]. cbn [app contains_chars is_prefix].
  destruct (Ascii.eqb "." c); [discriminate|]. cbn [andb orb]. apply IH, Ha.
Qed.

Lemma stamp_char_name (c : ascii) :
  stamp_char c = true → name_char c = true ∧ Ascii.eqb "." c = false.
Proof.
  unfold stamp_char, is_digit, name_char. set (n := nat_of_ascii c). intros H.
  assert (Hn : (48 ≤ n ≤ 57 ∨ n = 45 ∨ n = 95)%nat).
  { apply orb_prop in H as [H|H]; [apply orb_prop in H as [H|H]|].
    - apply andb_prop in H as [H1 H2]. apply Nat.leb_le in H1, H2. lia.
    - apply Ascii.eqb_eq in H. subst c. right; left. reflexivity.
    - apply Ascii.eqb_eq in H. subst c. right; right. reflexivity. }
  split.
  - repeat match goal with
           | |- context [Nat.leb ?a ?b] => destruct (Nat.leb_spec a b)
           | |- context [Nat.eqb ?a ?b] => destruct (Nat.eqb_spec a b)
           end; try reflexivity; lia.
  - destruct (Ascii.eqb_spec "." c) as [<-|]; [|reflexivity].
    vm_compute in n. subst n. lia.
Qed.

Lemma is_digit_stamp (c : ascii) : is_digit c = true → stamp_char c = true.
Proof. unfold stamp_char. intros ->. reflexivity. Qed.

Lemma chars_str_int (k : Z) :
  (0 ≤ k)%Z → list_ascii_of_string (str_int k) = int_digits k.
Proof.
  intros Hk. unfold str_int. rewrite list_ascii_of_string_of_list_ascii.
  destruct (Z.ltb_spec k 0); [lia|]. rewrite Z.abs_eq by lia. reflexivity.
Qed.

Lemma stamp_chars_forallb (l : list ascii) :
  forallb stamp_char l = true →
  forallb name_char l = true ∧ forallb (λ c, negb (Ascii.eqb "." c)) l = true.
Proof.
  induction l as [|c l IH]; [split; reflexivity|]. cbn [forallb]. intros H.
  apply andb_prop in H as [Hc Hl]. destruct (stamp_char_name c Hc) as [H1 H2].
  destruct (IH Hl) as [H3 H4]. rewrite H1, H2, H3, H4. split; reflexivity.
Qed.

Lemma int_digits_stamp (k : Z) : (0 ≤ k)%Z → forallb stamp_char (int_digits k) = true.
Proof.
  intros Hk. apply forallb_forall. intros c Hc.
  pose proof (int_digits_digits k Hk) as H. rewrite List.Forall_forall in H.
  apply is_digit_stamp, H, Hc.
Qed.

(** The body of a default name, before its extension. *)
Lemma default_filename_chars (ts : string) (counter : option Z) :
  match counter with Some k => (0 ≤ k)%Z | None => True end →
  forallb stamp_char (list_ascii_of_string ts) = true →
  ∃ body, list_ascii_of_string (default_filename ts counter)
          = body ++ list_ascii_of_string ".txt"
        ∧ forallb stamp_char
            (drop 16 body) = true
        ∧ take 16 body = list_ascii_of_string "tax_calculation_".
Proof.
  intros Hk Hts. destruct counter as [k|]; unfold default_filename.
  - exists (list_ascii_of_string "tax_calculation_" ++ list_ascii_of_string ts
            ++ list_ascii_of_string "_" ++ int_digits k).
    rewrite !chars_app, chars_str_int by exact Hk. rewrite <- !app_assoc.
    split; [reflexivity|]. split; [|reflexivity].
    cbn [list_ascii_of_string app drop]. rewrite drop_0.
    rewrite forallb_app, Hts. cbn [forallb andb app].
    replace (stamp_char "_") with true by reflexivity. cbn [andb].
    apply int_digits_stamp, Hk.
  - exists (list_ascii_of_string "tax_calculation_" ++ list_ascii_of_string ts).
    rewrite !chars_app. rewrite <- !app_assoc.
    split; [reflexivity|]. split; [|reflexivity].
    cbn [list_ascii_of_string app drop]. rewrite drop_0. exact Hts.
Qed.

Lemma sanitize_default_filename (ts : string) (counter : option Z) :
  match counter with Some k => (0 ≤ k)%Z | None => True end →
  forallb stamp_char (list_ascii_of_string ts) = true →
  sanitize_filename (default_filename ts counter) = inr (default_filename ts counter).
Proof.
  intros Hk Hts.
  destruct (default_filename_chars ts counter Hk Hts) as (body & Hchars & Hstamp & Hhead).
  rewrite <- (take_drop 16 body) in Hchars. rewrite Hhead in Hchars.
  destruct (stamp_chars_forallb _ Hstamp) as [Hname Hnodot].
  apply sanitize_filename_name.
  - intros Hemp. rewrite Hemp in Hchars. discriminate Hchars.
  - rewrite Hchars, !forallb_app, Hname. reflexivity.
  - unfold contains. rewrite Hchars. cbn [list_ascii_of_string].
    rewrite contains_dotdot_nodot; [reflexivity|].
    rewrite forallb_app, Hnodot. reflexivity.
Qed.

Lemma path_join_default (ts : string) (counter : option Z) :
  path_join OUTPUT_DIR (default_filename ts counter)
  = ("output/" +:+ default_filename ts counter)%string.
Proof. destruct counter; reflexivity. Qed.

Lemma alternative_filepath_free (file_exists : string → bool) (ts : string) (fuel : nat) :
  forallb stamp_char (list_ascii_of_string ts) = true →
  ∀ c k, (0 ≤ c ≤ k)%Z → (k - c < Z.of_nat fuel)%Z →
    (∀ j, (c ≤ j < k)%Z →
          file_exists ("output/" +:+ default_filename ts (Some j))%string = true) →
    file_exists ("output/" +:+ default_filename ts (Some k))%string = false →
    alternative_filepath fuel file_exists ts c
    = Some (inr ("output/" +:+ default_filename ts (Some k))%string).
Proof.
  intros Hts. induction fuel as [|fuel IH]; intros c k Hck Hfuel Hbusy Hfree; [lia|].
  cbn [alternative_filepath].
  change ("tax_calculation_" +:+ ts +:+ "_" +:+ str_int c +:+ ".txt")%string
    with (default_filename ts (Some c)).
  rewrite (sanitize_default_filename ts (Some c)) by (exact Hts || lia).
  rewrite path_join_default.
  destruct (Z.eq_dec c k) as [->|Hne].
  - rewrite Hfree. reflexivity.
  - rewrite Hbusy by lia. apply IH; [lia | lia | | exact Hfree].
    intros j Hj. apply Hbusy. lia.
Qed.

Lemma alternative_filepath_no_error (file_exists : string → bool) (ts : string) (fuel : nat) :
  forallb stamp_char (list_ascii_of_string ts) = true →
  ∀ c e, (0 ≤ c)%Z → alternative_filepath fuel file_exists ts c ≠ Some (inl e).
Proof.
  intros Hts. induction fuel as [|fuel IH]; intros c e Hc; [discriminate|].
  cbn [alternative_filepath].
  change ("tax_calculation_" +:+ ts +:+ "_" +:+ str_int c +:+ ".txt")%string
    with (default_filename ts (Some c)).
  rewrite (sanitize_default_filename ts (Some c)) by (exact Hts || lia).
  destruct (file_exists _); [apply IH; lia | discriminate].
Qed.

(** X10. With a time stamp of digits, hyphens and underscores the name of
    the results is always accepted by [sanitize_filename]: the path
    generated is [output/tax_calculation_<stamp>.txt] when no such file
    exists, and otherwise the one with the least counter [k >= 1] whose
    file does not exist; no [ValueError] is raised. *)
Theorem generated_filepath_is_free (fuel : nat) (file_exists : string → bool) (ts : string) :
  forallb stamp_char (list_ascii_of_string ts) = true →
  let path counter := ("output/" +:+ default_filename ts counter)%string in
  (file_exists (path None) = false →
   _generate_output_filepath fuel file_exists ts = Some (inr (path None)))
  ∧ (∀ k, file_exists (path None) = true → (1 ≤ k ≤ Z.of_nat fuel)%Z →
          (∀ j, (1 ≤ j < k)%Z → file_exists (path (Some j)) = true) →
          file_exists (path (Some k)) = false →
          _generate_output_filepath fuel file_exists ts = Some (inr (path (Some k))))
  ∧ (∀ e, _generate_output_filepath fuel file_exists ts ≠ Some (inl e)).
Proof.
  intros Hts path. unfold _generate_output_filepath.
  change ("tax_calculation_" +:+ ts +:+ ".txt")%string with (default_filename ts None).
  rewrite (sanitize_default_filename ts None I Hts), path_join_default.
  fold (path None). split; [|split].
  - intros ->. reflexivity.
  - intros k -> Hk Hbusy Hfree.
    apply alternative_filepath_free; [exact Hts | lia | lia | | exact Hfree].
    intros j Hj. apply Hbusy. lia.
  - intros e. destruct (file_exists (path None)); [|discriminate].
    apply alternative_filepath_no_error; [exact Hts | lia].
Qed.

Lemma generated_filepath_is_free_witness :
  let taken (p : string) :=
    bool_decide (p = "output/tax_calculation_2024-01-15_093000.txt"%string)
    || bool_decide (p = "output/tax_calculation_2024-01-15_093000_1.txt"%string) in
  _generate_output_filepath 5 taken "2024-01-15_093000"
  = Some (inr "output/tax_calculation_2024-01-15_093000_2.txt"%string).
Proof.
  intros taken.
  destruct (generated_filepath_is_free 5 taken "2024-01-15_093000" eq_refl) as (_ & H & _).
  apply (H 2%Z); [reflexivity | lia | | reflexivity].
  intros j Hj. assert (j = 1%Z) as -> by lia. reflexivity.
Defined.

#[local] Close Scope R_scope.

(** * The text of a decimal, in general *)

Lemma span_digits_end (l rest : list ascii) :
  Forall (λ c, is_digit c = true) l →
  match rest with c :: _ => is_digit c = false | [] => True end →
  span_digits (l ++ rest) = (l, rest).
Proof.
  intros Hl Hrest. destruct rest as [|c rest].
  - rewrite app_nil_r. apply span_digits_all, Hl.
  - apply span_digits_stop; assumption.
Qed.

Lemma parse_exponent_str_exp (n : Z) :
  parse_exponent ("E"%char :: str_exp n) = Some n.
Proof.
  unfold parse_exponent, str_exp. cbn [Ascii.eqb Bool.eqb orb].
  pose proof (int_digits_digits (Z.abs n) ltac:(lia)) as Hd.
  pose proof (int_digits_value (Z.abs n) ltac:(lia)) as Hv.
  pose proof (int_digits_length n) as Hl.
  destruct (Z.ltb_spec n 0).
  - cbn [parse_sign Ascii.eqb Bool.eqb]. rewrite (span_digits_all _ Hd), Hv.
    destruct (int_digits (Z.abs n)); [simpl in Hl; lia|]. f_equal. lia.
  - cbn [parse_sign Ascii.eqb Bool.eqb]. rewrite (span_digits_all _ Hd), Hv.
    destruct (int_digits (Z.abs n)); [simpl in Hl; lia|]. f_equal. lia.
Qed.

(** The text [sign int [. frac] [E exp]] is read back as its digits
    with the exponent [exp - len(frac)]. *)
Lemma parse_chars_general (neg dot : bool) (ip fp : list ascii) (E : Z) :
  Forall (λ c, is_digit c = true) ip → Forall (λ c, is_digit c = true) fp →
  ip ≠ [] → (dot = false → fp = []) →
  parse_chars ((if neg then ["-"%char] else []) ++ ip
               ++ (if dot then "."%char :: fp else [])
               ++ (if E =? 0 then [] else "E"%char :: str_exp E))
  = Some (mkDec (if neg then - digits_value (ip ++ fp) else digits_value (ip ++ fp))
                (E - Z.of_nat (length fp))).
Proof.
  intros Hip Hfp Hne Hdot. unfold parse_chars.
  set (tail := if E =? 0 then [] else "E"%char :: str_exp E).
  assert (Htail : match tail with c :: _ => is_digit c = false | [] => True end).
  { unfold tail. destruct (E =? 0); [exact I | reflexivity]. }
  assert (Hexp : parse_exponent tail = Some E).
  { unfold tail. destruct (Z.eqb_spec E 0) as [->|_]; [reflexivity|].
    apply parse_exponent_str_exp. }
  set (rest := (if dot then "."%char :: fp else []) ++ tail).
  assert (Hs : parse_sign ((if neg then ["-"%char] else []) ++ ip ++ rest) = (neg, ip ++ rest)).
  { destruct neg; [reflexivity|]. destruct Hip as [|c ip Hc _]; [contradiction|].
    simpl. apply parse_sign_digit. exact Hc. }
  rewrite Hs.
  assert (Hrest : match rest with c :: _ => is_digit c = false | [] => True end).
  { unfold rest. destruct dot; [reflexivity | exact Htail]. }
  rewrite (span_digits_end ip rest Hip Hrest).
  unfold rest. destruct dot.
  - cbn [app Ascii.eqb Bool.eqb]. rewrite (span_digits_end fp tail Hfp Htail).
    destruct (ip ++ fp) as [|c l] eqn:Eq.
    { apply app_eq_nil in Eq as [-> _]. contradiction. }
    rewrite Hexp. reflexivity.
  - rewrite (Hdot eq_refl). cbn [app].
    assert (Hnd : match tail with
                  | c :: l' => if Ascii.eqb c "." then span_digits l' else ([], tail)
                  | [] => ([], tail)
                  end = ([], tail)).
    { unfold tail. destruct (E =? 0); reflexivity. }
    rewrite Hnd. rewrite app_nil_r.
    destruct ip as [|c l]; [contradiction|].
    rewrite Hexp. reflexivity.
Qed.

Lemma str_Decimal_shape (d : Decimal) :
  ∃ (dot : bool) ip fp E,
    list_ascii_of_string (str_Decimal d)
    = (if coef d <? 0 then ["-"%char] else []) ++ ip
      ++ (if dot then "."%char :: fp else [])
      ++ (if E =? 0 then [] else "E"%char :: str_exp E)
    ∧ Forall (λ c, is_digit c = true) ip ∧ Forall (λ c, is_digit c = true) fp
    ∧ ip ≠ [] ∧ (dot = false → fp = [])
    ∧ digits_value (ip ++ fp) = Z.abs (coef d)
    ∧ E - Z.of_nat (length fp) = expo d.
Proof.
  unfold str_Decimal. cbv zeta.
  set (digits := int_digits (Z.abs (coef d))).
  pose proof (int_digits_length (coef d)) as HL. fold digits in HL.
  pose proof (int_digits_digits (Z.abs (coef d)) ltac:(lia)) as Hdig. fold digits in Hdig.
  pose proof (int_digits_value (Z.abs (coef d)) ltac:(lia)) as Hval. fold digits in Hval.
  set (L := length digits) in *.
  set (left := expo d + Z.of_nat L).
  set (dotplace := if (expo d <=? 0) && (-6 <? left) then left else 1).
  assert (Hdp : dotplace = left ∧ expo d ≤ 0 ∨ dotplace = 1 ∧ (0 < expo d ∨ left ≤ -6)).
  { unfold dotplace. destruct (Z.leb_spec (expo d) 0), (Z.ltb_spec (-6) left);
      cbn [andb]; [left; split; [reflexivity | lia] | right; lia | right; lia | right; lia]. }
  clearbody dotplace.
  set (E := left - dotplace).
  assert (HE : (if left =? dotplace then [] else "E"%char :: str_exp E)
               = (if E =? 0 then [] else "E"%char :: str_exp E)).
  { destruct (Z.eqb_spec left dotplace), (Z.eqb_spec E 0);
      try reflexivity; unfold E in *; lia. }
  rewrite HE.
  destruct (Z.leb_spec dotplace 0) as [Hsmall|Hpos].
  - exists true, ["0"%char], (replicate (Z.to_nat (- dotplace)) "0"%char ++ digits), E.
    rewrite list_ascii_of_string_of_list_ascii.
    split; [reflexivity|]. split; [repeat constructor|].
    split; [apply Forall_app; split; [apply Forall_replicate; reflexivity | exact Hdig]|].
    split; [discriminate|]. split; [discriminate|].
    split.
    + change (["0"%char] ++ ?l) with (replicate 1 "0"%char ++ l).
      rewrite !digits_value_zeros. exact Hval.
    + rewrite length_app, length_replicate. fold L. unfold E, left. lia.
  - destruct (Z.leb_spec (Z.of_nat L) dotplace) as [Hle|Hgt].
    + exists false, digits, [], E.
      assert (Hz : dotplace - Z.of_nat L = 0).
      { destruct Hdp as [[-> ?]|[-> _]]; unfold left in *; lia. }
      rewrite Hz. cbn [Z.to_nat replicate]. rewrite list_ascii_of_string_of_list_ascii.
      rewrite !app_nil_r.
      split; [reflexivity|]. split; [exact Hdig|]. split; [constructor|].
      split; [intros Hd; unfold L in HL; rewrite Hd in HL; simpl in HL; lia|].
      split; [reflexivity|]. split; [rewrite ?app_nil_r; exact Hval|].
      cbn [length]. unfold E, left. lia.
    + exists true, (take (Z.to_nat dotplace) digits), (drop (Z.to_nat dotplace) digits), E.
      rewrite list_ascii_of_string_of_list_ascii.
      split; [reflexivity|].
      split; [apply Forall_take, Hdig|]. split; [apply Forall_drop, Hdig|].
      split.
      { intros Eq. apply (f_equal length) in Eq. rewrite length_take in Eq.
        fold L in Eq. simpl in Eq. lia. }
      split; [discriminate|]. rewrite take_drop. split; [exact Hval|].
      rewrite length_drop. fold L. unfold E, left. lia.
Qed.

Lemma parse_str_Decimal_any (d : Decimal) : parse_Decimal (str_Decimal d) = Some d.
Proof.
  destruct (str_Decimal_shape d) as (dot & ip & fp & E & Hs & Hip & Hfp & Hne & Hdot & Hv & HE).
  unfold parse_Decimal. rewrite Hs, parse_chars_general by assumption.
  rewrite Hv, HE. destruct d as [c e]. cbn [coef expo].
  f_equal. f_equal. destruct (Z.ltb_spec c 0); lia.
Qed.

#[local] Open Scope R_scope.

(** * The records of models.py *)

Lemma decimal_of_str_any (d : Decimal) : decimal_of (VStr (str_Decimal d)) = Some d.
Proof. apply parse_str_Decimal_any. Qed.

(** ** The input record *)

Lemma TaxInput_new_inr (g e : Decimal) (t : TaxInput.t) :
  TaxInputDict.new g e = inr t
  ↔ dec_le (of_int 0) e = true ∧ dec_le e g = true ∧ t = TaxInput.mk g e.
Proof.
  unfold TaxInputDict.new. split.
  - destruct (dec_lt g (of_int 0)) eqn:Hg; [discriminate|].
    destruct (dec_lt e (of_int 0)) eqn:He; [discriminate|].
    destruct (dec_lt g e) eqn:Hge; [discriminate|].
    intros [= <-]. apply dec_lt_false_val in He, Hge.
    split; [apply dec_le_val, He|]. split; [apply dec_le_val, Hge | reflexivity].
  - intros (He & Hge & ->). apply dec_le_val in He, Hge. rewrite val_of_int in He.
    replace (dec_lt g (of_int 0)) with false
      by (symmetry; apply dec_lt_false_val; rewrite val_of_int; lra).
    replace (dec_lt e (of_int 0)) with false
      by (symmetry; apply dec_lt_false_val; rewrite val_of_int; lra).
    replace (dec_lt g e) with false by (symmetry; apply dec_lt_false_val; lra).
    reflexivity.
Qed.

(** X11. A [TaxInput] that has been constructed has expenses between 0
    and the gross income and holds the two amounts as given; written
    with [to_dict] and read back with [from_dict] it is the same record,
    whatever the number of decimals of the amounts. *)
Theorem TaxInput_roundtrip (g e : Decimal) (t : TaxInput.t) :
  TaxInputDict.new g e = inr t →
  dec_le (of_int 0) e = true ∧ dec_le e g = true ∧ t = TaxInput.mk g e
  ∧ TaxInputDict.from_dict (TaxInputDict.to_dict t) = Some t.
Proof.
  intros H. pose proof H as H'. apply TaxInput_new_inr in H' as (He & Hge & ->).
  split; [exact He|]. split; [exact Hge|]. split; [reflexivity|].
  unfold TaxInputDict.from_dict, TaxInputDict.to_dict.
  cbn [TaxInput.gross_income TaxInput.deductible_expenses].
  repeat (dict_lookup; cbn [mbind option_bind]).
  rewrite !decimal_of_str_any. cbn [mbind option_bind]. rewrite H. reflexivity.
Qed.

Lemma TaxInput_roundtrip_witness :
  let t := TaxInput.mk (mkDec 123456789 (-7)) (mkDec 5 3) in
  TaxInputDict.to_dict t
  = VDict {[ "gross_income"%string := VStr "12.3456789";
             "deductible_expenses"%string := VStr "5E+3" ]}
  ∧ TaxInputDict.new (mkDec 123456789 (-7)) (mkDec 5 3)
    = inl (ValueError
             "Deductible expenses (€5,000.00) cannot exceed gross income (€12.35)")
  ∧ dec_le (of_int 0) (mkDec 5 (-3)) = true ∧ dec_le (mkDec 5 (-3)) (mkDec 1 3) = true
  ∧ TaxInput.mk (mkDec 1 3) (mkDec 5 (-3)) = TaxInput.mk (mkDec 1 3) (mkDec 5 (-3))
  ∧ TaxInputDict.from_dict (TaxInputDict.to_dict (TaxInput.mk (mkDec 1 3) (mkDec 5 (-3))))
    = Some (TaxInput.mk (mkDec 1 3) (mkDec 5 (-3))).
Proof.
  intros t. split; [vm_compute; reflexivity|]. split; [vm_compute; reflexivity|].
  apply (TaxInput_roundtrip (mkDec 1 3) (mkDec 5 (-3))). vm_compute. reflexivity.
Defined.

Example TaxInput_examples :
  TaxInputDict.new (mkDec 5000000 (-2)) (mkDec 1000000 (-2))
  = inr (TaxInput.mk (mkDec 5000000 (-2)) (mkDec 1000000 (-2)))
  ∧ TaxInputDict.new (mkDec 3000000 (-2)) (mkDec 4000000 (-2))
    = inl (ValueError
             "Deductible expenses (€40,000.00) cannot exceed gross income (€30,000.00)")
  ∧ TaxInputDict.new (of_int (-1)) (of_int 0)
    = inl (ValueError "Gross income must be non-negative (got -1)")
  ∧ TaxInputDict.new (of_int 10) (mkDec (-5) (-1))
    = inl (ValueError "Deductible expenses must be non-negative (got -0.5)")
  ∧ TaxInputDict.from_dict
      (VDict {[ "gross_income"%string := VStr "1E+3";
                "deductible_expenses"%string := VInt 7 ]})
    = Some (TaxInput.mk (mkDec 1 3) (of_int 7))
  ∧ TaxInputDict.from_dict (VDict {[ "gross_income"%string := VStr "10" ]}) = None.
Proof. repeat split; vm_compute; reflexivity. Qed.

(** ** The payment schedule *)

Lemma PaymentInstallment_roundtrip (i : PaymentInstallment.t) :
  PaymentInstallmentDict.from_dict (PaymentInstallmentDict.to_dict i) = Some i.
Proof.
  destruct i as [n a].
  unfold PaymentInstallmentDict.from_dict, PaymentInstallmentDict.to_dict.
  cbn [PaymentInstallment.period_number PaymentInstallment.payment_amount].
  repeat (dict_lookup; cbn [mbind option_bind int_of]).
  rewrite decimal_of_str_any. reflexivity.
Qed.

Lemma installments_roundtrip (l : list PaymentInstallment.t) :
  mapM PaymentInstallmentDict.from_dict (PaymentInstallmentDict.to_dict <$> l) = Some l.
Proof.
  induction l as [|i l IH]; [reflexivity|].
  cbn [fmap list_fmap mapM]. rewrite (PaymentInstallment_roundtrip i).
  cbn [mbind option_bind]. rewrite IH. reflexivity.
Qed.

(** Reading a key of a dictionary from which keys were deleted. *)
Ltac dict_lookup_del :=
  unfold getitem, PaymentScheduleDict.get;
  repeat first [ rewrite lookup_delete_ne by done
               | rewrite lookup_delete_eq
               | rewrite lookup_insert_ne by done
               | rewrite lookup_insert_eq
               | rewrite lookup_singleton_eq
               | rewrite lookup_singleton_ne by done
               | rewrite lookup_empty ].

(** X12. A payment schedule written with [to_dict] and read back with
    [from_dict] is the same schedule, with its installments. *)
Theorem PaymentSchedule_roundtrip (s : PaymentSchedule.t) :
  PaymentScheduleDict.from_dict (PaymentScheduleDict.to_dict s) = Some s.
Proof.
  destruct s as [total freq n amount sched].
  unfold PaymentScheduleDict.from_dict, PaymentScheduleDict.to_dict.
  cbn [PaymentSchedule.annual_total PaymentSchedule.frequency
       PaymentSchedule.number_of_installments PaymentSchedule.installment_amount
       PaymentSchedule.schedule].
  dict_lookup_del. cbn [mbind option_bind int_of].
  rewrite !decimal_of_str_any. cbn [mbind option_bind].
  rewrite installments_roundtrip. reflexivity.
Qed.

(** X13. [PaymentSchedule.from_dict] reads a dictionary that has only the
    old key names [number_of_payments] and [payment_amount]; without
    the old and the new names it takes 0 installments of amount 0; the
    keys [annual_total] and [frequency] are required. *)
Theorem PaymentSchedule_legacy_keys (s : PaymentSchedule.t) :
  let d := PaymentScheduleDict.to_dict s in
  PaymentScheduleDict.from_dict
    (without "installment_amount" (without "number_of_installments" d)) = Some s
  ∧ PaymentScheduleDict.from_dict
      (without "payment_amount" (without "number_of_payments"
         (without "installment_amount" (without "number_of_installments" d))))
    = Some (PaymentSchedule.mk (PaymentSchedule.annual_total s) (PaymentSchedule.frequency s)
              0 (of_int 0) (PaymentSchedule.schedule s))
  ∧ PaymentScheduleDict.from_dict (without "schedule" d)
    = Some (PaymentSchedule.mk (PaymentSchedule.annual_total s) (PaymentSchedule.frequency s)
              (PaymentSchedule.number_of_installments s)
              (PaymentSchedule.installment_amount s) [])
  ∧ PaymentScheduleDict.from_dict (without "annual_total" d) = None
  ∧ PaymentScheduleDict.from_dict (without "frequency" d) = None.
Proof.
  destruct s as [total freq n amount sched]. cbn zeta.
  unfold PaymentScheduleDict.from_dict, PaymentScheduleDict.to_dict, without.
  cbn [PaymentSchedule.annual_total PaymentSchedule.frequency
       PaymentSchedule.number_of_installments PaymentSchedule.installment_amount
       PaymentSchedule.schedule].
  repeat split; dict_lookup_del; cbn [mbind option_bind int_of];
    rewrite ?decimal_of_str_any; cbn [mbind option_bind];
    rewrite ?installments_roundtrip; reflexivity.
Qed.

(** ** The result record, in general *)

Lemma str_Decimal_not_unlimited (d : Decimal) : str_Decimal d ≠ "unlimited"%string.
Proof.
  intros E. pose proof (parse_str_Decimal_any d) as Hp. rewrite E in Hp.
  vm_compute in Hp. discriminate.
Qed.

Lemma BracketBreakdown_roundtrip_any (l : BracketBreakdown.t) :
  bound_ok l → BracketBreakdownDict.from_dict (BracketBreakdownDict.to_dict l) = Some l.
Proof.
  intros Hmax. destruct l as [bmin bmax r a t]. unfold bound_ok in Hmax.
  cbn [BracketBreakdown.bracket_max] in Hmax.
  unfold BracketBreakdownDict.from_dict, BracketBreakdownDict.to_dict.
  cbn [BracketBreakdown.bracket_min BracketBreakdown.bracket_max BracketBreakdown.rate
       BracketBreakdown.taxable_amount BracketBreakdown.tax_amount].
  repeat (dict_lookup; cbn [mbind option_bind]).
  rewrite !decimal_of_str_any. cbn [mbind option_bind].
  destruct bmax as [d|s].
  - rewrite decide_False by apply str_Decimal_not_unlimited.
    rewrite parse_str_Decimal_any. reflexivity.
  - rewrite (Hmax s eq_refl). rewrite decide_True by reflexivity. reflexivity.
Qed.

Lemma bracket_lines_roundtrip_any (lines : list BracketBreakdown.t) :
  Forall bound_ok lines →
  mapM BracketBreakdownDict.from_dict (BracketBreakdownDict.to_dict <$> lines) = Some lines.
Proof.
  induction 1 as [|l lines Hl _ IH]; [reflexivity|].
  cbn [fmap list_fmap mapM]. rewrite (BracketBreakdown_roundtrip_any l Hl).
  cbn [mbind option_bind]. rewrite IH. reflexivity.
Qed.

Lemma IncomeTaxBreakdown_roundtrip_any (r : IncomeTaxBreakdown.t) :
  Forall bound_ok (IncomeTaxBreakdown.bracket_breakdown r) →
  IncomeTaxBreakdownDict.from_dict (IncomeTaxBreakdownDict.to_dict r) = Some r.
Proof.
  intros Hl. destruct r as [t e l]. cbn [IncomeTaxBreakdown.bracket_breakdown] in Hl.
  unfold IncomeTaxBreakdownDict.from_dict, IncomeTaxBreakdownDict.to_dict.
  cbn [IncomeTaxBreakdown.total_tax IncomeTaxBreakdown.effective_rate
       IncomeTaxBreakdown.bracket_breakdown].
  repeat (dict_lookup; cbn [mbind option_bind]).
  rewrite !decimal_of_str_any. cbn [mbind option_bind].
  rewrite (bracket_lines_roundtrip_any l Hl). reflexivity.
Qed.

Lemma VATCalculation_roundtrip_any (r : VATCalculation.t) :
  VATCalculationDict.from_dict (VATCalculationDict.to_dict r) = Some r.
Proof.
  destruct r as [a r].
  unfold VATCalculationDict.from_dict, VATCalculationDict.to_dict.
  cbn [VATCalculation.vat_amount VATCalculation.rate].
  repeat (dict_lookup; cbn [mbind option_bind]).
  rewrite !decimal_of_str_any. reflexivity.
Qed.

Lemma SocialSecurityCalculation_roundtrip_any (r : SocialSecurityCalculation.t) :
  SocialSecurityCalculationDict.from_dict (SocialSecurityCalculationDict.to_dict r) = Some r.
Proof.
  destruct r as [t m a r].
  unfold SocialSecurityCalculationDict.from_dict, SocialSecurityCalculationDict.to_dict.
  cbn [SocialSecurityCalculation.total_contribution SocialSecurityCalculation.main_insurance
       SocialSecurityCalculation.additional_contributions SocialSecurityCalculation.rate].
  repeat (dict_lookup; cbn [mbind option_bind]).
  rewrite !decimal_of_str_any. reflexivity.
Qed.

(** X14. Every result record whose bracket lines have a number or the
    text 'unlimited' as upper bound, whatever its amounts and their
    number of decimals, is read back by [from_dict] from its [to_dict]
    as the same record. *)
Theorem result_roundtrip_any (r : TaxCalculationResult.t) :
  Forall bound_ok
    (IncomeTaxBreakdown.bracket_breakdown (TaxCalculationResult.income_tax r)) →
  TaxCalculationResultDict.from_dict (TaxCalculationResultDict.to_dict r) = Some r.
Proof.
  intros Hl. destruct r as [g e ti it v ss tt to n er].
  cbn [TaxCalculationResult.income_tax] in Hl.
  unfold TaxCalculationResultDict.from_dict, TaxCalculationResultDict.to_dict.
  cbn [TaxCalculationResult.gross_income TaxCalculationResult.deductible_expenses
       TaxCalculationResult.taxable_income TaxCalculationResult.income_tax
       TaxCalculationResult.vat TaxCalculationResult.social_security
       TaxCalculationResult.total_taxes TaxCalculationResult.total_obligations
       TaxCalculationResult.net_income TaxCalculationResult.effective_total_rate].
  repeat (dict_lookup; cbn [mbind option_bind]).
  rewrite !decimal_of_str_any. cbn [mbind option_bind].
  rewrite (IncomeTaxBreakdown_roundtrip_any it Hl), (VATCalculation_roundtrip_any v),
    (SocialSecurityCalculation_roundtrip_any ss).
  reflexivity.
Qed.

Lemma result_roundtrip_any_witness :
  let line :=
    BracketBreakdown.mk (mkDec 0 0) (BoundDec (mkDec 1 4)) (mkDec 9 0)
      (mkDec 12345 (-3)) (mkDec 1111 (-9)) in
  let r :=
    TaxCalculationResult.mk (mkDec 12345 (-3)) (mkDec (-5) 2) (mkDec 1 30)
      (IncomeTaxBreakdown.mk (mkDec 1111 (-9)) (mkDec 7 (-12)) [line])
      (VATCalculation.mk (mkDec 3 0) (mkDec 24 0))
      (SocialSecurityCalculation.mk (mkDec 2 0) (mkDec 1 0) (mkDec 1 0) (mkDec 2 1))
      (mkDec 1 0) (mkDec 2 0) (mkDec (-3) 0) (mkDec 4 (-1)) in
  TaxCalculationResultDict.from_dict (TaxCalculationResultDict.to_dict r) = Some r.
Proof.
  intros line r. apply (result_roundtrip_any r).
  repeat constructor. intros s Hs. discriminate Hs.
Defined.

(** X15. [TaxCalculationResult.from_dict] needs each of the ten keys: a
    dictionary of a result from which one of them was removed is not
    read.  Of the keys of the income tax only [bracket_breakdown] may
    be absent, and then there are no lines. *)
Theorem from_dict_missing_key (r : TaxCalculationResult.t) :
  Forall (λ key, TaxCalculationResultDict.from_dict
                   (without key (TaxCalculationResultDict.to_dict r)) = None)
    RESULT_KEYS
  ∧ IncomeTaxBreakdownDict.from_dict
      (without "bracket_breakdown"
         (IncomeTaxBreakdownDict.to_dict (TaxCalculationResult.income_tax r)))
    = Some (IncomeTaxBreakdown.mk
              (IncomeTaxBreakdown.total_tax (TaxCalculationResult.income_tax r))
              (IncomeTaxBreakdown.effective_rate (TaxCalculationResult.income_tax r)) [])
  ∧ IncomeTaxBreakdownDict.from_dict
      (without "total_tax"
         (IncomeTaxBreakdownDict.to_dict (TaxCalculationResult.income_tax r))) = None.
Proof.
  destruct r as [g e ti it v ss tt to n er]. split; [|split].
  - unfold RESULT_KEYS.
    repeat (apply List.Forall_cons; [|]); [.. | apply List.Forall_nil];
      unfold TaxCalculationResultDict.from_dict, TaxCalculationResultDict.to_dict, without;
      cbn [TaxCalculationResult.gross_income TaxCalculationResult.deductible_expenses
           TaxCalculationResult.taxable_income TaxCalculationResult.income_tax
           TaxCalculationResult.vat TaxCalculationResult.social_security
           TaxCalculationResult.total_taxes TaxCalculationResult.total_obligations
           TaxCalculationResult.net_income TaxCalculationResult.effective_total_rate];
      dict_lookup_del; cbn [mbind option_bind];
      rewrite ?decimal_of_str_any; cbn [mbind option_bind];
      repeat match goal with
             | |- context [?f ?x ≫= _] =>
                 match f with
                 | IncomeTaxBreakdownDict.from_dict => destruct (f x)
                 | VATCalculationDict.from_dict => destruct (f x)
                 | SocialSecurityCalculationDict.from_dict => destruct (f x)
                 end; cbn [mbind option_bind]
             end; reflexivity.
  - destruct it as [t er' l].
    unfold IncomeTaxBreakdownDict.from_dict, IncomeTaxBreakdownDict.to_dict, without.
    cbn [TaxCalculationResult.income_tax IncomeTaxBreakdown.total_tax
         IncomeTaxBreakdown.effective_rate IncomeTaxBreakdown.bracket_breakdown].
    dict_lookup_del. cbn [mbind option_bind].
    rewrite !decimal_of_str_any. reflexivity.
  - destruct it as [t er' l].
    unfold IncomeTaxBreakdownDict.from_dict, IncomeTaxBreakdownDict.to_dict, without.
    cbn [TaxCalculationResult.income_tax IncomeTaxBreakdown.total_tax
         IncomeTaxBreakdown.effective_rate IncomeTaxBreakdown.bracket_breakdown].
    dict_lookup_del. reflexivity.
Qed.

(** * The calculators return on realistic amounts *)

Lemma fix_ctx_le_dec (d b : Decimal) :
  (0 ≤ coef d)%Z → val d <= val b → (Z.abs (coef b) < 10 ^ prec)%Z →
  val (fix_ctx d) <= val b.
Proof.
  intros Hd Hle Hb. destruct b as [cb eb]. cbn [coef] in Hb.
  rewrite <- (fix_ctx_small cb eb Hb). apply fix_ctx_mono; assumption.
Qed.

Lemma rnd_le_cents (x : R) (N B : Z) :
  rnd x (-2) N → 100 * x < IZR B + 1 / 2 → (N ≤ B)%Z.
Proof.
  intros Hr Hx. apply rnd_cents in Hr as [Hlo _].
  assert (H : IZR N < IZR (B + 1)) by (rewrite plus_IZR; lra).
  apply lt_IZR in H. lia.
Qed.

(** A non-negative amount below [B] cents and a half is quantized to at
    most [B] cents. *)
Lemma q2_bounded (x : Decimal) (B : Z) :
  (0 ≤ coef x)%Z → 100 * val x < IZR B + 1 / 2 → (B ≤ 10 ^ 26)%Z →
  ∃ c, q2 x = Some (mkDec c (-2)) ∧ (0 ≤ c ≤ B)%Z.
Proof.
  intros Hx Hle HB.
  assert (Hq : q2 x = Some (rescale x (-2))).
  { apply quantize_ok; [exact Hx|]. change (prec + -2 - 1)%Z with 25%Z.
    rewrite bpow_25. apply IZR_le in HB.
    change (10 ^ 26)%Z with 100000000000000000000000000%Z in HB. lra. }
  exists (coef (rescale x (-2))). split.
  - rewrite Hq. f_equal. destruct (rescale x (-2)) as [c e] eqn:E.
    pose proof (rescale_expo x (-2)) as He. rewrite E in He. cbn [expo coef] in *.
    subst e. reflexivity.
  - split; [apply rescale_nonneg, Hx|].
    eapply rnd_le_cents; [apply rescale_rnd, Hx | exact Hle].
Qed.

Lemma val_cents_mk (c : Z) : val (mkDec c (-2)) = IZR c / 100.
Proof. apply val_cents. reflexivity. Qed.

(** The context rounding and the quantization of a non-negative amount
    that is at most the decimal [b], itself below [B] cents and a
    half. *)
Lemma q2_fix_bounded (d b : Decimal) (B : Z) :
  (0 ≤ coef d)%Z → val d <= val b → (Z.abs (coef b) < 10 ^ prec)%Z →
  100 * val b < IZR B + 1 / 2 → (B ≤ 10 ^ 26)%Z →
  ∃ c, q2 (fix_ctx d) = Some (mkDec c (-2)) ∧ (0 ≤ c ≤ B)%Z.
Proof.
  intros Hd Hle Hb HbB HB.
  apply q2_bounded; [apply fix_ctx_nonneg, Hd | | exact HB].
  pose proof (fix_ctx_le_dec d b Hd Hle Hb). lra.
Qed.

(** The product of a non-negative amount and a rate, quantized. *)
Lemma q2_mul_bounded (g rate b : Decimal) (B : Z) :
  (0 ≤ coef g)%Z → (0 ≤ coef rate)%Z → val g * val rate <= val b →
  (Z.abs (coef b) < 10 ^ prec)%Z → 100 * val b < IZR B + 1 / 2 → (B ≤ 10 ^ 26)%Z →
  ∃ c, q2 (dec_mul g rate) = Some (mkDec c (-2)) ∧ (0 ≤ c ≤ B)%Z.
Proof.
  intros Hg Hr Hle Hb HbB HB. rewrite dec_mul_unfold.
  assert (Hd : (0 ≤ coef (mul_exact g rate))%Z) by (cbn [mul_exact coef]; nia).
  apply (q2_fix_bounded _ b); try assumption. rewrite val_mul_exact. exact Hle.
Qed.

Lemma val_rate (r : Z) (e : Z) : val (mkDec r e) = IZR r * bpow e.
Proof. reflexivity. Qed.

Lemma calculate_taxable_income_returns (g e : Decimal) :
  val e <= val g → val g - val e <= 10000000 →
  ∃ c, calculate_taxable_income g e = Some (mkDec c (-2)) ∧ (0 ≤ c ≤ 1000000000)%Z
     ∧ (val g - val e <= 1 / 100 → (c ≤ 1)%Z).
Proof.
  intros Hle Hmax. unfold calculate_taxable_income.
  set (d := add_exact g (dec_neg e)).
  assert (Hsub : dec_sub g e = fix_ctx d) by (unfold dec_sub; apply dec_add_unfold).
  assert (Hvd : val d = val g - val e) by (unfold d; rewrite val_add_exact, val_neg; lra).
  assert (Hd0 : (0 ≤ coef d)%Z) by (apply val_nonneg; lra).
  rewrite Hsub.
  assert (Hmax0 : q2 (py_max (of_int 0) (fix_ctx d)) = q2 (fix_ctx d)).
  { unfold py_max. destruct (dec_lt (of_int 0) (fix_ctx d)) eqn:Hlt; [reflexivity|].
    apply dec_lt_false_val in Hlt. rewrite val_of_int in Hlt.
    pose proof (fix_ctx_nonneg d Hd0) as Hf. apply val_nonneg in Hf as Hfv.
    assert (Hz : coef (fix_ctx d) = 0%Z).
    { destruct (Z.eq_dec (coef (fix_ctx d)) 0%Z) as [?|Hne]; [assumption|].
      assert (Hp : (0 < coef (fix_ctx d))%Z) by lia. apply val_pos in Hp. lra. }
    unfold q2, quantize. rewrite Hz. reflexivity. }
  rewrite Hmax0.
  destruct (q2_fix_bounded d (mkDec 1 7) 1000000000) as (c & Hq & Hc).
  - exact Hd0.
  - rewrite Hvd, val_rate, bpow_IZR by lia. simpl. lra.
  - vm_compute. reflexivity.
  - rewrite val_rate, bpow_IZR by lia. simpl. lra.
  - lia.
  - exists c. split; [exact Hq|]. split; [exact Hc|].
    intros Hsmall.
    destruct (q2_fix_bounded d (mkDec 1 (-2)) 1) as (c' & Hq' & Hc').
    + exact Hd0.
    + rewrite Hvd, val_cents_mk. lra.
    + vm_compute. reflexivity.
    + rewrite val_cents_mk. lra.
    + lia.
    + rewrite Hq in Hq'. injection Hq' as ->. lia.
Qed.

Lemma progressive_tax_one : round_cents (progressive_tax 1) = 0%Z.
Proof. reflexivity. Qed.

Lemma round_cents_mono (x y : Z) : (x ≤ y)%Z → (round_cents x ≤ round_cents y)%Z.
Proof. intros H. unfold round_cents. apply Z.div_le_mono; lia. Qed.

Lemma calculate_income_tax_returns (c : Z) :
  (0 ≤ c ≤ 1000000000)%Z →
  ∃ it, calculate_income_tax (mkDec c (-2)) = Some it
      ∧ expo (IncomeTaxBreakdown.total_tax it) = (-2)%Z
      ∧ (0 ≤ coef (IncomeTaxBreakdown.total_tax it) ≤ 440000000)%Z
      ∧ ((c ≤ 1)%Z → coef (IncomeTaxBreakdown.total_tax it) = 0%Z).
Proof.
  intros Hc. destruct (Z.eq_dec c 0%Z) as [->|Hne].
  - eexists. split; [reflexivity|]. cbn. repeat split; lia.
  - destruct (calculate_income_tax_cents c) as (E & Hr & _).
    { assert (1000000000 < 10 ^ 22)%Z by lia. lia. }
    eexists. split; [exact Hr|]. cbn [IncomeTaxBreakdown.total_tax coef expo].
    split; [reflexivity|].
    pose proof (progressive_tax_bounds c ltac:(lia)) as [Hlo Hhi].
    split.
    + split.
      * pose proof (round_cents_bounds (progressive_tax c) ltac:(lia)). lia.
      * etransitivity; [apply (round_cents_mono _ (44 * 1000000000)); lia|].
        vm_compute. discriminate.
    + intros H1. assert (c = 1%Z) as -> by lia. reflexivity.
Qed.

Lemma calculate_vat_returns (g : Decimal) :
  0 < val g → val g <= 10000000 →
  ∃ v, calculate_vat g = Some v
     ∧ expo (VATCalculation.vat_amount v) = (-2)%Z
     ∧ (0 ≤ coef (VATCalculation.vat_amount v) ≤ 240000000)%Z.
Proof.
  intros Hg Hmax. unfold calculate_vat.
  replace (dec_le g (of_int 0)) with false
    by (symmetry; apply dec_le_false_val; rewrite val_of_int; exact Hg).
  assert (Hb2 : bpow (-2) = 1 / 100) by (unfold bpow; simpl; lra).
  destruct (q2_mul_bounded g VAT_RATE (mkDec 240000000 (-2)) 240000000) as (c & Hq & Hc).
  - apply val_nonneg. lra.
  - cbn. lia.
  - unfold VAT_RATE. rewrite !val_rate, Hb2. lra.
  - vm_compute. reflexivity.
  - rewrite val_rate, Hb2. lra.
  - lia.
  - rewrite Hq. cbn [mbind option_bind].
    replace (q2 (dec_mul VAT_RATE (of_int 100))) with (Some (mkDec 2400 (-2)))
      by (vm_compute; reflexivity).
    cbn [mbind option_bind]. eexists. split; [reflexivity|].
    cbn [VATCalculation.vat_amount coef expo]. split; [reflexivity | exact Hc].
Qed.

Lemma calculate_social_security_returns (g : Decimal) :
  0 < val g → val g <= 10000000 →
  ∃ ss, calculate_social_security g = Some ss
     ∧ expo (SocialSecurityCalculation.total_contribution ss) = (-2)%Z
     ∧ (0 ≤ coef (SocialSecurityCalculation.total_contribution ss) ≤ 200000000)%Z
     ∧ (val g <= 1 / 100 → coef (SocialSecurityCalculation.total_contribution ss) = 0%Z).
Proof.
  intros Hg Hmax. unfold calculate_social_security.
  replace (dec_le g (of_int 0)) with false
    by (symmetry; apply dec_le_false_val; rewrite val_of_int; exact Hg).
  assert (Hg0 : (0 ≤ coef g)%Z) by (apply val_nonneg; lra).
  assert (Htotal : EFKA_TOTAL_RATE = mkDec 2000 (-4)) by (vm_compute; reflexivity).
  rewrite Htotal. unfold EFKA_MAIN_RATE, EFKA_ADDITIONAL_RATE.
  assert (Hb4 : bpow (-4) = 1 / 10000) by (unfold bpow; simpl; lra).
  assert (Hb2 : bpow (-2) = 1 / 100) by (unfold bpow; simpl; lra).
  assert (Hb3 : bpow (-3) = 1 / 1000) by (unfold bpow; simpl; lra).
  destruct (q2_mul_bounded g (mkDec 2000 (-4)) (mkDec 200000000 (-2)) 200000000)
    as (ct & Hqt & Hct);
    [exact Hg0 | cbn; lia | rewrite !val_rate, Hb4, Hb2; lra | vm_compute; reflexivity
     | rewrite val_rate, Hb2; lra | lia |].
  destruct (q2_mul_bounded g (mkDec 1333 (-4)) (mkDec 200000000 (-2)) 200000000)
    as (cm & Hqm & Hcm);
    [exact Hg0 | cbn; lia | rewrite !val_rate, Hb4, Hb2; lra | vm_compute; reflexivity
     | rewrite val_rate, Hb2; lra | lia |].
  destruct (q2_mul_bounded g (mkDec 667 (-4)) (mkDec 200000000 (-2)) 200000000)
    as (ca & Hqa & Hca);
    [exact Hg0 | cbn; lia | rewrite !val_rate, Hb4, Hb2; lra | vm_compute; reflexivity
     | rewrite val_rate, Hb2; lra | lia |].
  rewrite Hqt, Hqm, Hqa. cbn [mbind option_bind].
  replace (q2 (dec_mul (mkDec 2000 (-4)) (of_int 100))) with (Some (mkDec 2000 (-2)))
    by (vm_compute; reflexivity).
  cbn [mbind option_bind]. eexists. split; [reflexivity|].
  cbn [SocialSecurityCalculation.total_contribution coef expo].
  split; [reflexivity|]. split; [exact Hct|].
  intros Hsmall.
  destruct (q2_mul_bounded g (mkDec 2000 (-4)) (mkDec 2 (-3)) 0) as (c0 & Hq0 & Hc0);
    [exact Hg0 | cbn; lia | rewrite !val_rate, Hb4, Hb3; lra | vm_compute; reflexivity
     | rewrite val_rate, Hb3; lra | lia |].
  rewrite Hqt in Hq0. injection Hq0 as ->. lia.
Qed.

(** ** The whole calculation returns on realistic amounts *)

(** The context rounding keeps an amount within a representable bound,
    whatever its sign. *)
Lemma fix_ctx_abs_le (d b : Decimal) :
  Rabs (val d) <= val b → (Z.abs (coef b) < 10 ^ prec)%Z →
  Rabs (val (fix_ctx d)) <= val b.
Proof.
  intros Hle Hb. destruct (Z_le_gt_dec 0 (coef d)) as [Hc|Hc].
  - pose proof (proj1 (val_nonneg d) Hc) as Hv. rewrite Rabs_right in Hle by lra.
    pose proof (fix_ctx_le_dec d b Hc Hle Hb) as H1.
    pose proof (proj1 (val_nonneg _) (fix_ctx_nonneg d Hc)) as H2.
    rewrite Rabs_right by lra. exact H1.
  - assert (Hn : (0 ≤ coef (dec_neg d))%Z) by (unfold dec_neg; cbn [coef]; lia).
    pose proof (proj1 (val_nonneg _) Hn) as Hv. rewrite val_neg in Hv.
    rewrite Rabs_left1 in Hle by lra.
    assert (Hle' : val (dec_neg d) <= val b) by (rewrite val_neg; exact Hle).
    pose proof (fix_ctx_le_dec (dec_neg d) b Hn Hle' Hb) as H1.
    pose proof (proj1 (val_nonneg _) (fix_ctx_nonneg _ Hn)) as H2.
    rewrite fix_ctx_neg, val_neg in H1, H2.
    rewrite Rabs_left1 by lra. exact H1.
Qed.

Lemma cents_expo (d : Decimal) : expo d = (-2)%Z → d = mkDec (coef d) (-2).
Proof. destruct d as [c e]. cbn. intros ->. reflexivity. Qed.

Lemma dec_add_cents_small (a b : Decimal) :
  expo a = (-2)%Z → expo b = (-2)%Z → (Z.abs (coef a + coef b) < 10 ^ prec)%Z →
  dec_add a b = mkDec (coef a + coef b) (-2).
Proof.
  intros Ha Hb H. rewrite dec_add_cents_unfold by assumption. apply fix_ctx_small, H.
Qed.

(** On amounts with [0 <= expenses <= gross <= 10,000,000] every step of
    [calculate_all_taxes] returns, and the total of the taxes is an
    amount in cents of at most 6,400,000.00. *)
Lemma calculate_all_taxes_returns (g e : Decimal) :
  0 <= val e → val e <= val g → val g <= 10000000 →
  ∃ r, calculate_all_taxes g e = Some r
     ∧ expo (TaxCalculationResult.total_taxes r) = (-2)%Z
     ∧ (0 ≤ coef (TaxCalculationResult.total_taxes r) ≤ 640000000)%Z.
Proof.
  intros He Hle Hmax. unfold calculate_all_taxes.
  assert (Hb2 : bpow (-2) = 1 / 100) by (unfold bpow; simpl; lra).
  assert (He0 : (0 ≤ coef e)%Z) by (apply val_nonneg; exact He).
  assert (Hg0 : (0 ≤ coef g)%Z) by (apply val_nonneg; lra).
  destruct (q2_bounded g 1000000000) as (cg & Hqg & _); [exact Hg0 | lra | lia |].
  destruct (q2_bounded e 1000000000) as (ce & Hqe & _); [exact He0 | lra | lia |].
  destruct (dec_le g (of_int 0)) eqn:Hz.
  - rewrite Hqg, Hqe. cbn [mbind option_bind].
    eexists. split; [vm_compute; reflexivity|].
    cbn [TaxCalculationResult.total_taxes coef expo]. split; [reflexivity | lia].
  - apply dec_le_false_val in Hz. rewrite val_of_int in Hz.
    destruct (calculate_taxable_income_returns g e Hle ltac:(lra)) as (c & -> & Hc & Hc1).
    cbn [mbind option_bind].
    destruct (calculate_income_tax_returns c Hc) as (it & -> & Hite & Hitc & Hit0).
    cbn [mbind option_bind].
    destruct (calculate_vat_returns g Hz Hmax) as (v & -> & Hve & Hvc).
    cbn [mbind option_bind].
    destruct (calculate_social_security_returns g Hz Hmax) as (ss & -> & Hsse & Hssc & Hss0).
    cbn [mbind option_bind]. cbv zeta.
    set (t := coef (IncomeTaxBreakdown.total_tax it)) in *.
    set (s := coef (SocialSecurityCalculation.total_contribution ss)) in *.
    set (w := coef (VATCalculation.vat_amount v)) in *.
    assert (Htt : dec_add (IncomeTaxBreakdown.total_tax it)
                    (SocialSecurityCalculation.total_contribution ss) = mkDec (t + s) (-2)).
    { apply dec_add_cents_small; [assumption | assumption |].
      fold t s. unfold prec. lia. }
    rewrite Htt.
    assert (Hto : dec_add (mkDec (t + s) (-2)) (VATCalculation.vat_amount v)
                  = mkDec (t + s + w) (-2)).
    { apply dec_add_cents_small; [reflexivity | assumption |].
      cbn [coef]. fold w. unfold prec. lia. }
    rewrite Hto.
    replace (dec_lt (of_int 0) g) with true
      by (symmetry; apply dec_lt_val; rewrite val_of_int; exact Hz).
    assert (Hvtt : val (mkDec (t + s) (-2)) = IZR (t + s) / 100) by apply val_cents_mk.
    assert (Hts : 0 <= IZR (t + s) <= 640000000).
    { split; [apply IZR_le; lia | apply IZR_le; lia]. }
    destruct (percent_rate (mkDec (t + s) (-2)) g) as (D & E & -> & HE & _).
    { cbn [coef]. lia. }
    { apply val_pos. exact Hz. }
    { rewrite bpow_22, Hvtt.
      destruct (Rle_lt_dec (val g) (1 / 100)) as [Hsmall|Hbig].
      - assert (Ht0 : t = 0%Z) by (apply Hit0, Hc1; lra).
        assert (Hs0 : s = 0%Z) by (apply Hss0; exact Hsmall).
        rewrite Ht0, Hs0. simpl (IZR (0 + 0)). unfold Rdiv. rewrite !Rmult_0_l. lra.
      - apply Rdiv_le_bound; [lra|]. nra. }
    cbn [mbind option_bind]. rewrite Hqg, Hqe. cbn [mbind option_bind].
    rewrite (q2_cents (t + s)) by (unfold prec; lia).
    rewrite (q2_cents (t + s + w)) by (unfold prec; lia).
    cbn [mbind option_bind].
    assert (Hnet : ∃ n, q2 (dec_sub g (mkDec (t + s) (-2))) = Some n).
    { unfold dec_sub. rewrite dec_add_unfold. unfold q2. rewrite quantize_ok_abs; [eauto|].
      change (prec + -2 - 1)%Z with 25%Z.
      apply Rle_trans with (val (mkDec 1 7)).
      - apply fix_ctx_abs_le; [|vm_compute; reflexivity].
        rewrite val_add_exact, val_neg, Hvtt, val_rate, bpow_IZR by lia.
        simpl (IZR (10 ^ 7)). apply Rabs_le. lra.
      - rewrite val_rate, bpow_25, bpow_IZR by lia. simpl. lra. }
    destruct Hnet as (n & ->). cbn [mbind option_bind].
    rewrite HE. cbn [mbind option_bind].
    eexists. split; [reflexivity|].
    cbn [TaxCalculationResult.total_taxes coef expo]. split; [reflexivity | lia].
Qed.

(** X7. With [0 <= expenses <= gross income <= MAX_ANNUAL_INCOME] the
    calculation never fails: [calculate_all_taxes] returns a result, the
    total of its taxes is an amount in cents between 0 and 6,400,000.00,
    and [calculate_payment_schedule] returns a schedule for that total
    and a valid frequency. *)
Theorem calculation_returns_within_limits (g e : Decimal) (frequency : string) :
  dec_le (of_int 0) e = true → dec_le e g = true → dec_le g MAX_ANNUAL_INCOME = true →
  lower frequency ∈ VALID_FREQUENCIES →
  ∃ r s, calculate_all_taxes g e = Some r
    ∧ calculate_payment_schedule (TaxCalculationResult.total_taxes r) frequency = inr s
    ∧ expo (TaxCalculationResult.total_taxes r) = (-2)%Z
    ∧ (0 ≤ coef (TaxCalculationResult.total_taxes r) ≤ 640000000)%Z.
Proof.
  intros He Hle Hmax Hf.
  apply dec_le_val in He, Hle, Hmax. rewrite val_of_int in He.
  unfold MAX_ANNUAL_INCOME in Hmax. rewrite val_of_int in Hmax.
  destruct (calculate_all_taxes_returns g e He Hle Hmax) as (r & Hr & Hexp & Hcoef).
  destruct (calculate_payment_schedule_returns (TaxCalculationResult.total_taxes r)
              frequency Hf) as (s & Hs).
  { apply dec_le_val.
    rewrite (cents_expo _ Hexp), val_cents_mk, val_rate, bpow_22.
    assert (IZR (coef (TaxCalculationResult.total_taxes r)) <= 640000000)
      by (apply IZR_le; lia).
    lra. }
  exists r, s. repeat split; try assumption; lia.
Qed.

Lemma calculation_returns_within_limits_witness :
  ∃ r s, calculate_all_taxes (mkDec 9999999999 (-3)) (mkDec 1 (-30)) = Some r
    ∧ calculate_payment_schedule (TaxCalculationResult.total_taxes r) "Quarterly" = inr s
    ∧ expo (TaxCalculationResult.total_taxes r) = (-2)%Z
    ∧ (0 ≤ coef (TaxCalculationResult.total_taxes r) ≤ 640000000)%Z.
Proof.
  apply (calculation_returns_within_limits (mkDec 9999999999 (-3)) (mkDec 1 (-30))
           "Quarterly"); vm_compute; first [reflexivity | set_solver].
Defined.

(** ** The validators of the command line *)

Lemma validate_non_negative_number_inr (text field : string) (v : number) :
  validate_non_negative_number text field = inr v →
  Decimal_of_text (strip text) = Some (Number v) ∧ num_lt v (Finite (of_int 0)) = false.
Proof.
  unfold validate_non_negative_number.
  destruct (Decimal_of_text (strip text)) as [[x|sg]|]; try discriminate.
  destruct (num_lt x (Finite (of_int 0))) eqn:Hlt; [discriminate|].
  intros [= ->]. split; [reflexivity | exact Hlt].
Qed.

Lemma validate_realistic_amount_inr (v : number) (field : string) (u : unit) :
  validate_realistic_amount v field None = inr u →
  num_lt (Finite MAX_ANNUAL_INCOME) v = false.
Proof.
  unfold validate_realistic_amount.
  destruct (num_lt (Finite MAX_ANNUAL_INCOME) v); [discriminate | reflexivity].
Qed.

Lemma validate_expenses_against_income_inr (ve vi : number) (u : unit) :
  validate_expenses_against_income ve vi = inr u → num_lt vi ve = false.
Proof.
  unfold validate_expenses_against_income.
  destruct (num_lt vi ve); [discriminate | reflexivity].
Qed.

Lemma val_MAX_ANNUAL_INCOME : val MAX_ANNUAL_INCOME = 10000000.
Proof. unfold MAX_ANNUAL_INCOME. rewrite val_of_int. reflexivity. Qed.

(** A number that is not negative and not above the maximum is a finite
    amount between 0 and 10,000,000. *)
Lemma realistic_number (v : number) :
  num_lt v (Finite (of_int 0)) = false →
  num_lt (Finite MAX_ANNUAL_INCOME) v = false →
  ∃ d, v = Finite d ∧ 0 <= val d <= 10000000.
Proof.
  destruct v as [d|n]; cbn [num_lt].
  - intros H0 Hmax. exists d. split; [reflexivity|].
    apply dec_lt_false_val in H0, Hmax.
    rewrite val_of_int in H0. rewrite val_MAX_ANNUAL_INCOME in Hmax. simpl in H0. lra.
  - intros -> Hmax. discriminate.
Qed.

(** The amounts of an income text that passed the checks of
    [validate_cli_arguments]. *)
Lemma cli_income_checked (text : string) (v : number) :
  match validate_non_negative_number text "Income" with
  | inl e => inl e
  | inr v =>
      if num_lt (Finite (of_int 0)) v
      then match validate_realistic_amount v "Income" None with
           | inl e => inl e
           | inr _ => inr v
           end
      else inr v
  end = inr v →
  ∃ d, v = Finite d ∧ 0 <= val d <= 10000000.
Proof.
  destruct (validate_non_negative_number text "Income") as [err|x] eqn:Hv; [discriminate|].
  apply validate_non_negative_number_inr in Hv as [_ H0].
  destruct (num_lt (Finite (of_int 0)) x) eqn:Hpos.
  - destruct (validate_realistic_amount x "Income" None) as [err|u] eqn:Hr; [discriminate|].
    intros [= <-]. apply realistic_number; [exact H0|].
    eapply validate_realistic_amount_inr, Hr.
  - intros [= <-]. destruct x as [d|n]; cbn [num_lt] in *.
    + exists d. split; [reflexivity|].
      apply dec_lt_false_val in H0, Hpos. rewrite val_of_int in H0, Hpos.
      simpl in H0, Hpos. lra.
    + subst n. discriminate.
Qed.

Lemma cli_expenses_checked (text : string) (v : number) :
  match validate_non_negative_number text "Expenses" with
  | inl e => inl e
  | inr v =>
      match validate_realistic_amount v "Expenses" None with
      | inl e => inl e
      | inr _ => inr v
      end
  end = inr v →
  ∃ d, v = Finite d ∧ 0 <= val d <= 10000000.
Proof.
  destruct (validate_non_negative_number text "Expenses") as [err|x] eqn:Hv; [discriminate|].
  apply validate_non_negative_number_inr in Hv as [_ H0].
  destruct (validate_realistic_amount x "Expenses" None) as [err|u] eqn:Hr; [discriminate|].
  intros [= <-]. apply realistic_number; [exact H0|].
  eapply validate_realistic_amount_inr, Hr.
Qed.

Lemma exit_on_value_error_Returns {A : Type} (x : PyError + A) (a : A) :
  exit_on_value_error x = Returns a → x = inr a.
Proof. destruct x as [[]|]; cbn; intros; congruence. Qed.

(** X18. The three values that [validate_cli_arguments] accepts are
    amounts the calculation handles: income and expenses are finite with
    [0 <= expenses <= income <= 10,000,000], [calculate_all_taxes] returns
    a result on them, and [calculate_payment_schedule] returns a schedule
    for the total of the taxes when the frequency is one of the three
    choices of the command line. *)
Theorem cli_accepted_values_calculate (income expenses frequency : option string)
    (vi ve : number) (vf : string) :
  validate_cli_arguments income expenses frequency = Returns (Some (vi, ve, vf)) →
  ∃ g e r, vi = Finite g ∧ ve = Finite e ∧ frequency = Some vf
    ∧ 0 <= val e ∧ val e <= val g ∧ val g <= 10000000
    ∧ calculate_all_taxes g e = Some r
    ∧ (lower vf ∈ VALID_FREQUENCIES →
       ∃ s, calculate_payment_schedule (TaxCalculationResult.total_taxes r) vf = inr s).
Proof.
  intros H.
  assert (Hall : ∃ ti te, income = Some ti ∧ expenses = Some te ∧ frequency = Some vf
      ∧ (∃ g, vi = Finite g ∧ 0 <= val g <= 10000000)
      ∧ (∃ e, ve = Finite e ∧ 0 <= val e <= 10000000)
      ∧ num_lt vi ve = false).
  { unfold validate_cli_arguments in H.
    destruct income as [ti|]; destruct expenses as [te|]; destruct frequency as [tf|];
      cbn [outcome_bind] in H;
      repeat match type of H with
        | context [exit_on_value_error ?x] =>
            let E := fresh "E" in
            destruct (exit_on_value_error x) eqn:E; cbn [outcome_bind] in H;
            try discriminate
        end;
      try discriminate.
    injection H as -> -> ->.
    apply exit_on_value_error_Returns in E, E0, E1.
    exists ti, te. repeat split.
    - apply cli_income_checked in E. exact E.
    - apply cli_expenses_checked in E0. exact E0.
    - eapply validate_expenses_against_income_inr, E1. }
  destruct Hall as (ti & te & -> & -> & -> & (g & -> & Hg) & (e & -> & He) & Hle).
  cbn [num_lt] in Hle. apply dec_lt_false_val in Hle.
  destruct (calculate_all_taxes_returns g e) as (r & Hr & Hexp & Hcoef); [lra | lra | lra |].
  exists g, e, r. repeat split; try reflexivity; try lra; try assumption.
  intros Hf. apply calculate_payment_schedule_returns; [exact Hf|].
  apply dec_le_val.
  rewrite (cents_expo _ Hexp), val_cents_mk, val_rate, bpow_22.
  assert (IZR (coef (TaxCalculationResult.total_taxes r)) <= 640000000)
    by (apply IZR_le; lia).
  lra.
Qed.

Lemma cli_accepted_values_calculate_witness :
  ∃ g e r, Finite (mkDec 50000 0) = Finite g ∧ Finite (mkDec 100005 (-1)) = Finite e
    ∧ Some "monthly"%string = Some "monthly"%string
    ∧ 0 <= val e ∧ val e <= val g ∧ val g <= 10000000
    ∧ calculate_all_taxes g e = Some r
    ∧ (lower "monthly" ∈ VALID_FREQUENCIES →
       ∃ s, calculate_payment_schedule (TaxCalculationResult.total_taxes r) "monthly"
            = inr s).
Proof.
  apply (cli_accepted_values_calculate (Some "50000"%string) (Some " 10000.5"%string)
           (Some "monthly"%string)).
  vm_compute. reflexivity.
Defined.

(** *** Which error the validators raise *)

Lemma is_prefix_elem (p l : list ascii) (c : ascii) :
  is_prefix p l = true → c ∈ p → c ∈ l.
Proof.
  revert l. induction p as [|a p IH]; intros l Hp Hc.
  - inversion Hc.
  - destruct l as [|b l]; [discriminate|]. cbn [is_prefix] in Hp.
    apply andb_true_iff in Hp as [Hab Hp]. apply Ascii.eqb_eq in Hab. subst b.
    apply elem_of_cons in Hc as [->|Hc]; [left | right; apply IH; assumption].
Qed.

(** A text has every character of the texts it contains. *)
Lemma contains_chars_elem (sub l : list ascii) (c : ascii) :
  contains_chars sub l = true → c ∈ sub → c ∈ l.
Proof.
  induction l as [|b l IH]; cbn [contains_chars]; intros H Hc.
  - rewrite orb_false_r in H. eapply is_prefix_elem; eassumption.
  - apply orb_true_iff in H as [H|H].
    + eapply is_prefix_elem; eassumption.
    + right. apply IH; assumption.
Qed.

Lemma elem_take (x : ascii) (n : nat) (l : list ascii) : x ∈ take n l → x ∈ l.
Proof. intros H. rewrite <- (take_drop n l). apply elem_of_app. left. exact H. Qed.

Lemma elem_drop (x : ascii) (n : nat) (l : list ascii) : x ∈ drop n l → x ∈ l.
Proof. intros H. rewrite <- (take_drop n l). apply elem_of_app. right. exact H. Qed.

Lemma elem_rev (x : ascii) (l : list ascii) : x ∈ rev l ↔ x ∈ l.
Proof. rewrite !list_elem_of_In. symmetry. apply in_rev. Qed.

Lemma group3_elem (c : ascii) (l : list ascii) :
  c ∈ group3 l → c ∈ l ∨ c = ","%char.
Proof.
  remember (length l) as n eqn:Hn. revert l Hn.
  induction n as [n IH] using lt_wf_ind. intros l Hn.
  destruct l as [|a [|b [|x [|y rest]]]]; try (left; assumption).
  change (group3 (a :: b :: x :: y :: rest))
    with (a :: b :: x :: ","%char :: group3 (y :: rest)).
  intros H.
  apply elem_of_cons in H as [->|H]; [left; left|].
  apply elem_of_cons in H as [->|H]; [left; right; left|].
  apply elem_of_cons in H as [->|H]; [left; right; right; left|].
  apply elem_of_cons in H as [->|H]; [right; reflexivity|].
  apply (IH (length (y :: rest))) in H; [|subst n; cbn; lia | reflexivity].
  destruct H as [H|H]; [left; do 3 right; exact H | right; exact H].
Qed.

Lemma format_f_chars (sep : bool) (p : Z) (d : Decimal) (c : ascii) :
  c ∈ list_ascii_of_string (format_f sep p d) → amount_char c.
Proof.
  unfold format_f. cbv zeta.
  set (digits := int_digits (Z.abs (coef (rescale d (- p))))).
  assert (Hd : ∀ x, x ∈ digits → is_digit x = true).
  { intros x Hx. pose proof (int_digits_digits (Z.abs (coef (rescale d (- p))))
                               (Z.abs_nonneg _)) as H.
    rewrite List.Forall_forall in H. apply H. apply list_elem_of_In. exact Hx. }
  set (dotplace := (Z.of_nat (length digits) - p)%Z).
  assert (Hparts : ∀ i f,
    (if (dotplace <? 0)%Z
     then (["0"%char], replicate (Z.to_nat (- dotplace)) "0"%char ++ digits)
     else (match take (Z.to_nat dotplace) digits with
           | [] => ["0"%char]
           | i => i
           end,
           drop (Z.to_nat dotplace) digits)) = (i, f) →
    (∀ x, x ∈ i → is_digit x = true) ∧ (∀ x, x ∈ f → is_digit x = true)).
  { intros i f H. destruct (dotplace <? 0)%Z.
    - injection H as <- <-. split; intros x Hx.
      + apply list_elem_of_singleton in Hx as ->. reflexivity.
      + apply elem_of_app in Hx as [Hx|Hx]; [|apply Hd, Hx].
        apply elem_of_replicate in Hx as [-> _]. reflexivity.
    - injection H as <- <-. split; intros x Hx.
      + destruct (take (Z.to_nat dotplace) digits) as [|t ts] eqn:Ht.
        * apply list_elem_of_singleton in Hx as ->. reflexivity.
        * rewrite <- Ht in Hx. apply Hd. eapply elem_take, Hx.
      + apply Hd. eapply elem_drop, Hx. }
  destruct (if (dotplace <? 0)%Z then _ else _) as [i f] eqn:E.
  destruct (Hparts i f eq_refl) as [Hi Hf].
  rewrite list_ascii_of_string_of_list_ascii. intros H.
  apply elem_of_app in H as [H|H].
  { destruct (coef d <? 0)%Z; [|inversion H].
    apply list_elem_of_singleton in H as ->. do 3 right. reflexivity. }
  apply elem_of_app in H as [H|H].
  { destruct sep.
    - unfold insert_thousands_sep in H. apply (proj1 (elem_rev _ _)) in H.
      apply group3_elem in H as [H| ->]; [|right; left; reflexivity].
      apply (proj1 (elem_rev _ _)) in H. left. apply Hi, H.
    - left. apply Hi, H. }
  destruct f as [|f0 f']; [inversion H|].
  apply elem_of_cons in H as [->|H]; [right; right; left; reflexivity|].
  left. apply Hf, H.
Qed.

Lemma amount_char_not_l (c : ascii) : amount_char c → c ≠ "l"%char.
Proof. intros [H | [-> | [-> | ->]]]; try discriminate. intros ->. discriminate. Qed.

Lemma format_number_no_l (p : Z) (v : number) :
  "l"%char ∉ list_ascii_of_string (format_number p v).
Proof.
  destruct v as [d|[]]; cbn [format_number].
  - intros H. apply format_f_chars in H. eapply amount_char_not_l; [exact H | reflexivity].
  - vm_compute. intros H. repeat (apply elem_of_cons in H as [H|H]; [discriminate|]).
    inversion H.
  - vm_compute. intros H. repeat (apply elem_of_cons in H as [H|H]; [discriminate|]).
    inversion H.
Qed.

Lemma field_name_no_l (field : string) :
  field ∈ FIELD_NAMES → "l"%char ∉ list_ascii_of_string field.
Proof.
  unfold FIELD_NAMES. intros H.
  repeat (apply elem_of_cons in H as [->|H];
          [vm_compute; intros H;
           repeat (apply elem_of_cons in H as [H|H]; [discriminate|]); inversion H |]).
  inversion H.
Qed.

(** With a field name of the program, the message of a value error of
    the validators is kept: it has none of the texts that the [except]
    clause looks for. *)
Lemma revalue_kept (needles : list string) (field text body : string) :
  field ∈ FIELD_NAMES → "l"%char ∉ list_ascii_of_string body →
  Forall (λ needle, "l"%char ∈ list_ascii_of_string needle) needles →
  revalue needles field text (field +:+ body) = ValueError (field +:+ body).
Proof.
  intros Hf Hbody Hn. unfold revalue.
  destruct (existsb _ needles) eqn:E; [|reflexivity].
  apply existsb_exists in E as (needle & Hin & Hc).
  rewrite List.Forall_forall in Hn. specialize (Hn needle Hin).
  unfold contains in Hc. pose proof (contains_chars_elem _ _ _ Hc Hn) as H.
  rewrite chars_app in H.
  apply elem_of_app in H as [H|H]; [destruct (field_name_no_l field Hf H) | destruct (Hbody H)].
Qed.

Lemma negative_body_no_l (v : number) :
  "l"%char ∉ list_ascii_of_string
    (" cannot be negative (you entered " +:+ format_number 2 v +:+ ").").
Proof.
  rewrite !chars_app. intros H.
  apply elem_of_app in H as [H|H].
  { vm_compute in H. repeat (apply elem_of_cons in H as [H|H]; [discriminate|]).
    inversion H. }
  apply elem_of_app in H as [H|H]; [destruct (format_number_no_l 2 v H)|].
  vm_compute in H. repeat (apply elem_of_cons in H as [H|H]; [discriminate|]).
  inversion H.
Qed.

Lemma needle_could_not_convert : "l"%char ∈ list_ascii_of_string "could not convert".
Proof. vm_compute. do 3 right. left. Qed.

Lemma needle_Invalid_literal : "l"%char ∈ list_ascii_of_string "Invalid literal".
Proof. vm_compute. do 4 right. left. Qed.

(** X16. With a field name of the program, [validate_non_negative_number]
    returns the number that [Decimal] reads in the stripped text when it
    is not below zero, raises the value error [cannot be negative] when
    it is below zero, and raises [InvalidOperation] when the text is not
    a number or is a NaN: the message [must be a valid number] of its
    [except] clause is never produced. *)
Theorem validate_non_negative_number_outcome (text field : string) :
  field ∈ FIELD_NAMES →
  validate_non_negative_number text field =
    match Decimal_of_text (strip text) with
    | Some (Number v) =>
        if num_lt v (Finite (of_int 0))
        then inl (ValueError (field +:+ " cannot be negative (you entered "
                              +:+ format_number 2 v +:+ ")."))
        else inr v
    | _ => inl InvalidOperation
    end.
Proof.
  intros Hf. unfold validate_non_negative_number.
  destruct (Decimal_of_text (strip text)) as [[v|sg]|]; try reflexivity.
  destruct (num_lt v (Finite (of_int 0))); [|reflexivity].
  f_equal. apply revalue_kept; [exact Hf | apply negative_body_no_l |].
  constructor; [apply needle_could_not_convert|].
  constructor; [apply needle_Invalid_literal | constructor].
Qed.

Lemma validate_non_negative_number_outcome_witness :
  validate_non_negative_number " -1234.5 " "Income"
    = inl (ValueError "Income cannot be negative (you entered -1,234.50).")
  ∧ validate_non_negative_number "12,5" "Income" = inl InvalidOperation.
Proof.
  split.
  - rewrite (validate_non_negative_number_outcome " -1234.5 " "Income")
      by (vm_compute; left).
    vm_compute. reflexivity.
  - rewrite (validate_non_negative_number_outcome "12,5" "Income")
      by (vm_compute; left).
    vm_compute. reflexivity.
Defined.

Lemma num_trichotomy (v : number) :
  num_eq v (Finite (of_int 0)) = false → num_lt v (Finite (of_int 0)) = false →
  num_lt (Finite (of_int 0)) v = true.
Proof.
  destruct v as [d|n]; cbn [num_eq num_lt].
  - intros He Hl. apply dec_lt_val. apply dec_lt_false_val in Hl.
    destruct (Rle_lt_or_eq_dec _ _ Hl) as [H|H]; [exact H|].
    symmetry in H. apply dec_eq_val in H. congruence.
  - intros _ ->. reflexivity.
Qed.

(** X17. With a field name of the program, [validate_positive_number]
    returns only numbers above zero (the positive infinity among them);
    zero and the numbers below zero raise a value error with their own
    message, and a text that is not a number, or a NaN, raises
    [InvalidOperation]. *)
Theorem validate_positive_number_outcome (text field : string) :
  field ∈ FIELD_NAMES →
  match validate_positive_number text field with
  | inr v =>
      Decimal_of_text (strip text) = Some (Number v)
      ∧ num_lt (Finite (of_int 0)) v = true
  | inl (ValueError msg) =>
      ∃ v, Decimal_of_text (strip text) = Some (Number v)
        ∧ (num_eq v (Finite (of_int 0)) = true
           ∧ msg = field +:+ " must be greater than zero (you entered 0)."
           ∨ num_eq v (Finite (of_int 0)) = false
             ∧ num_lt v (Finite (of_int 0)) = true
             ∧ msg = field +:+ " cannot be negative (you entered "
                     +:+ format_number 2 v +:+ ").")
  | inl InvalidOperation =>
      Decimal_of_text (strip text) = None
      ∨ ∃ signaling, Decimal_of_text (strip text) = Some (NaN signaling)
  | inl (KeyError _) => False
  end.
Proof.
  intros Hf. unfold validate_positive_number.
  destruct (Decimal_of_text (strip text)) as [[v|sg]|]; [| right; eauto | left; reflexivity].
  destruct (num_eq v (Finite (of_int 0))) eqn:He.
  { rewrite revalue_kept; [exists v; split; [reflexivity | left; split; first [exact He | reflexivity]] | exact Hf | |].
    - vm_compute. intros H. repeat (apply elem_of_cons in H as [H|H]; [discriminate|]).
      inversion H.
    - constructor; [apply needle_could_not_convert | constructor]. }
  destruct (num_lt v (Finite (of_int 0))) eqn:Hl.
  { rewrite revalue_kept;
      [exists v; split; [reflexivity | right; repeat split; first [assumption | reflexivity]]
      | exact Hf | apply negative_body_no_l |].
    constructor; [apply needle_could_not_convert | constructor]. }
  split; [reflexivity | apply num_trichotomy; assumption].
Qed.

Lemma validate_positive_number_outcome_witness :
  ∃ v, Decimal_of_text (strip "0.00") = Some (Number v)
    ∧ (num_eq v (Finite (of_int 0)) = true
       ∧ "Income must be greater than zero (you entered 0)."%string
         = ("Income" +:+ " must be greater than zero (you entered 0).")%string
       ∨ num_eq v (Finite (of_int 0)) = false
         ∧ num_lt v (Finite (of_int 0)) = true
         ∧ "Income must be greater than zero (you entered 0)."%string
           = ("Income" +:+ " cannot be negative (you entered "
              +:+ format_number 2 v +:+ ").")%string).
Proof.
  exact (validate_positive_number_outcome "0.00" "Income" ltac:(vm_compute; left)).
Defined.

(** X19. An [--income] text that is not a number, or is a NaN, leaves
    [validate_cli_arguments] with the [InvalidOperation] that [Decimal]
    raises: the [except ValueError] clause does not catch it, so the
    program does not print its error and exit with code 1. *)
Theorem cli_not_a_number_raises (text : string) (expenses frequency : option string) :
  not_a_number text →
  validate_cli_arguments (Some text) expenses frequency = Raises InvalidOperation.
Proof.
  unfold not_a_number. intros H.
  assert (Hv : validate_non_negative_number text "Income" = inl InvalidOperation).
  { unfold validate_non_negative_number.
    destruct (Decimal_of_text (strip text)) as [[v|sg]|]; [destruct H | |]; reflexivity. }
  unfold validate_cli_arguments. rewrite Hv.
  destruct expenses, frequency; reflexivity.
Qed.

Lemma cli_not_a_number_raises_witness :
  validate_cli_arguments (Some "fifty thousand"%string) (Some "100"%string)
    (Some "monthly"%string) = Raises InvalidOperation.
Proof. apply cli_not_a_number_raises. vm_compute. exact I. Defined.

(** ** The checks of the configuration *)

Lemma dec_le_lt_negb (a b : Decimal) : dec_le a b = negb (dec_lt b a).
Proof.
  destruct (dec_lt b a) eqn:H; cbn [negb].
  - apply dec_le_false_val. apply dec_lt_val. exact H.
  - apply dec_le_val. apply dec_lt_false_val. exact H.
Qed.

(** The loop over the brackets passes exactly when the limits that are
    not infinite grow strictly. *)
Lemma check_brackets_increasing (bs : list TaxBracket.t) :
  ∀ i prev, check_brackets i prev bs = inr () ↔ increasing prev (finite_limits bs) = true.
Proof.
  induction bs as [|b rest IH]; intros i prev; [split; reflexivity|].
  unfold finite_limits in *. cbn [check_brackets omap list_omap].
  destruct (TaxBracket.upper_limit b) as [limit|]; [|apply IH].
  cbn [increasing]. rewrite dec_le_lt_negb.
  destruct (dec_lt prev limit); cbn [negb andb]; [apply IH|].
  split; discriminate.
Qed.

Lemma dec_sub_pos (a b : Decimal) : val b < val a → dec_lt (of_int 0) (dec_sub a b) = true.
Proof.
  intros H. apply dec_lt_val. rewrite val_of_int. unfold dec_sub. rewrite dec_add_unfold.
  apply val_pos, fix_ctx_pos, val_pos. rewrite val_add_exact, val_neg. lra.
Qed.

Lemma increasing_brackets_ok (bs : list TaxBracket.t) :
  ∀ prev,
    Forall (λ b, TaxBracketInit.__post_init__ b = inr ()) bs →
    increasing prev (finite_limits bs) = true →
    brackets_ok prev bs = true.
Proof.
  induction bs as [|b rest IH]; intros prev Hinit Hinc; [reflexivity|].
  apply Forall_cons in Hinit as [Hb Hrest].
  unfold finite_limits in *. cbn [omap list_omap] in Hinc. cbn [brackets_ok].
  assert (Hrate : dec_le (of_int 0) (TaxBracket.rate b) = true).
  { unfold TaxBracketInit.__post_init__, dec_between in Hb.
    destruct (dec_le (of_int 0) (TaxBracket.rate b)); [reflexivity|].
    cbn in Hb. discriminate. }
  rewrite Hrate. unfold next_limit. cbn [andb].
  destruct (TaxBracket.upper_limit b) as [limit|].
  - cbn [increasing] in Hinc. apply andb_true_iff in Hinc as [Hlt Hinc].
    rewrite dec_sub_pos by (apply dec_lt_val; exact Hlt). cbn [andb].
    apply IH; assumption.
  - cbn [andb]. apply IH; assumption.
Qed.

Lemma last_has_unbounded (bs : list TaxBracket.t) (b : TaxBracket.t) :
  last bs = Some b → TaxBracket.upper_limit b = None → has_unbounded bs = true.
Proof.
  intros Hl Hb. unfold has_unbounded. apply existsb_exists. exists b. split.
  - apply list_elem_of_In. apply last_Some_elem_of. exact Hl.
  - rewrite Hb. reflexivity.
Qed.

(** X22. A configuration that [validate_configuration] accepts, with
    brackets that passed [__post_init__], has upper limits that grow
    strictly from above zero (the infinite ones apart) and an infinite
    limit in its last bracket; its rates are not negative and the widths
    of its brackets are positive, which is what the calculation of the
    income tax relies on. *)
Theorem validated_configuration_brackets (c : Config.t) (current_year : Z) :
  Forall (λ b, TaxBracketInit.__post_init__ b = inr ()) (Config.INCOME_TAX_BRACKETS c) →
  validate_configuration c current_year = inr () →
  increasing (of_int 0) (finite_limits (Config.INCOME_TAX_BRACKETS c)) = true
  ∧ (∃ b, last (Config.INCOME_TAX_BRACKETS c) = Some b ∧ TaxBracket.upper_limit b = None)
  ∧ brackets_ok (of_int 0) (Config.INCOME_TAX_BRACKETS c) = true
  ∧ has_unbounded (Config.INCOME_TAX_BRACKETS c) = true.
Proof.
  intros Hinit H. unfold validate_configuration in H.
  destruct (check_brackets 0 (of_int 0) (Config.INCOME_TAX_BRACKETS c)) as [e|[]] eqn:Hc;
    [discriminate|].
  apply check_brackets_increasing in Hc.
  destruct (last (Config.INCOME_TAX_BRACKETS c)) as [b|] eqn:Hl; [|discriminate].
  destruct (TaxBracket.upper_limit b) as [limit|] eqn:Hb; [discriminate|].
  split; [exact Hc|]. split; [exists b; split; [reflexivity | exact Hb]|].
  split; [apply increasing_brackets_ok; assumption|].
  eapply last_has_unbounded; eassumption.
Qed.

Lemma validated_configuration_brackets_witness :
  increasing (of_int 0) (finite_limits (Config.INCOME_TAX_BRACKETS config)) = true
  ∧ (∃ b, last (Config.INCOME_TAX_BRACKETS config) = Some b
        ∧ TaxBracket.upper_limit b = None)
  ∧ brackets_ok (of_int 0) (Config.INCOME_TAX_BRACKETS config) = true
  ∧ has_unbounded (Config.INCOME_TAX_BRACKETS config) = true.
Proof.
  apply (validated_configuration_brackets config 2026).
  - repeat constructor.
  - vm_compute. reflexivity.
Defined.

#[local] Close Scope R_scope.

(** ** The text of an amount *)

Lemma digit_not_comma (c : ascii) : is_digit c = true → c ≠ ","%char.
Proof. intros H ->. discriminate. Qed.

Lemma filter_digits (l : list ascii) :
  Forall (λ c, is_digit c = true) l → filter (λ c, c ≠ ","%char) l = l.
Proof.
  induction 1 as [|c l Hc _ IH]; [reflexivity|].
  rewrite filter_cons_True by (apply digit_not_comma, Hc). f_equal. exact IH.
Qed.

Lemma filter_rev (l : list ascii) :
  filter (λ c, c ≠ ","%char) (rev l) = rev (filter (λ c, c ≠ ","%char) l).
Proof.
  induction l as [|c l IH]; [reflexivity|]. cbn [rev]. rewrite filter_app, IH.
  destruct (decide (c ≠ ","%char)) as [H|H].
  - rewrite !filter_cons_True by exact H. rewrite filter_nil. reflexivity.
  - rewrite !filter_cons_False by exact H. rewrite filter_nil, app_nil_r. reflexivity.
Qed.

(** The separators apart, the grouped digits are the digits. *)
Lemma filter_group3 (l : list ascii) :
  Forall (λ c, is_digit c = true) l → filter (λ c, c ≠ ","%char) (group3 l) = l.
Proof.
  remember (length l) as n eqn:Hn. revert l Hn.
  induction n as [n IH] using lt_wf_ind. intros l Hn Hd.
  destruct l as [|a [|b [|x [|y rest]]]]; try (apply filter_digits, Hd).
  change (group3 (a :: b :: x :: y :: rest))
    with (a :: b :: x :: ","%char :: group3 (y :: rest)).
  apply Forall_cons in Hd as [Ha Hd]. apply Forall_cons in Hd as [Hb Hd].
  apply Forall_cons in Hd as [Hx Hd].
  rewrite !filter_cons_True by (apply digit_not_comma; assumption).
  rewrite filter_cons_False by (intros H; apply H; reflexivity).
  rewrite (IH (length (y :: rest))); [reflexivity | subst n; cbn; lia | reflexivity | exact Hd].
Qed.

Lemma filter_insert_thousands_sep (l : list ascii) :
  Forall (λ c, is_digit c = true) l →
  filter (λ c, c ≠ ","%char) (insert_thousands_sep l) = l.
Proof.
  intros Hd. unfold insert_thousands_sep. rewrite filter_rev, filter_group3.
  - apply rev_involutive.
  - apply List.Forall_forall. intros c Hc. apply in_rev in Hc.
    rewrite List.Forall_forall in Hd. apply Hd, Hc.
Qed.

Lemma digits_value_lead_zero (l : list ascii) :
  digits_value ("0"%char :: l) = digits_value l.
Proof. apply (digits_value_zeros 1 l). Qed.

Lemma mk_eta (x : Decimal) (e : Z) : expo x = e → mkDec (coef x) e = x.
Proof. destruct x. cbn. intros ->. reflexivity. Qed.

(** The sign of a rescaled amount is the sign of the amount. *)
Lemma rescale_sign (d : Decimal) (t : Z) :
  (if coef d <? 0 then - Z.abs (coef (rescale d t)) else Z.abs (coef (rescale d t)))
  = coef (rescale d t).
Proof.
  destruct (Z.ltb_spec (coef d) 0) as [Hneg|Hpos].
  - assert (H : 0 ≤ coef (rescale (dec_neg d) t))
      by (apply rescale_nonneg; unfold dec_neg; cbn [coef]; lia).
    rewrite rescale_neg in H. unfold dec_neg in H. cbn [coef] in H. lia.
  - pose proof (rescale_nonneg d t Hpos). lia.
Qed.

(** The text of [format(d, ',.pf')] without its separators is read as
    the amount rounded half up to [p] places. *)
Lemma format_f_reads_back (p : Z) (d : Decimal) :
  0 ≤ p →
  parse_Decimal (remove_commas (format_f true p d)) = Some (rescale d (- p)).
Proof.
  intros Hp. unfold parse_Decimal, remove_commas, format_f. cbv zeta.
  set (r := rescale d (- p)).
  set (digits := int_digits (Z.abs (coef r))).
  assert (Hd : Forall (λ c, is_digit c = true) digits)
    by (apply int_digits_digits, Z.abs_nonneg).
  assert (Hv : digits_value digits = Z.abs (coef r))
    by (apply int_digits_value, Z.abs_nonneg).
  set (dotplace := Z.of_nat (length digits) - p).
  assert (Hparts : ∃ ip fp,
    (if dotplace <? 0
     then (["0"%char], replicate (Z.to_nat (- dotplace)) "0"%char ++ digits)
     else (match take (Z.to_nat dotplace) digits with
           | [] => ["0"%char]
           | i => i
           end,
           drop (Z.to_nat dotplace) digits)) = (ip, fp)
    ∧ Forall (λ c, is_digit c = true) ip ∧ Forall (λ c, is_digit c = true) fp
    ∧ ip ≠ [] ∧ digits_value (ip ++ fp) = Z.abs (coef r)
    ∧ Z.of_nat (length fp) = p).
  { destruct (Z.ltb_spec dotplace 0) as [Hneg|Hpos].
    - eexists _, _. split; [reflexivity|]. repeat split.
      + repeat constructor.
      + apply Forall_app. split; [|exact Hd]. apply Forall_replicate. reflexivity.
      + discriminate.
      + cbn [app]. rewrite digits_value_lead_zero, digits_value_zeros. exact Hv.
      + rewrite length_app, length_replicate. unfold dotplace in *. lia.
    - eexists _, _. split; [reflexivity|].
      assert (Hlen : Z.of_nat (length (drop (Z.to_nat dotplace) digits)) = p)
        by (rewrite length_drop; unfold dotplace in *; lia).
      destruct (take (Z.to_nat dotplace) digits) as [|t ts] eqn:Ht.
      + assert (Hdrop : drop (Z.to_nat dotplace) digits = digits).
        { rewrite <- (take_drop (Z.to_nat dotplace) digits) at 2. rewrite Ht. reflexivity. }
        repeat split; try assumption.
        * repeat constructor.
        * rewrite Hdrop. exact Hd.
        * discriminate.
        * cbn [app]. rewrite digits_value_lead_zero, Hdrop. exact Hv.
      + rewrite <- Ht. repeat split; try assumption.
        * apply Forall_take, Hd.
        * apply Forall_drop, Hd.
        * rewrite Ht. discriminate.
        * rewrite take_drop. exact Hv. }
  destruct Hparts as (ip & fp & -> & Hip & Hfp & Hne & Hval & Hlen).
  rewrite !list_ascii_of_string_of_list_ascii.
  rewrite !filter_app, filter_insert_thousands_sep by exact Hip.
  assert (Hsign : filter (λ c, c ≠ ","%char) (if coef d <? 0 then ["-"%char] else [])
                  = (if coef d <? 0 then ["-"%char] else [])).
  { destruct (coef d <? 0); [|reflexivity]. rewrite filter_cons_True by discriminate.
    reflexivity. }
  rewrite Hsign.
  destruct fp as [|f0 fp'].
  - cbn [length] in Hlen. rewrite filter_nil.
    pose proof (parse_chars_general (coef d <? 0) false ip [] 0 Hip ltac:(constructor) Hne
                  ltac:(reflexivity)) as H.
    cbn [Z.eqb] in H. rewrite !app_nil_r in H |- *. rewrite H.
    rewrite Hval. unfold r. rewrite rescale_sign. f_equal.
    apply mk_eta. rewrite rescale_expo. cbn [length] in *. lia.
  - rewrite filter_cons_True by discriminate.
    rewrite (filter_digits (f0 :: fp')) by exact Hfp.
    pose proof (parse_chars_general (coef d <? 0) true ip (f0 :: fp') 0 Hip Hfp Hne
                  ltac:(discriminate)) as H.
    cbn [Z.eqb] in H. rewrite !app_nil_r in H. rewrite H.
    rewrite Hval. unfold r. rewrite rescale_sign. f_equal.
    apply mk_eta. rewrite rescale_expo. cbn [length] in *. lia.
Qed.

(** X23. The text of [format_currency] is the euro sign followed by an
    amount that, its thousands separators removed, is read as the amount
    rounded half up to cents: the sign, the digits and the two decimal
    places are those of the rounded amount. *)
Theorem format_currency_reads_back (amount : Decimal) :
  ∃ text, format_currency amount = ("€" +:+ text)%string
    ∧ parse_Decimal (remove_commas text) = Some (rescale amount (-2)).
Proof.
  exists (format_f true 2 amount). split; [reflexivity|].
  apply (format_f_reads_back 2). lia.
Qed.

#[local] Open Scope R_scope.

(** ** The prompts for the amounts *)

Lemma get_gross_income_Returns (inputs : list string) :
  ∀ v rest, get_gross_income inputs = (Returns v, rest) →
    ∃ d, v = Finite d ∧ 0 <= val d <= 10000000.
Proof.
  induction inputs as [|line more IH]; intros v rest H; [discriminate|].
  cbn [get_gross_income] in H. cbv zeta in H.
  destruct (bool_decide (strip line = ""%string)); [eapply IH, H|].
  destruct (validate_non_negative_number (strip line) "Gross income")
    as [[msg| |key]|x] eqn:Hv; try discriminate; [eapply IH, H|].
  apply validate_non_negative_number_inr in Hv as [_ H0].
  destruct (num_lt (Finite (of_int 0)) x) eqn:Hpos.
  - destruct (validate_realistic_amount x "Gross income" None)
      as [[msg| |key]|u] eqn:Hr; try discriminate; [eapply IH, H|].
    injection H as <- _. apply realistic_number; [exact H0|].
    eapply validate_realistic_amount_inr, Hr.
  - injection H as <- _. destruct x as [d|n]; cbn [num_lt] in *.
    + exists d. split; [reflexivity|].
      apply dec_lt_false_val in H0, Hpos. rewrite val_of_int in H0, Hpos.
      simpl in H0, Hpos. lra.
    + subst n. discriminate.
Qed.

Lemma get_deductible_expenses_Returns (gross_income : number) (inputs : list string) :
  ∀ v rest, get_deductible_expenses gross_income inputs = (Returns v, rest) →
    num_lt gross_income v = false ∧ ∃ d, v = Finite d ∧ 0 <= val d <= 10000000.
Proof.
  induction inputs as [|line more IH]; intros v rest H; [discriminate|].
  cbn [get_deductible_expenses] in H. cbv zeta in H.
  destruct (bool_decide (strip line = ""%string)); [eapply IH, H|].
  destruct (validate_non_negative_number (strip line) "Expenses")
    as [[msg| |key]|x] eqn:Hv; try discriminate; [eapply IH, H|].
  apply validate_non_negative_number_inr in Hv as [_ H0].
  destruct (validate_expenses_against_income x gross_income)
    as [[msg| |key]|u] eqn:He; try discriminate; [eapply IH, H|].
  destruct (validate_realistic_amount x "Expenses" None)
    as [[msg| |key]|u'] eqn:Hr; try discriminate; [eapply IH, H|].
  injection H as <- _. split.
  - eapply validate_expenses_against_income_inr, He.
  - apply realistic_number; [exact H0|]. eapply validate_realistic_amount_inr, Hr.
Qed.

(** X20. The amounts that the two prompts return are amounts the
    calculation handles: [get_gross_income] returns a finite income
    between 0 and 10,000,000, [get_deductible_expenses] then returns
    finite expenses between 0 and that income, and [calculate_all_taxes]
    returns a result on them. *)
Theorem prompted_amounts_calculate (inputs rest rest' : list string) (vi ve : number) :
  get_gross_income inputs = (Returns vi, rest) →
  get_deductible_expenses vi rest = (Returns ve, rest') →
  ∃ g e r, vi = Finite g ∧ ve = Finite e
    ∧ 0 <= val e ∧ val e <= val g ∧ val g <= 10000000
    ∧ calculate_all_taxes g e = Some r.
Proof.
  intros Hg He.
  apply get_gross_income_Returns in Hg as (g & -> & Hg).
  apply get_deductible_expenses_Returns in He as (Hle & e & -> & He).
  cbn [num_lt] in Hle. apply dec_lt_false_val in Hle.
  destruct (calculate_all_taxes_returns g e) as (r & Hr & _); [lra | lra | lra |].
  exists g, e, r. repeat split; try reflexivity; try lra; assumption.
Qed.

Lemma prompted_amounts_calculate_witness :
  ∃ g e r, Finite (mkDec 50000 0) = Finite g ∧ Finite (mkDec 100005 (-1)) = Finite e
    ∧ 0 <= val e ∧ val e <= val g ∧ val g <= 10000000
    ∧ calculate_all_taxes g e = Some r.
Proof.
  apply (prompted_amounts_calculate
           [""; "-5"; "50000"; "60000"; " 10000.5 "; "0"]%string
           ["60000"; " 10000.5 "; "0"]%string ["0"%string]);
    vm_compute; reflexivity.
Defined.

Lemma lstrip_suffix (l : list ascii) : ∃ p, l = p ++ lstrip l.
Proof.
  induction l as [|c l [p IH]]; [exists []; reflexivity|]. cbn [lstrip].
  destruct (py_isspace c); [|exists []; reflexivity].
  exists (c :: p). cbn [app]. f_equal. exact IH.
Qed.

Lemma lstrip_starts (l : list ascii) :
  match lstrip l with c :: _ => py_isspace c = false | [] => True end.
Proof.
  destruct (lstrip l) as [|c r] eqn:E; [exact I|]. eapply lstrip_head, E.
Qed.

(** Stripping twice is stripping once. *)
Lemma strip_chars_idem (l : list ascii) : strip_chars (strip_chars l) = strip_chars l.
Proof.
  unfold strip_chars. pose proof (lstrip_starts l) as Hm.
  set (m := lstrip l) in *. pose proof (lstrip_starts (rev m)) as Hs.
  destruct (lstrip_suffix (rev m)) as [p Hp].
  set (s := lstrip (rev m)) in *.
  assert (Hrev : m = rev s ++ rev p).
  { rewrite <- (rev_involutive m), Hp, rev_app_distr. reflexivity. }
  assert (H1 : lstrip (rev s) = rev s).
  { apply lstrip_id. destruct (rev s) as [|c q] eqn:E; [exact I|].
    rewrite Hrev in Hm. cbn [app] in Hm. exact Hm. }
  rewrite H1, rev_involutive, (lstrip_id s Hs). reflexivity.
Qed.

(** X21. A line that is not a number, or is a NaN, ends [get_gross_income]
    with the [InvalidOperation] that [Decimal] raises, when the lines
    before it were empty or were rejected with a value error: the prompt
    is not repeated for it, as it is for a negative or an unrealistic
    amount. *)
Theorem prompt_not_a_number_raises (line : string) (rest : list string) :
  strip line ≠ ""%string → not_a_number line →
  get_gross_income (line :: rest) = (Raises InvalidOperation, rest).
Proof.
  intros Hne Hnan. cbn [get_gross_income]. cbv zeta.
  rewrite bool_decide_eq_false_2 by exact Hne.
  unfold not_a_number in Hnan. unfold validate_non_negative_number.
  assert (Hs : strip (strip line) = strip line).
  { apply chars_inj. rewrite !chars_strip. apply strip_chars_idem. }
  rewrite Hs.
  destruct (Decimal_of_text (strip line)) as [[v|sg]|]; [destruct Hnan | |]; reflexivity.
Qed.

Lemma prompt_not_a_number_raises_witness :
  get_gross_income ["50,000"; "50000"]%string = (Raises InvalidOperation, ["50000"%string]).
Proof.
  apply prompt_not_a_number_raises; [vm_compute; discriminate | vm_compute; exact I].
Defined.
